(** * CherepkovStack: a self-checking, growing stack (src/main.cpp)

    A shallow embedding of the class template [CherepkovStack<T, Hash,
    Allocator>] and the properties of its operations.

    - [size_t] values ([capacity_], [size_], the canaries, and the hash
      values of the default [std::hash]) are [Z] in [0, 2^64), with the
      wrap-around written out as [wrap].
    - [errors_] is an [int] used as a bit set; only [|=] and [&] touch it.
    - [buffer_] is [None] for [nullptr] and [Some cells] for a block; a fresh
      block comes from the allocator with unspecified contents.
    - A method is a function from the object to an [outcome]: it returns,
      throws [std::runtime_error], aborts on a failed [assert], or leaves
      the defined behaviour of C++ (a read or write outside the block).
    - What is written to [stderr] is kept as a trace, together with two
      ghost events that record allocation failures and growth steps.
    - An element is a value of [T] in a slot of the block. The class takes
      its block from [allocator_.allocate] and assigns to the slots; it
      constructs no element in them and destroys none. The development is
      about element types for which that is defined (such as [int]); the
      program of [main], which instantiates the class with [std::string], is
      not part of it.
    - The parameter of [push] is a reference: [push_ref] has it bound to an
      object outside the stack or to a slot of the block, and [push] is the
      call with an object outside. *)

From stdpp Require Import base numbers list strings.
From Stdlib Require Import ZArith Lia.

Local Open Scope Z_scope.

(** ** Build configuration

    [STACK_SAFE_MODE] and [STACK_ENABLE_DUMP] are macros of the source file;
    assertions are on unless [NDEBUG] is defined. *)

Record Config := {
  safe_mode : bool;
  enable_dump : bool;
  assertions : bool
}.

(** The source as it is: both macros defined. *)
Definition source_config (asserts : bool) : Config :=
  {| safe_mode := true; enable_dump := true; assertions := asserts |}.

(** ** Constants *)

Definition POISON : Z := 0xDEADBEEF.
Definition GROWTH_FACTOR_ : Z := 2.

Inductive StackErrors :=
| POP_FROM_EMPTY_STACK
| BAD_ALLOC
| WRONG_CONTROL_SUM
| CANARY_BEFORE_CORRUPTED
| CANARY_AFTER_CORRUPTED
| TOP_FROM_EMPTY_STACK.

Definition code (e : StackErrors) : Z :=
  match e with
  | POP_FROM_EMPTY_STACK => Z.shiftl 1 1
  | BAD_ALLOC => Z.shiftl 1 2
  | WRONG_CONTROL_SUM => Z.shiftl 1 3
  | CANARY_BEFORE_CORRUPTED => Z.shiftl 1 4
  | CANARY_AFTER_CORRUPTED => Z.shiftl 1 5
  | TOP_FROM_EMPTY_STACK => Z.shiftl 1 6
  end.

(** The index of the bit of an error kind. *)
Definition bit_index (e : StackErrors) : Z :=
  match e with
  | POP_FROM_EMPTY_STACK => 1
  | BAD_ALLOC => 2
  | WRONG_CONTROL_SUM => 3
  | CANARY_BEFORE_CORRUPTED => 4
  | CANARY_AFTER_CORRUPTED => 5
  | TOP_FROM_EMPTY_STACK => 6
  end.

(** The order in which [print_errors] tests the bits. *)
Definition report_order : list StackErrors :=
  [POP_FROM_EMPTY_STACK; BAD_ALLOC; WRONG_CONTROL_SUM;
   CANARY_BEFORE_CORRUPTED; CANARY_AFTER_CORRUPTED; TOP_FROM_EMPTY_STACK].

(** [size_t] arithmetic. *)
Definition wrap (x : Z) : Z := x mod 2 ^ 64.

(** ** Traces *)

(** One item per [fprintf] or [operator<<] group of the source. *)
Inductive diag (T : Type) :=
| Errors_found                 (* "Errors found:" *)
| Error_line (e : StackErrors) (* the line of one error kind, [message] *)
| Dump_open                    (* "Dump:", "stack = <address>", "{" *)
| Dump_buffer (capacity : Z)   (* "buffer[<capacity>] = <address>", "{" *)
| Dump_slot (i : Z) (x : T)    (* "[<i>] = <x>" *)
| Dump_close (size : Z)        (* "}", "size = <size>", "}" *)
| Assertion_failed.            (* the message of a failed [assert] *)

Arguments Errors_found {T}.
Arguments Error_line {T} e.
Arguments Dump_open {T}.
Arguments Dump_buffer {T} capacity.
Arguments Dump_slot {T} i x.
Arguments Dump_close {T} size.
Arguments Assertion_failed {T}.

Inductive event (T : Type) :=
| Stderr (d : diag T)          (* output on the error stream *)
| Ev_bad_alloc (n : Z)         (* ghost: allocate(n) threw std::bad_alloc *)
| Ev_expand (old new : Z).     (* ghost: expand() installed a new block *)

Arguments Stderr {T} d.
Arguments Ev_bad_alloc {T} n.
Arguments Ev_expand {T} old new.

(** The text of the line of each error kind. *)
Definition message (e : StackErrors) : string :=
  (match e with
   | POP_FROM_EMPTY_STACK => "Pop from empty stack was performed;"
   | BAD_ALLOC => "Failed to allocate memory;"
   | WRONG_CONTROL_SUM => "Check of control sum failed;"
   | CANARY_BEFORE_CORRUPTED => "Canary before the stack is corrupted;"
   | CANARY_AFTER_CORRUPTED => "Canary after the stack is corrupted;"
   | TOP_FROM_EMPTY_STACK => "Top from empty stack was performed;"
   end)%string.

(** ** Outcomes of a call *)

Inductive outcome (S E X : Type) :=
| Normal (x : X) (s : S) (tr : list E)  (* the call returned [x] *)
| Thrown (s : S) (tr : list E)          (* std::runtime_error left the call *)
| Aborted (tr : list E)                  (* an assert failed *)
| Undefined (tr : list E).              (* access outside the block *)

Arguments Normal {S E X} x s tr.
Arguments Thrown {S E X} s tr.
Arguments Aborted {S E X} tr.
Arguments Undefined {S E X} tr.

(** What a call wrote and the ghost events it left. *)
Definition trace_of {S E X} (o : outcome S E X) : list E :=
  match o with
  | Normal _ _ tr | Thrown _ tr | Aborted tr | Undefined tr => tr
  end.

(** The object after a call, when the program goes on: the call returned, or
    the caller caught the exception. *)
Definition state_of {S E X} (o : outcome S E X) : option S :=
  match o with
  | Normal _ s _ | Thrown s _ => Some s
  | Aborted _ | Undefined _ => None
  end.

(** The allocator the container is instantiated with. [allocate] fails by
    throwing [std::bad_alloc], here [None]; the block of a successful call
    holds whatever the memory held. *)
Class Allocator (A T : Type) := {
  allocate : A -> Z -> A * option (list T);
  deallocate : A -> Z -> A
}.

(** What the container relies on: a block has the length asked for, and no
    block has more than [PTRDIFF_MAX] elements. *)
Class AllocatorLaws (A T : Type) `{Allocator A T} : Prop := {
  allocate_length : forall (a a' : A) n (blk : list T),
    allocate a n = (a', Some blk) -> Z.of_nat (length blk) = n;
  allocate_max : forall (a a' : A) n (blk : list T),
    allocate a n = (a', Some blk) -> n < 2 ^ 63
}.

(** ** The object and its methods *)

Section Stack.

Context {T A : Type} `{Allocator A T}.

(** [hash_function_]: the hash functor the container was built with. Its
    results are reduced to the range of [hash_value_type] where they are
    added. *)
Variable hash_function_ : T -> Z.

Record CherepkovStack := {
  canary_before_ : Z;
  control_sum_ : Z;
  capacity_ : Z;
  size_ : Z;
  buffer_ : option (list T);
  allocator_ : A;
  errors_ : Z;
  canary_after_ : Z
}.

Definition with_errors (e : Z) (s : CherepkovStack) : CherepkovStack :=
  {| canary_before_ := canary_before_ s; control_sum_ := control_sum_ s;
     capacity_ := capacity_ s; size_ := size_ s; buffer_ := buffer_ s;
     allocator_ := allocator_ s; errors_ := e;
     canary_after_ := canary_after_ s |}.

Definition with_control_sum (c : Z) (s : CherepkovStack) : CherepkovStack :=
  {| canary_before_ := canary_before_ s; control_sum_ := c;
     capacity_ := capacity_ s; size_ := size_ s; buffer_ := buffer_ s;
     allocator_ := allocator_ s; errors_ := errors_ s;
     canary_after_ := canary_after_ s |}.

Definition with_size (n : Z) (s : CherepkovStack) : CherepkovStack :=
  {| canary_before_ := canary_before_ s; control_sum_ := control_sum_ s;
     capacity_ := capacity_ s; size_ := n; buffer_ := buffer_ s;
     allocator_ := allocator_ s; errors_ := errors_ s;
     canary_after_ := canary_after_ s |}.

Definition with_buffer (b : option (list T)) (s : CherepkovStack)
  : CherepkovStack :=
  {| canary_before_ := canary_before_ s; control_sum_ := control_sum_ s;
     capacity_ := capacity_ s; size_ := size_ s; buffer_ := b;
     allocator_ := allocator_ s; errors_ := errors_ s;
     canary_after_ := canary_after_ s |}.

Definition with_capacity (n : Z) (s : CherepkovStack) : CherepkovStack :=
  {| canary_before_ := canary_before_ s; control_sum_ := control_sum_ s;
     capacity_ := n; size_ := size_ s; buffer_ := buffer_ s;
     allocator_ := allocator_ s; errors_ := errors_ s;
     canary_after_ := canary_after_ s |}.

Definition with_allocator (a : A) (s : CherepkovStack) : CherepkovStack :=
  {| canary_before_ := canary_before_ s; control_sum_ := control_sum_ s;
     capacity_ := capacity_ s; size_ := size_ s; buffer_ := buffer_ s;
     allocator_ := a; errors_ := errors_ s;
     canary_after_ := canary_after_ s |}.

(** *** The monad of a method body *)

Definition result (X : Type) : Type := outcome CherepkovStack (event T) X.
Definition M (X : Type) : Type := CherepkovStack -> result X.

Definition ret {X} (x : X) : M X := fun s => Normal x s [].

Definition after {X} (tr : list (event T)) (o : result X) : result X :=
  match o with
  | Normal x s tr' => Normal x s (tr ++ tr')
  | Thrown s tr' => Thrown s (tr ++ tr')
  | Aborted tr' => Aborted (tr ++ tr')
  | Undefined tr' => Undefined (tr ++ tr')
  end.

Definition bind {X Y} (m : M X) (k : X -> M Y) : M Y :=
  fun s =>
    match m s with
    | Normal x s' tr => after tr (k x s')
    | Thrown s' tr => Thrown s' tr
    | Aborted tr => Aborted tr
    | Undefined tr => Undefined tr
    end.

Notation "x <- m ;; k" := (bind m (fun x => k))
  (at level 100, m at next level, right associativity).
Notation "m ;; k" := (bind m (fun _ => k))
  (at level 100, right associativity).

Definition get : M CherepkovStack := fun s => Normal s s [].
Definition modify (f : CherepkovStack -> CherepkovStack) : M unit :=
  fun s => Normal tt (f s) [].
Definition emit (e : event T) : M unit := fun s => Normal tt s [e].
Definition throw {X} : M X := fun s => Thrown s [].
Definition abort {X} : M X := fun _ => Aborted [].
Definition undefined {X} : M X := fun _ => Undefined [].

(** [assert(b)]: compiled out under [NDEBUG]; a failed assertion writes its
    message to the error stream and calls [abort]. *)
Definition assert (cfg : Config) (b : bool) : M unit :=
  if assertions cfg
  then (if b then ret tt else (emit (Stderr Assertion_failed);; abort))
  else ret tt.

(** *** Macros *)

Definition has_error (e : StackErrors) (s : CherepkovStack) : bool :=
  negb (Z.land (errors_ s) (code e) =? 0).

Definition set_error (e : StackErrors) : M unit :=
  modify (fun s => with_errors (Z.lor (errors_ s) (code e)) s).

(** *** Access to the block *)

(** [buffer_[i]] read: defined for a slot of the block only. *)
Definition slot (s : CherepkovStack) (i : Z) : option T :=
  match buffer_ s with
  | Some cells => if 0 <=? i then cells !! Z.to_nat i else None
  | None => None
  end.

Definition read_slot (i : Z) : M T :=
  fun s => match slot s i with
           | Some x => Normal x s []
           | None => Undefined []
           end.

(** [buffer_[i] = x]. *)
Definition write_slot (i : Z) (x : T) : M unit :=
  fun s =>
    match buffer_ s with
    | Some cells =>
        if (0 <=? i) && (i <? Z.of_nat (length cells))
        then Normal tt (with_buffer (Some (<[Z.to_nat i := x]> cells)) s) []
        else Undefined []
    | None => Undefined []
    end.

(** *** Private methods *)

(** The loop of [check_control_sum]: [control_sum += hash_function_(buffer_[i])]
    for [i] from the start of [cells], [remaining] more times. *)
Fixpoint control_sum_loop (cells : list T) (remaining control_sum : Z)
  : option Z :=
  if remaining <=? 0 then Some control_sum
  else match cells with
       | [] => None
       | x :: rest =>
           control_sum_loop rest (remaining - 1)
             (wrap (control_sum + hash_function_ x))
       end.

Definition check_control_sum : M unit :=
  s <- get;;
  match control_sum_loop (default [] (buffer_ s)) (size_ s) 0 with
  | Some control_sum =>
      if control_sum_ s =? control_sum then ret tt
      else set_error WRONG_CONTROL_SUM
  | None => undefined
  end.

Definition check_canaries : M unit :=
  s <- get;;
  (if canary_before_ s =? POISON then ret tt
   else set_error CANARY_BEFORE_CORRUPTED);;
  (if canary_after_ s =? POISON then ret tt
   else set_error CANARY_AFTER_CORRUPTED).

(** The loop of [dump]: one line per slot [i], [i + 1], ... *)
Fixpoint dump_loop (cells : list T) (remaining i : Z)
  : option (list (event T)) :=
  if remaining <=? 0 then Some []
  else match cells with
       | [] => None
       | x :: rest =>
           match dump_loop rest (remaining - 1) (i + 1) with
           | Some lines => Some (Stderr (Dump_slot i x) :: lines)
           | None => None
           end
       end.

Definition dump : M unit :=
  s <- get;;
  match buffer_ s with
  | None => ret tt
  | Some cells =>
      emit (Stderr Dump_open);;
      emit (Stderr (Dump_buffer (capacity_ s)));;
      match dump_loop cells (capacity_ s) 0 with
      | Some lines => fun s' => Normal tt s' lines
      | None => undefined
      end;;
      emit (Stderr (Dump_close (size_ s)))
  end.

(** One [if (has_error(e)) fprintf(...)] of [print_errors]. *)
Definition print_error (e : StackErrors) : M unit :=
  s <- get;;
  if has_error e s then emit (Stderr (Error_line e)) else ret tt.

Definition print_errors (cfg : Config) : M unit :=
  s <- get;;
  if errors_ s =? 0 then ret tt
  else
    emit (Stderr Errors_found);;
    print_error POP_FROM_EMPTY_STACK;;
    print_error BAD_ALLOC;;
    print_error WRONG_CONTROL_SUM;;
    print_error CANARY_BEFORE_CORRUPTED;;
    print_error CANARY_AFTER_CORRUPTED;;
    print_error TOP_FROM_EMPTY_STACK;;
    (if enable_dump cfg then dump else ret tt);;
    throw.

Definition check_validity (cfg : Config) : M unit :=
  check_control_sum;;
  check_canaries;;
  print_errors cfg.

(** The macro [CHECK_VALIDITY]. *)
Definition CHECK_VALIDITY (cfg : Config) : M unit :=
  if safe_mode cfg then check_validity cfg else ret tt.

(** [std::copy(src, src + n, dst)]: [n] elements are read from [src] and
    written over the first [n] slots of [dst]. *)
Definition std_copy (src : option (list T)) (n : Z) (dst : list T)
  : option (list T) :=
  if n <=? 0 then Some dst
  else match src with
       | None => None
       | Some cells =>
           if (n <=? Z.of_nat (length cells)) && (n <=? Z.of_nat (length dst))
           then Some (take (Z.to_nat n) cells ++ drop (Z.to_nat n) dst)
           else None
       end.

Definition expand (cfg : Config) : M unit :=
  s <- get;;
  assert cfg (size_ s =? capacity_ s);;
  let new_capacity := wrap (size_ s * GROWTH_FACTOR_) in
  match allocate (allocator_ s) new_capacity with
  | (a, None) =>
      modify (with_allocator a);;
      emit (Ev_bad_alloc new_capacity);;
      set_error BAD_ALLOC
  | (a, Some new_buffer) =>
      match std_copy (buffer_ s) (capacity_ s) new_buffer with
      | None => undefined
      | Some filled =>
          modify (with_allocator (deallocate a (capacity_ s)));;
          modify (with_buffer (Some filled));;
          modify (with_capacity new_capacity);;
          emit (Ev_expand (capacity_ s) new_capacity)
      end
  end.

(** *** Public methods *)

(** The object as the member initialisers leave it, before the body of the
    constructor runs. *)
Definition initial (capacity : Z) (a : A) : CherepkovStack :=
  {| canary_before_ := POISON; control_sum_ := 0; capacity_ := capacity;
     size_ := 0; buffer_ := None; allocator_ := a; errors_ := 0;
     canary_after_ := POISON |}.

(** The body of the constructor. [Thrown] means that construction failed:
    the exception leaves the constructor and there is no object. *)
Definition construct_body (cfg : Config) : M unit :=
  s <- get;;
  match allocate (allocator_ s) (capacity_ s) with
  | (a, Some blk) =>
      modify (with_allocator a);;
      modify (with_buffer (Some blk))
  | (a, None) =>
      modify (with_allocator a);;
      emit (Ev_bad_alloc (capacity_ s));;
      set_error BAD_ALLOC
  end;;
  CHECK_VALIDITY cfg.

Definition construct (cfg : Config) (capacity : Z) (a : A) : result unit :=
  construct_body cfg (initial capacity a).

Definition empty (cfg : Config) : M bool :=
  CHECK_VALIDITY cfg;;
  s <- get;;
  ret (size_ s =? 0).

Definition pop (cfg : Config) : M unit :=
  s <- get;;
  (if size_ s =? 0 then set_error POP_FROM_EMPTY_STACK
   else
     x <- read_slot (wrap (size_ s - 1));;
     modify (fun s => with_control_sum
                        (wrap (control_sum_ s - hash_function_ x)) s);;
     modify (fun s => with_size (wrap (size_ s - 1)) s));;
  CHECK_VALIDITY cfg.

(** [top() const]; the other overload only casts the result of this one. *)
Definition top (cfg : Config) : M T :=
  s <- get;;
  (if size_ s =? 0 then set_error TOP_FROM_EMPTY_STACK else ret tt);;
  CHECK_VALIDITY cfg;;
  s <- get;;
  read_slot (wrap (size_ s - 1)).

(** [push(const_reference)], called with an object that is not an element
    of this stack; [push_ref] is the call with any argument. *)
Definition push (cfg : Config) (element : T) : M unit :=
  s <- get;;
  (if size_ s =? capacity_ s then expand cfg else ret tt);;
  CHECK_VALIDITY cfg;;
  s <- get;;
  assert cfg (size_ s <? capacity_ s);;
  write_slot (size_ s) element;;
  modify (fun s => with_size (wrap (size_ s + 1)) s);;
  modify (fun s => with_control_sum
                     (wrap (control_sum_ s + hash_function_ element)) s).

(** [push(rvalue_reference)], called with an object that is not an element
    of this stack; [push_rvalue_ref] is the call with any argument. *)
Definition push_rvalue (cfg : Config) (element : T) : M unit :=
  s <- get;;
  (if size_ s =? capacity_ s then expand cfg else ret tt);;
  CHECK_VALIDITY cfg;;
  s <- get;;
  assert cfg (size_ s <? capacity_ s);;
  modify (fun s => with_control_sum
                     (wrap (control_sum_ s + hash_function_ element)) s);;
  s <- get;;
  write_slot (size_ s) element;;
  modify (fun s => with_size (wrap (size_ s + 1)) s).

(** *** Programs over one object *)

(** The operations of a program that passes [push] objects outside the
    stack; [call] below has the calls with any argument. *)
Inductive operation :=
| Push (element : T)
| Push_rvalue (element : T)
| Pop
| Top
| Empty.

Definition exec (cfg : Config) (o : operation) : M unit :=
  match o with
  | Push element => push cfg element
  | Push_rvalue element => push_rvalue cfg element
  | Pop => pop cfg
  | Top => _ <- top cfg;; ret tt
  | Empty => _ <- empty cfg;; ret tt
  end.

(** A caller that runs the operations one after the other and catches the
    exception of each. [None]: the process was aborted or left defined
    behaviour. *)
Fixpoint run (cfg : Config) (ops : list operation) (s : CherepkovStack)
  : option CherepkovStack :=
  match ops with
  | [] => Some s
  | o :: rest =>
      match state_of (exec cfg o s) with
      | Some s' => run cfg rest s'
      | None => None
      end
  end.

(** [push] of each element in turn; an exception ends the sequence. *)
Fixpoint push_all (cfg : Config) (elements : list T) : M unit :=
  match elements with
  | [] => ret tt
  | element :: rest => push cfg element;; push_all cfg rest
  end.

(** A fresh object of the given capacity, then the pushes. *)
Definition construct_push_all (cfg : Config) (capacity : Z) (a : A)
  (elements : list T) : result unit :=
  (construct_body cfg;; push_all cfg elements) (initial capacity a).

(** *** The abstract state *)

(** The live elements [buffer_[0 .. size_)], bottom first. *)
Definition live (s : CherepkovStack) : list T :=
  take (Z.to_nat (size_ s)) (default [] (buffer_ s)).

(** The sum of the hash values, in the integers. *)
Definition hash_total (l : list T) : Z :=
  foldr (fun x acc => hash_function_ x + acc) 0 l.

(** The same sum in [hash_value_type]. *)
Definition checksum_of (l : list T) : Z := wrap (hash_total l).

(** The fields describe the memory the object owns: [buffer_] is a block of
    [capacity_] slots and [size_] is within it. *)
Definition layout_ok (s : CherepkovStack) : Prop :=
  match buffer_ s with
  | Some cells =>
      Z.of_nat (length cells) = capacity_ s /\
      0 <= size_ s <= capacity_ s /\ capacity_ s < 2 ^ 63
  | None => False
  end.

(** Nothing wrote over the object or its elements. *)
Definition uncorrupted (s : CherepkovStack) : Prop :=
  layout_ok s /\
  canary_before_ s = POISON /\ canary_after_ s = POISON /\
  control_sum_ s = checksum_of (live s).

(** The stack as a list: the effect of an operation that returned. *)
Definition model_step (o : operation) (l : list T) : list T :=
  match o with
  | Push element | Push_rvalue element => l ++ [element]
  | Pop => removelast l
  | Top | Empty => l
  end.

Definition model_run (ops : list operation) (l : list T) : list T :=
  foldl (fun l o => model_step o l) l ops.

End Stack.

Arguments CherepkovStack T A : clear implicits.
Arguments operation T : clear implicits.

(** ** The number of growth steps

    [ceil (log2 (k / c))] for [0 < c]: the logarithm rounded up of the
    quotient rounded up, since a power of two is at least [k / c] exactly
    when it is at least the next integer. *)
Definition ceil_log2_ratio (k c : Z) : Z := Z.log2_up ((k + c - 1) / c).

(** [n] growth steps from capacity [c * 2 ^ from]: to twice that, from there
    to twice that again, ... *)
Definition doublings {T} (c : Z) (from n : nat) : list (event T) :=
  (fun j => Ev_expand (c * 2 ^ Z.of_nat j) (c * 2 ^ (Z.of_nat j + 1)))
    <$> seq from n.

(** ** An allocator to run the model with

    The state is a script: the outcomes of the next calls of [allocate],
    [false] for [std::bad_alloc]; past its end every call succeeds. A fresh
    block holds zeros here. *)
#[export] Instance scripted_allocator : Allocator (list bool) Z := {|
  allocate a n :=
    match a with
    | false :: rest => (rest, None)
    | _ =>
        (tail a,
         if (0 <=? n) && (n <? 2 ^ 63) then Some (replicate (Z.to_nat n) 0)
         else None)
    end;
  deallocate a _ := a
|}.

(** The hash function of the examples. *)
Definition example_hash (x : Z) : Z := 31 * x + 7.

(** ** Objects of the examples *)

(** Capacity 4 after [push(10)] and [push(20)]. *)
Definition two_of_four : CherepkovStack Z (list bool) :=
  {| canary_before_ := POISON; control_sum_ := 944; capacity_ := 4;
     size_ := 2; buffer_ := Some [10; 20; 0; 0]; allocator_ := [];
     errors_ := 0; canary_after_ := POISON |}.

(** A fresh object of capacity 2. *)
Definition fresh_two : CherepkovStack Z (list bool) :=
  {| canary_before_ := POISON; control_sum_ := 0; capacity_ := 2;
     size_ := 0; buffer_ := Some [0; 0]; allocator_ := [];
     errors_ := 0; canary_after_ := POISON |}.

(** A full object of capacity 2 whose allocator will fail next. *)
Definition full_two : CherepkovStack Z (list bool) :=
  {| canary_before_ := POISON; control_sum_ := 944; capacity_ := 2;
     size_ := 2; buffer_ := Some [10; 20]; allocator_ := [false];
     errors_ := 0; canary_after_ := POISON |}.

(** An object on which [pop] and [top] were called when it was empty, with
    a canary overwritten. *)
Definition damaged_two : CherepkovStack Z (list bool) :=
  {| canary_before_ := POISON; control_sum_ := 0; capacity_ := 2;
     size_ := 0; buffer_ := Some [0; 0]; allocator_ := [];
     errors_ := 98; canary_after_ := 0 |}.

(** ** What a validation pass finds and prints *)

Section Report.

Context {T A : Type} `{Allocator A T}.
Variable hash_function_ : T -> Z.

(** [errors_] after [check_control_sum] and [check_canaries]. *)
Definition detected (s : CherepkovStack T A) : Z :=
  let e1 :=
    if control_sum_ s =? checksum_of hash_function_ (live s) then errors_ s
    else Z.lor (errors_ s) (code WRONG_CONTROL_SUM) in
  let e2 :=
    if canary_before_ s =? POISON then e1
    else Z.lor e1 (code CANARY_BEFORE_CORRUPTED) in
  if canary_after_ s =? POISON then e2
  else Z.lor e2 (code CANARY_AFTER_CORRUPTED).

(** One line per error kind whose bit is set, in the order of the tests. *)
Definition error_lines (s : CherepkovStack T A) : list (event T) :=
  (fun e => Stderr (Error_line e))
    <$> List.filter (fun e => has_error e s) report_order.

Definition dump_slots (cells : list T) (n i : Z) : list (event T) :=
  zip_with (fun j x => Stderr (Dump_slot j x)) (seqZ i n) cells.

Definition dump_lines (s : CherepkovStack T A) : list (event T) :=
  match buffer_ s with
  | None => []
  | Some cells =>
      Stderr Dump_open :: Stderr (Dump_buffer (capacity_ s))
      :: dump_slots cells (capacity_ s) 0 ++ [Stderr (Dump_close (size_ s))]
  end.

(** Everything [print_errors] writes when [errors_] is not zero. *)
Definition report (cfg : Config) (s : CherepkovStack T A) : list (event T) :=
  Stderr Errors_found
  :: error_lines s ++ (if enable_dump cfg then dump_lines s else []).

(** [dump] stays inside the block: there is none, or it has [capacity_]
    slots. *)
Definition dumpable (s : CherepkovStack T A) : Prop :=
  match buffer_ s with
  | Some cells => capacity_ s <= Z.of_nat (length cells)
  | None => True
  end.

(** A validation pass stays inside the block: the slots below [size_] that
    [check_control_sum] reads and the [capacity_] slots that [dump] prints
    are there. *)
Definition checkable (s : CherepkovStack T A) : Prop :=
  match buffer_ s with
  | Some cells =>
      0 <= size_ s <= Z.of_nat (length cells) /\
      capacity_ s <= Z.of_nat (length cells)
  | None => size_ s = 0
  end.

(** Every bit of [e] is a bit of [e']. *)
Definition bits_kept (e e' : Z) : Prop :=
  forall i, Z.testbit e i = true -> Z.testbit e' i = true.

End Report.

(** ** The states the operations lead to *)

Section Transitions.

Context {T A : Type} `{Allocator A T}.
Variable hash_function_ : T -> Z.

(** After [expand] took the block [blk] from the allocator, left in state
    [a]. *)
Definition expanded (s : CherepkovStack T A) (a : A) (blk : list T)
  : CherepkovStack T A :=
  with_capacity (wrap (size_ s * GROWTH_FACTOR_))
    (with_buffer
       (Some (take (Z.to_nat (capacity_ s)) (default [] (buffer_ s))
              ++ drop (Z.to_nat (capacity_ s)) blk))
       (with_allocator (deallocate a (capacity_ s)) s)).

(** After the three assignments of [push]. *)
Definition pushed (element : T) (s : CherepkovStack T A) : CherepkovStack T A :=
  with_control_sum (wrap (control_sum_ s + hash_function_ element))
    (with_size (wrap (size_ s + 1))
       (with_buffer
          (Some (<[Z.to_nat (size_ s) := element]> (default [] (buffer_ s))))
          s)).

(** After the two assignments of [pop], [x] being the top element. *)
Definition popped (x : T) (s : CherepkovStack T A) : CherepkovStack T A :=
  with_size (wrap (size_ s - 1))
    (with_control_sum (wrap (control_sum_ s - hash_function_ x)) s).

(** [push] from [CHECK_VALIDITY] on, that is after the growth step. *)
Definition push_tail (cfg : Config) (element : T) : @M T A unit :=
  bind (CHECK_VALIDITY hash_function_ cfg) (fun _ =>
  bind get (fun s =>
  bind (assert cfg (size_ s <? capacity_ s)) (fun _ =>
  bind (write_slot (size_ s) element) (fun _ =>
  bind (modify (fun s => with_size (wrap (size_ s + 1)) s)) (fun _ =>
  modify (fun s => with_control_sum
                     (wrap (control_sum_ s + hash_function_ element)) s)))))).

(** The call failed fatally: it ended in the exception, and the last thing
    written is the report of the errors of the state it left. *)
Definition fatal {X} (cfg : Config) (o : @result T A X)
  (s' : CherepkovStack T A)
  : Prop :=
  exists tr, o = Thrown s' (tr ++ report cfg s').

(** Every operation of the sequence fails fatally, each from the state the
    one before left. *)
Fixpoint all_fatal (cfg : Config) (ops : list (operation T))
  (s : CherepkovStack T A) : Prop :=
  match ops with
  | [] => True
  | o :: rest =>
      exists s', fatal cfg (exec hash_function_ cfg o s) s' /\
                 all_fatal cfg rest s'
  end.

End Transitions.


(** A method body that clears no error bit. *)
Definition errors_grow {T A X} (m : @M T A X) : Prop :=
  forall s s', state_of (m s) = Some s' -> bits_kept (errors_ s) (errors_ s').


(** [j] is the least exponent for which [n] elements fit in [c * 2 ^ j]
    slots. *)
Definition least_doubling (c : Z) (j : nat) (n : Z) : Prop :=
  n <= c * 2 ^ Z.of_nat j /\ (j = 0%nat \/ c * 2 ^ (Z.of_nat j - 1) < n).


(** A build without the validation pass. *)
Definition fast_config (asserts : bool) : Config :=
  {| safe_mode := false; enable_dump := true; assertions := asserts |}.

(** ** Callers and the rest of the class *)

Section Callers.

Context {T A : Type} `{Allocator A T}.
Variable hash_function_ : T -> Z.

Local Notation "x <- m ;; k" := (bind m (fun x => k))
  (at level 100, m at next level, right associativity).
Local Notation "m ;; k" := (bind m (fun _ => k))
  (at level 100, right associativity).

(** The loop of a caller that empties the stack:
    [while (!s.empty()) { x = s.top(); s.pop(); ... }], at most [fuel]
    rounds, with the values read, first read first. *)
Fixpoint drain (cfg : Config) (fuel : nat) : @M T A (list T) :=
  match fuel with
  | O => ret []
  | S fuel' =>
      b <- empty hash_function_ cfg;;
      if (b : bool) then ret []
      else
        x <- top hash_function_ cfg;;
        pop hash_function_ cfg;;
        rest <- drain cfg fuel';;
        ret (x :: rest)
  end.

(** The object with one slot of the block overwritten from outside. *)
Definition overwritten (i : nat) (y : T) (s : CherepkovStack T A)
  : CherepkovStack T A :=
  with_buffer (Some (<[i := y]> (default [] (buffer_ s)))) s.

(** A canary of the object is not what the constructor wrote, or an error
    bit is set. *)
Definition tainted (s : CherepkovStack T A) : Prop :=
  errors_ s <> 0 \/ canary_before_ s <> POISON \/ canary_after_ s <> POISON.

(** The call did not throw, and wrote nothing to the error stream but the
    message of a failed assertion, on which it aborted. *)
Definition unreported {X} (cfg : Config) (o : @result T A X) : Prop :=
  (forall s tr, o <> Thrown s tr) /\
  (forall d, In (Stderr d) (trace_of o) ->
             d = Assertion_failed /\ assertions cfg = true /\
             exists tr, o = Aborted tr).

End Callers.

(** What the two checks of a validation pass find wrong in the object, by
    error kind; the other three kinds are never found by a check. *)
Definition finds {T A} (hash_function_ : T -> Z) (s : CherepkovStack T A)
  (e : StackErrors) : bool :=
  match e with
  | WRONG_CONTROL_SUM =>
      negb (control_sum_ s =? checksum_of hash_function_ (live s))
  | CANARY_BEFORE_CORRUPTED => negb (canary_before_ s =? POISON)
  | CANARY_AFTER_CORRUPTED => negb (canary_after_ s =? POISON)
  | _ => false
  end.

(** A method body none of whose calls throws or reports. *)
Definition unreporting {T A X} (cfg : Config) (m : @M T A X) : Prop :=
  forall s, unreported cfg (m s).

(** ** The reference parameter of [push]

    [push] takes its argument by reference and reads it after the growth
    step. [push] and [push_rvalue] above are the calls whose argument is an
    object that is not an element of the stack itself; here the parameter
    may also be bound to a slot of the block. *)

Section References.

Context {T A : Type} `{Allocator A T}.
Variable hash_function_ : T -> Z.

(** The state [std::move] leaves the object it moved from in; for a type
    without a move assignment of its own, the value itself. *)
Variable moved_from : T -> T.

Local Notation "x <- m ;; k" := (bind m (fun x => k))
  (at level 100, m at next level, right associativity).
Local Notation "m ;; k" := (bind m (fun _ => k))
  (at level 100, right associativity).

(** What the parameter [element] is bound to. *)
Inductive argument :=
| Outside (x : T)   (* an object that is not in the block of this stack *)
| Element (i : Z).  (* [buffer_[i]] of this stack, as in [s.push(s.top())] *)

(** [expand], if [push] calls it in this state, gets its block, and so gives
    the block [buffer_] points to back to the allocator. *)
Definition frees_block (s : CherepkovStack T A) : bool :=
  (size_ s =? capacity_ s)
  && match allocate (allocator_ s) (wrap (size_ s * GROWTH_FACTOR_)) with
     | (_, Some _) => true
     | (_, None) => false
     end.

(** A read through [element]; [freed]: the block that was current at the
    call has been deallocated since. *)
Definition read_argument (freed : bool) (arg : argument) : @M T A T :=
  match arg with
  | Outside x => ret x
  | Element i => if freed then undefined else read_slot i
  end.

(** What [std::move(element)] has left behind after the move assignment.
    The object of the caller is not part of the state. When [element] is the
    slot assigned to, the assignment is a move from the slot to itself, and
    the slot is left as the source of a move is. *)
Definition leave_moved_from (arg : argument) (x : T) : @M T A unit :=
  match arg with
  | Outside _ => ret tt
  | Element i => write_slot i (moved_from x)
  end.

(** [push(const_reference)], lines 225-235; [element] is read at line 232
    and again at line 234. *)
Definition push_ref (cfg : Config) (arg : argument) : @M T A unit :=
  s <- get;;
  (if size_ s =? capacity_ s then expand cfg else ret tt);;
  CHECK_VALIDITY hash_function_ cfg;;
  s1 <- get;;
  assert cfg (size_ s1 <? capacity_ s1);;
  element <- read_argument (frees_block s) arg;;
  write_slot (size_ s1) element;;
  modify (fun s => with_size (wrap (size_ s + 1)) s);;
  element <- read_argument (frees_block s) arg;;
  modify (fun s => with_control_sum
                     (wrap (control_sum_ s + hash_function_ element)) s).

(** [push(rvalue_reference)], lines 237-247; [element] is read at line 244
    and moved from at line 245. *)
Definition push_rvalue_ref (cfg : Config) (arg : argument) : @M T A unit :=
  s <- get;;
  (if size_ s =? capacity_ s then expand cfg else ret tt);;
  CHECK_VALIDITY hash_function_ cfg;;
  s1 <- get;;
  assert cfg (size_ s1 <? capacity_ s1);;
  element <- read_argument (frees_block s) arg;;
  modify (fun s => with_control_sum
                     (wrap (control_sum_ s + hash_function_ element)) s);;
  s2 <- get;;
  element <- read_argument (frees_block s) arg;;
  write_slot (size_ s2) element;;
  leave_moved_from arg element;;
  modify (fun s => with_size (wrap (size_ s + 1)) s).

(** The value [element] denotes when a read through it is defined. *)
Definition argument_value (freed : bool) (arg : argument)
  (s : CherepkovStack T A) : option T :=
  match arg with
  | Outside x => Some x
  | Element i => if freed then None else slot s i
  end.

(** [push_ref] from [CHECK_VALIDITY] on. *)
Definition push_ref_tail (cfg : Config) (freed : bool) (arg : argument)
  : @M T A unit :=
  CHECK_VALIDITY hash_function_ cfg;;
  s1 <- get;;
  assert cfg (size_ s1 <? capacity_ s1);;
  element <- read_argument freed arg;;
  write_slot (size_ s1) element;;
  modify (fun s => with_size (wrap (size_ s + 1)) s);;
  element <- read_argument freed arg;;
  modify (fun s => with_control_sum
                     (wrap (control_sum_ s + hash_function_ element)) s).

(** [push_rvalue_ref] from [CHECK_VALIDITY] on. *)
Definition push_rvalue_ref_tail (cfg : Config) (freed : bool) (arg : argument)
  : @M T A unit :=
  CHECK_VALIDITY hash_function_ cfg;;
  s1 <- get;;
  assert cfg (size_ s1 <? capacity_ s1);;
  element <- read_argument freed arg;;
  modify (fun s => with_control_sum
                     (wrap (control_sum_ s + hash_function_ element)) s);;
  s2 <- get;;
  element <- read_argument freed arg;;
  write_slot (size_ s2) element;;
  leave_moved_from arg element;;
  modify (fun s => with_size (wrap (size_ s + 1)) s).

(** The object after the element [x] in it was moved from. *)
Definition moved_out (arg : argument) (x : T) (s : CherepkovStack T A)
  : CherepkovStack T A :=
  match arg with
  | Outside _ => s
  | Element i =>
      with_buffer
        (Some (<[Z.to_nat i := moved_from x]> (default [] (buffer_ s)))) s
  end.

(** The calls a program makes on the object, by what they pass. *)
Inductive call :=
| Call_push (arg : argument)
| Call_push_rvalue (arg : argument)
| Call_pop
| Call_top
| Call_empty.

Definition exec_call (cfg : Config) (c : call) : @M T A unit :=
  match c with
  | Call_push arg => push_ref cfg arg
  | Call_push_rvalue arg => push_rvalue_ref cfg arg
  | Call_pop => pop hash_function_ cfg
  | Call_top => _ <- top hash_function_ cfg;; ret tt
  | Call_empty => _ <- empty hash_function_ cfg;; ret tt
  end.

(** As [run]: the caller catches the exception of each call. *)
Fixpoint run_calls (cfg : Config) (calls : list call) (s : CherepkovStack T A)
  : option (CherepkovStack T A) :=
  match calls with
  | [] => Some s
  | c :: rest =>
      match state_of (exec_call cfg c s) with
      | Some s' => run_calls cfg rest s'
      | None => None
      end
  end.

(** The operation a call is when what it passes is not an element of the
    stack. *)
Definition by_value (c : call) : option (operation T) :=
  match c with
  | Call_push (Outside x) => Some (Push x)
  | Call_push_rvalue (Outside x) => Some (Push_rvalue x)
  | Call_push (Element _) | Call_push_rvalue (Element _) => None
  | Call_pop => Some Pop
  | Call_top => Some Top
  | Call_empty => Some Empty
  end.

End References.

Arguments argument T : clear implicits.
Arguments call T : clear implicits.


(** * Properties *)

Section Properties.

Context {T A : Type} `{Allocator A T}.
Context {laws : AllocatorLaws A T}.
Variable hash_function_ : T -> Z.

Local Abbreviation stack := (CherepkovStack T A).
Local Abbreviation M := (@M T A).
Local Abbreviation result := (@result T A).

Implicit Types (s : stack) (cfg : Config) (e : StackErrors).

(** ** Arithmetic of [size_t] *)

Lemma wrap_add_l a b : wrap (wrap a + b) = wrap (a + b).
Proof. unfold wrap. apply Z.add_mod_idemp_l. lia. Qed.

Lemma wrap_sub_l a b : wrap (wrap a - b) = wrap (a - b).
Proof. unfold wrap. apply Zminus_mod_idemp_l. Qed.

Lemma wrap_small a : 0 <= a < 2 ^ 64 -> wrap a = a.
Proof. intros. unfold wrap. apply Z.mod_small. lia. Qed.

(** ** Records *)

Lemma with_errors_id s : with_errors (errors_ s) s = s.
Proof. destruct s; reflexivity. Qed.

(** ** The monad *)

Lemma after_nil {X} (o : result X) : after [] o = o.
Proof. destruct o; reflexivity. Qed.

Lemma bind_Normal {X Y} (m : M X) (k : X -> M Y) s x s1 tr :
  m s = Normal x s1 tr -> bind m k s = after tr (k x s1).
Proof. intros E. unfold bind. rewrite E. reflexivity. Qed.

Lemma bind_Thrown {X Y} (m : M X) (k : X -> M Y) s s1 tr :
  m s = Thrown s1 tr -> bind m k s = Thrown s1 tr.
Proof. intros E. unfold bind. rewrite E. reflexivity. Qed.

(** ** Error bits *)

Lemma code_bit e : code e = 2 ^ bit_index e.
Proof. destruct e; reflexivity. Qed.

Lemma code_nonzero e : code e <> 0.
Proof. destruct e; discriminate. Qed.

Lemma bits_kept_refl x : bits_kept x x.
Proof. intros i Hi. exact Hi. Qed.

Lemma bits_kept_trans x y z : bits_kept x y -> bits_kept y z -> bits_kept x z.
Proof. intros Hxy Hyz i Hi. auto. Qed.

Lemma bits_kept_lor x y : bits_kept x (Z.lor x y).
Proof. intros i Hi. rewrite Z.lor_spec, Hi. reflexivity. Qed.

Lemma lor_code_nonzero x e : Z.lor x (code e) <> 0.
Proof.
  intros E. apply Z.lor_eq_0_iff in E. destruct E as [_ E].
  exact (code_nonzero e E).
Qed.

Lemma has_error_lor x e s :
  has_error e (with_errors (Z.lor x (code e)) s) = true.
Proof.
  unfold has_error. simpl. rewrite Z.land_lor_distr_l, Z.land_diag.
  apply negb_true_iff, Z.eqb_neq, lor_code_nonzero.
Qed.

Lemma has_error_testbit e s :
  has_error e s = Z.testbit (errors_ s) (bit_index e).
Proof.
  unfold has_error. rewrite code_bit.
  assert (Hb : 0 <= bit_index e) by (destruct e; simpl; lia).
  destruct (Z.testbit (errors_ s) (bit_index e)) eqn:Eb.
  - apply negb_true_iff, Z.eqb_neq. intros E.
    apply (f_equal (fun z => Z.testbit z (bit_index e))) in E.
    rewrite Z.land_spec, Eb, Z.pow2_bits_true, Z.bits_0 in E by lia.
    discriminate.
  - apply negb_false_iff, Z.eqb_eq. apply Z.bits_inj'. intros n Hn.
    rewrite Z.land_spec, Z.bits_0.
    destruct (Z.eq_dec n (bit_index e)) as [->|Hne].
    + rewrite Eb. reflexivity.
    + rewrite Z.pow2_bits_false by lia. apply andb_false_r.
Qed.

Lemma bits_kept_detected s : bits_kept (errors_ s) (detected hash_function_ s).
Proof.
  unfold detected.
  repeat match goal with
         | |- context [if ?b then _ else _] => destruct b
         end;
    repeat (eapply bits_kept_trans; [|apply bits_kept_lor]);
    apply bits_kept_refl.
Qed.

Lemma detected_zero s :
  detected hash_function_ s = 0 ->
  errors_ s = 0 /\ control_sum_ s = checksum_of hash_function_ (live s) /\
  canary_before_ s = POISON /\ canary_after_ s = POISON.
Proof.
  unfold detected.
  destruct (control_sum_ s =? _) eqn:E1;
    destruct (canary_before_ s =? POISON) eqn:E2;
    destruct (canary_after_ s =? POISON) eqn:E3;
    intros E; try (exfalso; exact (lor_code_nonzero _ _ E)).
  apply Z.eqb_eq in E1, E2, E3. auto.
Qed.

Lemma detected_clean s :
  errors_ s = 0 -> control_sum_ s = checksum_of hash_function_ (live s) ->
  canary_before_ s = POISON -> canary_after_ s = POISON ->
  detected hash_function_ s = 0.
Proof.
  intros E0 E1 E2 E3. unfold detected.
  rewrite <- E1, E2, E3, !Z.eqb_refl. exact E0.
Qed.

Lemma detected_nonzero s : errors_ s <> 0 -> detected hash_function_ s <> 0.
Proof. intros Hne E. apply detected_zero in E. tauto. Qed.

(** ** The loops *)

Lemma control_sum_loop_take (cells : list T) n acc :
  0 <= n <= Z.of_nat (length cells) ->
  control_sum_loop hash_function_ cells n (wrap acc) =
  Some (wrap (acc + hash_total hash_function_ (take (Z.to_nat n) cells))).
Proof.
  revert n acc. induction cells as [|x rest IH]; intros n acc Hn; simpl in *.
  - assert (n = 0) as -> by lia. simpl. rewrite Z.add_0_r. reflexivity.
  - destruct (n <=? 0) eqn:En.
    + assert (n = 0) as -> by lia. simpl. rewrite Z.add_0_r. reflexivity.
    + apply Z.leb_gt in En. rewrite wrap_add_l, IH by lia.
      replace (Z.to_nat n) with (S (Z.to_nat (n - 1))) by lia. simpl.
      rewrite Z.add_assoc. reflexivity.
Qed.

Lemma dump_loop_eq (cells : list T) n i :
  n <= Z.of_nat (length cells) ->
  dump_loop cells n i = Some (dump_slots cells n i).
Proof.
  revert n i. induction cells as [|x rest IH]; intros n i Hn; simpl in *.
  - destruct (n <=? 0) eqn:En; [|lia].
    unfold dump_slots. rewrite seqZ_nil by lia. reflexivity.
  - destruct (n <=? 0) eqn:En.
    + unfold dump_slots. rewrite seqZ_nil by lia. reflexivity.
    + apply Z.leb_gt in En. rewrite IH by lia.
      unfold dump_slots. rewrite (seqZ_cons i n) by lia. simpl.
      replace (Z.succ i) with (i + 1) by lia.
      replace (Z.pred n) with (n - 1) by lia. reflexivity.
Qed.

(** ** The validation pass *)

Lemma layout_ok_checkable s : layout_ok s -> checkable s.
Proof.
  unfold layout_ok, checkable. destruct (buffer_ s); [lia | tauto].
Qed.

Lemma checkable_dumpable s : checkable s -> dumpable s.
Proof.
  unfold checkable, dumpable. destruct (buffer_ s); [lia | trivial].
Qed.

Lemma checked_sum_eq s :
  checkable s ->
  control_sum_loop hash_function_ (default [] (buffer_ s)) (size_ s) 0 =
  Some (checksum_of hash_function_ (live s)).
Proof.
  unfold checkable, checksum_of, live.
  destruct (buffer_ s) as [cells|]; cbn [default from_option id].
  - intros (Hsize & _). change 0 with (wrap 0) at 1.
    rewrite control_sum_loop_take by lia. reflexivity.
  - intros ->. reflexivity.
Qed.

Lemma check_control_sum_eq s :
  checkable s ->
  check_control_sum hash_function_ s =
  Normal tt
    (if control_sum_ s =? checksum_of hash_function_ (live s) then s
     else with_errors (Z.lor (errors_ s) (code WRONG_CONTROL_SUM)) s) [].
Proof.
  intros Hl. unfold check_control_sum, bind, get.
  rewrite (checked_sum_eq s Hl).
  destruct (control_sum_ s =? _); reflexivity.
Qed.

Lemma check_canaries_eq s :
  check_canaries s =
  Normal tt
    (with_errors
       (let e2 := if canary_before_ s =? POISON then errors_ s
                  else Z.lor (errors_ s) (code CANARY_BEFORE_CORRUPTED) in
        if canary_after_ s =? POISON then e2
        else Z.lor e2 (code CANARY_AFTER_CORRUPTED)) s) [].
Proof.
  unfold check_canaries, bind, get, ret, set_error, modify.
  destruct (canary_before_ s =? POISON), (canary_after_ s =? POISON);
    simpl; rewrite ?with_errors_id; reflexivity.
Qed.

Lemma checks_eq s :
  checkable s ->
  bind (check_control_sum hash_function_) (fun _ => check_canaries) s =
  Normal tt (with_errors (detected hash_function_ s) s) [].
Proof.
  intros Hl. unfold bind. rewrite (check_control_sum_eq s Hl), check_canaries_eq.
  unfold detected.
  destruct (control_sum_ s =? _); reflexivity.
Qed.

Lemma dump_eq s : dumpable s -> dump s = Normal tt s (dump_lines s).
Proof.
  unfold dumpable, dump, dump_lines, bind, get. simpl.
  destruct (buffer_ s) as [cells|]; [|reflexivity].
  intros Hd. unfold emit. simpl. rewrite dump_loop_eq by lia. simpl.
  rewrite ?app_nil_r. reflexivity.
Qed.

Lemma print_error_eq e s :
  print_error e s =
  Normal tt s (if has_error e s then [Stderr (Error_line e)] else []).
Proof.
  unfold print_error, bind, get. simpl. destruct (has_error e s); reflexivity.
Qed.

Lemma print_errors_clean cfg s :
  errors_ s = 0 -> print_errors cfg s = Normal tt s [].
Proof.
  intros E. unfold print_errors, bind, get. simpl. rewrite E. reflexivity.
Qed.

Lemma print_errors_report cfg s :
  (enable_dump cfg = true -> dumpable s) -> errors_ s <> 0 ->
  print_errors cfg s = Thrown s (report cfg s).
Proof.
  intros Hd Hne. unfold print_errors. unfold bind at 1. unfold get at 1.
  apply Z.eqb_neq in Hne. rewrite Hne.
  assert (Edump : (if enable_dump cfg then dump else ret tt) s =
                  Normal tt s (if enable_dump cfg then dump_lines s else [])).
  { destruct (enable_dump cfg); [apply dump_eq, Hd; reflexivity | reflexivity]. }
  unfold bind, emit. rewrite !print_error_eq. simpl. rewrite Edump. simpl.
  unfold report, error_lines, report_order. simpl.
  destruct (has_error POP_FROM_EMPTY_STACK s), (has_error BAD_ALLOC s),
    (has_error WRONG_CONTROL_SUM s), (has_error CANARY_BEFORE_CORRUPTED s),
    (has_error CANARY_AFTER_CORRUPTED s), (has_error TOP_FROM_EMPTY_STACK s);
    simpl; rewrite ?app_nil_r; reflexivity.
Qed.

Lemma check_validity_eq cfg s :
  checkable s ->
  check_validity hash_function_ cfg s =
  if detected hash_function_ s =? 0 then Normal tt s []
  else let s' := with_errors (detected hash_function_ s) s in
       Thrown s' (report cfg s').
Proof.
  intros Hl. unfold check_validity.
  destruct (detected hash_function_ s =? 0) eqn:Ed.
  - apply Z.eqb_eq in Ed. destruct (detected_zero s Ed) as (E0 & _).
    pose proof (checks_eq s Hl) as Hc. rewrite Ed, <- E0, with_errors_id in Hc.
    unfold bind in *. destruct (check_control_sum hash_function_ s); try discriminate.
    destruct (check_canaries s0); try discriminate.
    simpl in Hc. injection Hc as -> -> Etr. 
    rewrite print_errors_clean by exact E0. simpl.
    apply app_eq_nil in Etr. destruct Etr as [-> ->]. reflexivity.
  - apply Z.eqb_neq in Ed.
    pose proof (checks_eq s Hl) as Hc.
    unfold bind in *. destruct (check_control_sum hash_function_ s); try discriminate.
    destruct (check_canaries s0); try discriminate.
    simpl in Hc. injection Hc as -> -> Etr.
    apply app_eq_nil in Etr. destruct Etr as [-> ->].
    rewrite print_errors_report; [reflexivity| |exact Ed].
    intros _. apply checkable_dumpable, Hl.
Qed.

Lemma CHECK_VALIDITY_eq cfg s :
  checkable s ->
  CHECK_VALIDITY hash_function_ cfg s =
  if safe_mode cfg && negb (detected hash_function_ s =? 0)
  then let s' := with_errors (detected hash_function_ s) s in
       Thrown s' (report cfg s')
  else Normal tt s [].
Proof.
  intros Hl. unfold CHECK_VALIDITY. destruct (safe_mode cfg); [|reflexivity].
  rewrite check_validity_eq by exact Hl.
  destruct (detected hash_function_ s =? 0); reflexivity.
Qed.

(** ** Checksums of lists *)

Lemma hash_total_snoc l (x : T) :
  hash_total hash_function_ (l ++ [x]) =
  hash_total hash_function_ l + hash_function_ x.
Proof. induction l as [|y l IH]; simpl; [|rewrite IH]; lia. Qed.

Lemma checksum_snoc l (x : T) :
  checksum_of hash_function_ (l ++ [x]) =
  wrap (checksum_of hash_function_ l + hash_function_ x).
Proof. unfold checksum_of. rewrite hash_total_snoc, wrap_add_l. reflexivity. Qed.

Lemma checksum_unsnoc l (x : T) :
  wrap (checksum_of hash_function_ (l ++ [x]) - hash_function_ x) =
  checksum_of hash_function_ l.
Proof.
  unfold checksum_of. rewrite hash_total_snoc, wrap_sub_l. f_equal. lia.
Qed.

(** ** The state after the assignments of [push] *)

Lemma live_pushed x s :
  layout_ok s -> size_ s < capacity_ s ->
  live (pushed hash_function_ x s) = live s ++ [x].
Proof.
  unfold layout_ok, live, pushed. cbn [buffer_ size_ with_control_sum with_size with_buffer].
  destruct (buffer_ s) as [cells|]; [|tauto].
  intros (Hlen & Hs & Hc) Hlt. cbn [default from_option id].
  rewrite wrap_small by lia.
  replace (Z.to_nat (size_ s + 1)) with (S (Z.to_nat (size_ s))) by lia.
  erewrite take_S_r by (apply list_lookup_insert_eq; lia).
  rewrite take_insert_ge by lia. reflexivity.
Qed.

Lemma layout_ok_pushed x s :
  layout_ok s -> size_ s < capacity_ s -> layout_ok (pushed hash_function_ x s).
Proof.
  unfold layout_ok, pushed.
  cbn [buffer_ size_ capacity_ with_control_sum with_size with_buffer].
  destruct (buffer_ s) as [cells|]; [|tauto].
  intros (Hlen & Hs & Hc) Hlt. cbn [default from_option id].
  rewrite length_insert, wrap_small by lia. lia.
Qed.

Lemma uncorrupted_pushed x s :
  uncorrupted hash_function_ s -> size_ s < capacity_ s ->
  uncorrupted hash_function_ (pushed hash_function_ x s).
Proof.
  intros (Hl & Hb & Ha & Hc) Hlt. split; [apply layout_ok_pushed; assumption|].
  split; [exact Hb|]. split; [exact Ha|].
  rewrite live_pushed, checksum_snoc, <- Hc by assumption. reflexivity.
Qed.

(** ** The state after the assignments of [pop] *)

Lemma top_slot s :
  layout_ok s -> 0 < size_ s ->
  exists x, slot s (wrap (size_ s - 1)) = Some x /\
            live s = take (Z.to_nat (size_ s - 1)) (default [] (buffer_ s)) ++ [x].
Proof.
  unfold layout_ok, slot, live.
  destruct (buffer_ s) as [cells|]; [|tauto].
  intros (Hlen & Hs & Hc) Hpos. cbn [default from_option id].
  rewrite wrap_small by lia.
  destruct (lookup_lt_is_Some_2 cells (Z.to_nat (size_ s - 1))) as [x Hx];
    [lia|].
  exists x. destruct (0 <=? size_ s - 1) eqn:E; [|lia]. split; [exact Hx|].
  replace (Z.to_nat (size_ s)) with (S (Z.to_nat (size_ s - 1))) by lia.
  apply take_S_r, Hx.
Qed.

Lemma live_popped x s :
  0 < size_ s < 2 ^ 64 ->
  live (popped hash_function_ x s) =
  take (Z.to_nat (size_ s - 1)) (default [] (buffer_ s)).
Proof.
  intros Hs. unfold live, popped.
  cbn [buffer_ size_ with_control_sum with_size].
  rewrite wrap_small by lia. reflexivity.
Qed.

Lemma layout_ok_popped x s :
  layout_ok s -> 0 < size_ s -> layout_ok (popped hash_function_ x s).
Proof.
  unfold layout_ok, popped.
  cbn [buffer_ size_ capacity_ with_control_sum with_size].
  destruct (buffer_ s) as [cells|]; [|tauto].
  intros (Hlen & Hs & Hc) Hpos. rewrite wrap_small by lia. lia.
Qed.

Lemma uncorrupted_popped x s :
  uncorrupted hash_function_ s -> 0 < size_ s ->
  slot s (wrap (size_ s - 1)) = Some x ->
  uncorrupted hash_function_ (popped hash_function_ x s) /\
  live s = live (popped hash_function_ x s) ++ [x].
Proof.
  intros (Hl & Hb & Ha & Hc) Hpos Hx.
  destruct (top_slot s Hl Hpos) as (x' & Hx' & Hlive).
  assert (x' = x) as -> by congruence.
  assert (Hs : 0 < size_ s < 2 ^ 64).
  { unfold layout_ok in Hl. destruct (buffer_ s); [lia | tauto]. }
  rewrite live_popped by exact Hs. split; [|exact Hlive].
  split; [apply layout_ok_popped; assumption|].
  split; [exact Hb|]. split; [exact Ha|].
  rewrite live_popped by exact Hs.
  change (control_sum_ (popped hash_function_ x s))
    with (wrap (control_sum_ s - hash_function_ x)).
  rewrite Hc, Hlive. apply checksum_unsnoc.
Qed.

(** ** The growth step *)

Lemma layout_ok_expanded s a (blk : list T) :
  layout_ok s -> size_ s = capacity_ s ->
  allocate (allocator_ s) (wrap (size_ s * GROWTH_FACTOR_)) = (a, Some blk) ->
  layout_ok (expanded s a blk) /\
  capacity_ (expanded s a blk) = 2 * capacity_ s /\
  live (expanded s a blk) = live s.
Proof.
  intros Hl Hfull Halloc.
  pose proof (allocate_length _ _ _ _ Halloc) as Hblk.
  pose proof (allocate_max _ _ _ _ Halloc) as Hmax.
  unfold layout_ok, live, expanded in *.
  cbn [buffer_ size_ capacity_ with_capacity with_buffer with_allocator].
  destruct (buffer_ s) as [cells|]; [|tauto].
  destruct Hl as (Hlen & Hs & Hc). cbn [default from_option id].
  unfold GROWTH_FACTOR_ in *.
  rewrite wrap_small in * by lia.
  rewrite (take_ge cells) by lia.
  split; [|split].
  - rewrite length_app, length_drop. lia.
  - lia.
  - apply take_app_le. lia.
Qed.

Lemma uncorrupted_expanded s a (blk : list T) :
  uncorrupted hash_function_ s -> size_ s = capacity_ s ->
  allocate (allocator_ s) (wrap (size_ s * GROWTH_FACTOR_)) = (a, Some blk) ->
  uncorrupted hash_function_ (expanded s a blk).
Proof.
  intros (Hl & Hb & Ha & Hc) Hfull Halloc.
  destruct (layout_ok_expanded s a blk Hl Hfull Halloc) as (Hl' & _ & Hlive).
  split; [exact Hl'|]. split; [exact Hb|]. split; [exact Ha|].
  rewrite Hlive. exact Hc.
Qed.

Lemma expand_fails cfg s a :
  size_ s = capacity_ s ->
  allocate (allocator_ s) (wrap (size_ s * GROWTH_FACTOR_)) = (a, None) ->
  expand cfg s =
  Normal tt
    (with_errors (Z.lor (errors_ s) (code BAD_ALLOC)) (with_allocator a s))
    [Ev_bad_alloc (wrap (size_ s * GROWTH_FACTOR_))].
Proof.
  intros Hfull Halloc. unfold expand, bind, get, assert.
  apply Z.eqb_eq in Hfull. rewrite Hfull, Halloc.
  destruct (assertions cfg); reflexivity.
Qed.

Lemma expand_grows cfg s a (blk : list T) :
  layout_ok s -> size_ s = capacity_ s ->
  allocate (allocator_ s) (wrap (size_ s * GROWTH_FACTOR_)) = (a, Some blk) ->
  expand cfg s =
  Normal tt (expanded s a blk)
    [Ev_expand (capacity_ s) (wrap (size_ s * GROWTH_FACTOR_))].
Proof.
  intros Hl Hfull Halloc.
  pose proof (allocate_length _ _ _ _ Halloc) as Hblk.
  assert (Hcopy : std_copy (buffer_ s) (capacity_ s) blk =
                  buffer_ (expanded s a blk)).
  { unfold layout_ok, std_copy, expanded in *.
    cbn [buffer_ with_capacity with_buffer with_allocator].
    destruct (buffer_ s) as [cells|]; [|tauto].
    destruct Hl as (Hlen & Hs & Hc). cbn [default from_option id].
    unfold GROWTH_FACTOR_ in *. rewrite wrap_small in Hblk by lia.
    destruct (capacity_ s <=? 0) eqn:E0.
    - assert (capacity_ s = 0) as -> by lia. reflexivity.
    - destruct (capacity_ s <=? Z.of_nat (length cells)) eqn:E1; [|lia].
      destruct (capacity_ s <=? Z.of_nat (length blk)) eqn:E2; [|lia].
      reflexivity. }
  unfold expand, bind, get, assert.
  apply Z.eqb_eq in Hfull. rewrite Hfull, Halloc, Hcopy.
  destruct (assertions cfg); reflexivity.
Qed.

(** ** The operations as equations *)

Lemma state_of_after {X} tr (o : result X) : state_of (after tr o) = state_of o.
Proof. destruct o; reflexivity. Qed.

Lemma push_decompose cfg x s :
  push hash_function_ cfg x s =
  bind (if size_ s =? capacity_ s then expand cfg else ret tt)
    (fun _ => push_tail hash_function_ cfg x) s.
Proof.
  unfold push. rewrite (bind_Normal get _ s s s []) by reflexivity.
  apply after_nil.
Qed.

Lemma push_tail_eq cfg x s :
  layout_ok s ->
  push_tail hash_function_ cfg x s =
  if safe_mode cfg && negb (detected hash_function_ s =? 0)
  then let s' := with_errors (detected hash_function_ s) s in
       Thrown s' (report cfg s')
  else if size_ s <? capacity_ s then Normal tt (pushed hash_function_ x s) []
       else if assertions cfg then Aborted [Stderr Assertion_failed]
            else Undefined [].
Proof.
  intros Hl. unfold push_tail. unfold bind at 1.
  rewrite (CHECK_VALIDITY_eq cfg s (layout_ok_checkable s Hl)).
  destruct (safe_mode cfg && negb (detected hash_function_ s =? 0));
    [reflexivity|].
  unfold layout_ok in Hl. unfold bind, get, assert, write_slot, modify, pushed.
  destruct (buffer_ s) as [cells|] eqn:Eb; [|tauto].
  destruct Hl as (Hlen & Hs & Hc). cbn [default from_option id].
  destruct (size_ s <? capacity_ s) eqn:Elt.
  - apply Z.ltb_lt in Elt.
    assert (Ein : (0 <=? size_ s) && (size_ s <? Z.of_nat (length cells)) = true).
    { apply andb_true_intro. split; [apply Z.leb_le | apply Z.ltb_lt]; lia. }
    destruct (assertions cfg); cbn; rewrite Eb, Ein; reflexivity.
  - apply Z.ltb_ge in Elt.
    assert (Ein : (0 <=? size_ s) && (size_ s <? Z.of_nat (length cells)) = false).
    { apply andb_false_intro2, Z.ltb_ge. lia. }
    destruct (assertions cfg); cbn; [reflexivity|]. rewrite Eb, Ein. reflexivity.
Qed.

Lemma pop_empty_eq cfg s :
  size_ s = 0 ->
  pop hash_function_ cfg s =
  CHECK_VALIDITY hash_function_ cfg
    (with_errors (Z.lor (errors_ s) (code POP_FROM_EMPTY_STACK)) s).
Proof.
  intros E. unfold pop, bind, get, set_error, modify. rewrite E. cbn.
  rewrite !after_nil. reflexivity.
Qed.

Lemma pop_nonempty_eq cfg s x :
  size_ s <> 0 -> slot s (wrap (size_ s - 1)) = Some x ->
  pop hash_function_ cfg s =
  CHECK_VALIDITY hash_function_ cfg (popped hash_function_ x s).
Proof.
  intros E Hx. apply Z.eqb_neq in E.
  unfold pop, bind, get, read_slot, modify. rewrite E, Hx. cbn.
  rewrite !after_nil. reflexivity.
Qed.

Lemma top_eq cfg s :
  top hash_function_ cfg s =
  bind (CHECK_VALIDITY hash_function_ cfg)
    (fun _ s' => match slot s' (wrap (size_ s' - 1)) with
                 | Some x => Normal x s' []
                 | None => Undefined []
                 end)
    (if size_ s =? 0
     then with_errors (Z.lor (errors_ s) (code TOP_FROM_EMPTY_STACK)) s
     else s).
Proof.
  unfold top, bind, get, set_error, modify, ret, read_slot.
  destruct (size_ s =? 0); cbn;
    match goal with
    | |- context [CHECK_VALIDITY _ _ ?s1] =>
        destruct (CHECK_VALIDITY hash_function_ cfg s1) as [[] s2 tr| | |]
    end; cbn; try reflexivity;
    destruct (slot s2 (wrap (size_ s2 - 1))); cbn; rewrite ?app_nil_r;
    reflexivity.
Qed.

Lemma empty_eq cfg s :
  empty hash_function_ cfg s =
  bind (CHECK_VALIDITY hash_function_ cfg)
    (fun _ s' => Normal (size_ s' =? 0) s' []) s.
Proof.
  unfold empty, bind, get, ret.
  destruct (CHECK_VALIDITY hash_function_ cfg s) as [[] s2 tr| | |]; cbn;
    reflexivity.
Qed.

Lemma push_overloads_agree cfg x s :
  push_rvalue hash_function_ cfg x s = push hash_function_ cfg x s.
Proof.
  unfold push_rvalue, push, bind, get.
  destruct ((if size_ s =? capacity_ s then expand cfg else ret tt) s)
    as [[] s1 tr1| | |]; cbn; try reflexivity.
  destruct (CHECK_VALIDITY hash_function_ cfg s1) as [[] s2 tr2| | |]; cbn;
    try reflexivity.
  unfold assert, write_slot, modify, ret, abort.
  destruct (assertions cfg), (size_ s2 <? capacity_ s2); cbn;
    try reflexivity;
    destruct (buffer_ s2) as [cells|]; cbn; try reflexivity;
    destruct ((0 <=? size_ s2) && (size_ s2 <? Z.of_nat (length cells)));
    cbn; reflexivity.
Qed.

(** ** A poisoned object *)

Lemma CHECK_VALIDITY_poisoned cfg s :
  safe_mode cfg = true -> checkable s -> errors_ s <> 0 ->
  CHECK_VALIDITY hash_function_ cfg s =
  Thrown (with_errors (detected hash_function_ s) s)
    (report cfg (with_errors (detected hash_function_ s) s)).
Proof.
  intros Hsafe Hc Hne. rewrite CHECK_VALIDITY_eq by exact Hc.
  apply detected_nonzero, Z.eqb_neq in Hne. rewrite Hsafe, Hne. reflexivity.
Qed.

Lemma has_error_kept e s s' :
  bits_kept (errors_ s) (errors_ s') ->
  has_error e s = true -> has_error e s' = true.
Proof. rewrite !has_error_testbit. intros Hk. apply Hk. Qed.

Lemma fatal_after {X} cfg tr (o : result X) s' :
  fatal cfg o s' -> fatal cfg (after tr o) s'.
Proof.
  intros [tr' ->]. exists (tr ++ tr'). cbn. rewrite app_assoc. reflexivity.
Qed.

Lemma fatal_bind {X Y} cfg (m : M X) (k : X -> M Y) s s' :
  fatal cfg (m s) s' -> fatal cfg (bind m k s) s'.
Proof. intros [tr E]. exists tr. apply bind_Thrown, E. Qed.

Lemma fatal_CHECK_VALIDITY cfg s :
  safe_mode cfg = true -> checkable s -> errors_ s <> 0 ->
  fatal cfg (CHECK_VALIDITY hash_function_ cfg s)
    (with_errors (detected hash_function_ s) s).
Proof.
  intros Hsafe Hc Hne. exists [].
  apply CHECK_VALIDITY_poisoned; assumption.
Qed.

Lemma poisoned_step cfg o s :
  safe_mode cfg = true -> layout_ok s -> errors_ s <> 0 ->
  exists s', fatal cfg (exec hash_function_ cfg o s) s' /\
             layout_ok s' /\ errors_ s' <> 0.
Proof.
  intros Hsafe Hl Hne.
  assert (Hpush : forall x, exists s',
             fatal cfg (push hash_function_ cfg x s) s' /\
             layout_ok s' /\ errors_ s' <> 0).
  { intros x. rewrite push_decompose.
    assert (Htail : forall s1, layout_ok s1 -> errors_ s1 <> 0 ->
               exists s', fatal cfg (push_tail hash_function_ cfg x s1) s' /\
                          layout_ok s' /\ errors_ s' <> 0).
    { intros s1 Hl1 Hne1. eexists. split; [|split].
      - apply fatal_bind, fatal_CHECK_VALIDITY;
          [exact Hsafe | apply layout_ok_checkable, Hl1 | exact Hne1].
      - exact Hl1.
      - apply detected_nonzero, Hne1. }
    destruct (size_ s =? capacity_ s) eqn:Efull.
    - apply Z.eqb_eq in Efull.
      destruct (allocate (allocator_ s) (wrap (size_ s * GROWTH_FACTOR_)))
        as [a [blk|]] eqn:Halloc.
      + rewrite (bind_Normal _ _ _ _ _ _ (expand_grows cfg s a blk Hl Efull Halloc)).
        destruct (layout_ok_expanded s a blk Hl Efull Halloc) as (Hl1 & _).
        destruct (Htail (expanded s a blk) Hl1 Hne) as (s' & Hf & Hs').
        exists s'. split; [apply fatal_after, Hf | exact Hs'].
      + rewrite (bind_Normal _ _ _ _ _ _ (expand_fails cfg s a Efull Halloc)).
        destruct (Htail (with_errors (Z.lor (errors_ s) (code BAD_ALLOC))
                           (with_allocator a s)) Hl (lor_code_nonzero _ _))
          as (s' & Hf & Hs').
        exists s'. split; [apply fatal_after, Hf | exact Hs'].
    - rewrite (bind_Normal (ret tt) _ s tt s []) by reflexivity.
      rewrite after_nil. apply Htail; assumption. }
  destruct o as [x|x| | |]; cbn [exec].
  - apply Hpush.
  - rewrite push_overloads_agree. apply Hpush.
  - destruct (Z.eq_dec (size_ s) 0) as [E0|E0].
    + rewrite pop_empty_eq by exact E0. eexists. split; [|split].
      * apply fatal_CHECK_VALIDITY;
          [exact Hsafe | apply layout_ok_checkable, Hl | apply lor_code_nonzero].
      * exact Hl.
      * apply detected_nonzero, lor_code_nonzero.
    + assert (Hpos : 0 < size_ s).
      { unfold layout_ok in Hl. destruct (buffer_ s); [lia | tauto]. }
      destruct (top_slot s Hl Hpos) as (x & Hx & _).
      rewrite (pop_nonempty_eq cfg s x E0 Hx).
      pose proof (layout_ok_popped x s Hl Hpos) as Hl1.
      eexists. split; [|split].
      * apply fatal_CHECK_VALIDITY;
          [exact Hsafe | apply layout_ok_checkable, Hl1 | exact Hne].
      * exact Hl1.
      * apply detected_nonzero, Hne.
  - set (s1 := if size_ s =? 0
               then with_errors (Z.lor (errors_ s) (code TOP_FROM_EMPTY_STACK)) s
               else s).
    assert (Hl1 : layout_ok s1) by (subst s1; destruct (size_ s =? 0); exact Hl).
    assert (Hne1 : errors_ s1 <> 0).
    { subst s1. destruct (size_ s =? 0); [apply lor_code_nonzero | exact Hne]. }
    eexists. split; [|split].
    + apply fatal_bind. rewrite top_eq. apply fatal_bind, fatal_CHECK_VALIDITY;
        [exact Hsafe | apply layout_ok_checkable, Hl1 | exact Hne1].
    + exact Hl1.
    + apply detected_nonzero, Hne1.
  - eexists. split; [|split].
    + apply fatal_bind. rewrite empty_eq. apply fatal_bind, fatal_CHECK_VALIDITY;
        [exact Hsafe | apply layout_ok_checkable, Hl | exact Hne].
    + exact Hl.
    + apply detected_nonzero, Hne.
Qed.

Lemma poisoned_forever cfg ops : forall s,
  safe_mode cfg = true -> layout_ok s -> errors_ s <> 0 ->
  all_fatal hash_function_ cfg ops s.
Proof.
  induction ops as [|o rest IH]; intros s Hsafe Hl Hne; cbn [all_fatal].
  - exact I.
  - destruct (poisoned_step cfg o s Hsafe Hl Hne) as (s' & Hf & Hl' & Hne').
    exists s'. split; [exact Hf | apply IH; assumption].
Qed.

(** ** No method clears an error bit *)

Lemma grow_bind {X Y} (m : M X) (k : X -> M Y) :
  errors_grow m -> (forall x, errors_grow (k x)) -> errors_grow (bind m k).
Proof.
  intros Hm Hk s s'. unfold bind. destruct (m s) as [x s1 tr| s1 tr| |] eqn:E.
  - rewrite state_of_after. intros Hs'.
    eapply bits_kept_trans; [apply (Hm s s1); rewrite E; reflexivity|].
    exact (Hk x s1 s' Hs').
  - intros Hs'. apply (Hm s s'). rewrite E. exact Hs'.
  - discriminate.
  - discriminate.
Qed.

Lemma grow_same {X} (m : M X) :
  (forall s s', state_of (m s) = Some s' -> errors_ s' = errors_ s) ->
  errors_grow m.
Proof. intros Hm s s' Hs'. rewrite (Hm s s' Hs'). apply bits_kept_refl. Qed.

Lemma grow_ret {X} (x : X) : errors_grow (ret x : M X).
Proof. apply grow_same. intros s s' [= <-]. reflexivity. Qed.

Lemma grow_get : errors_grow (get : M stack).
Proof. apply grow_same. intros s s' [= <-]. reflexivity. Qed.

Lemma grow_emit ev : errors_grow (emit ev : M unit).
Proof. apply grow_same. intros s s' [= <-]. reflexivity. Qed.

Lemma grow_throw {X} : errors_grow (throw : M X).
Proof. apply grow_same. intros s s' [= <-]. reflexivity. Qed.

Lemma grow_abort {X} : errors_grow (abort : M X).
Proof. intros s s'. discriminate. Qed.

Lemma grow_undefined {X} : errors_grow (undefined : M X).
Proof. intros s s'. discriminate. Qed.

Lemma grow_modify (f : stack -> stack) :
  (forall s, errors_ (f s) = errors_ s) -> errors_grow (modify f).
Proof. intros Hf. apply grow_same. intros s s' [= <-]. apply Hf. Qed.

Lemma grow_set_error e : errors_grow (set_error e : M unit).
Proof. intros s s' [= <-]. apply bits_kept_lor. Qed.

Lemma grow_assert cfg b : errors_grow (assert cfg b : M unit).
Proof.
  unfold assert. destruct (assertions cfg), b;
    first [ apply grow_ret
          | apply grow_bind; [apply grow_emit | intros _; apply grow_abort] ].
Qed.

Lemma grow_read_slot i : errors_grow (read_slot i : M T).
Proof.
  apply grow_same. intros s s'. unfold read_slot.
  destruct (slot s i); [intros [= <-]; reflexivity | discriminate].
Qed.

Lemma grow_write_slot i x : errors_grow (write_slot i x : M unit).
Proof.
  apply grow_same. intros s s'. unfold write_slot.
  destruct (buffer_ s) as [cells|]; [|discriminate].
  destruct ((0 <=? i) && (i <? Z.of_nat (length cells)));
    [intros [= <-]; reflexivity | discriminate].
Qed.

Lemma grow_output (lines : list (event T)) :
  errors_grow (fun s => Normal tt s lines : result unit).
Proof. apply grow_same. intros s s' [= <-]. reflexivity. Qed.

(** Goes through a method body by its structure. *)
Ltac grow :=
  repeat first
    [ assumption
    | apply grow_bind; [|intros ?]
    | apply grow_ret | apply grow_get | apply grow_emit | apply grow_throw
    | apply grow_abort | apply grow_undefined | apply grow_set_error
    | apply grow_assert | apply grow_read_slot | apply grow_write_slot
    | apply grow_output
    | apply grow_modify; intros ?; reflexivity
    | match goal with
      | |- errors_grow (if ?b then _ else _) => destruct b
      | |- errors_grow (match ?o with Some _ => _ | None => _ end) =>
          destruct o
      | |- errors_grow (match ?p with (_, _) => _ end) => destruct p
      end ].

Lemma grow_CHECK_VALIDITY cfg :
  errors_grow (CHECK_VALIDITY hash_function_ cfg : M unit).
Proof.
  unfold CHECK_VALIDITY, check_validity, check_control_sum, check_canaries,
    print_errors, print_error, dump.
  grow.
Qed.

Lemma grow_expand cfg : errors_grow (expand cfg : M unit).
Proof. unfold expand. grow. Qed.

Lemma grow_exec cfg o : errors_grow (exec hash_function_ cfg o : M unit).
Proof.
  pose proof (grow_CHECK_VALIDITY cfg) as Hcheck.
  pose proof (grow_expand cfg) as Hexpand.
  destruct o; cbn [exec]; unfold push, push_rvalue, pop, top, empty;
    grow.
Qed.

Lemma run_grows cfg ops : forall s s',
  run hash_function_ cfg ops s = Some s' -> bits_kept (errors_ s) (errors_ s').
Proof.
  induction ops as [|o rest IH]; intros s s'; cbn [run].
  - intros [= <-]. apply bits_kept_refl.
  - destruct (state_of (exec hash_function_ cfg o s)) as [s1|] eqn:E;
      [|discriminate].
    intros Hrun. eapply bits_kept_trans; [exact (grow_exec cfg o s s1 E)|].
    apply IH, Hrun.
Qed.

(** ** One operation on an uncorrupted object *)

Lemma bits_kept_zero x : bits_kept x 0 -> x = 0.
Proof.
  intros Hk. apply Z.bits_inj_0. intros n.
  destruct (Z.testbit x n) eqn:E; [|reflexivity].
  apply Hk in E. rewrite Z.bits_0 in E. discriminate.
Qed.

Lemma state_of_bind_same {X Y} (m : M X) (k : X -> M Y) s s' :
  (forall x s1 s2, state_of (k x s1) = Some s2 -> s2 = s1) ->
  state_of (bind m k s) = Some s' -> state_of (m s) = Some s'.
Proof.
  intros Hk. unfold bind. destruct (m s) as [x s1 tr| s1 tr| |]; cbn.
  - rewrite state_of_after. intros E. f_equal. symmetry. exact (Hk x s1 s' E).
  - trivial.
  - trivial.
  - trivial.
Qed.

Lemma CHECK_VALIDITY_state cfg s s' :
  checkable s ->
  state_of (CHECK_VALIDITY hash_function_ cfg s) = Some s' ->
  s' = with_errors (errors_ s') s /\ bits_kept (errors_ s) (errors_ s').
Proof.
  intros Hc. rewrite CHECK_VALIDITY_eq by exact Hc.
  destruct (safe_mode cfg && negb (detected hash_function_ s =? 0));
    cbn; intros [= <-].
  - split; [reflexivity | apply bits_kept_detected].
  - split; [symmetry; apply with_errors_id | apply bits_kept_refl].
Qed.

Lemma push_tail_step cfg x s s' :
  uncorrupted hash_function_ s ->
  state_of (push_tail hash_function_ cfg x s) = Some s' ->
  uncorrupted hash_function_ s' /\
  capacity_ s' = capacity_ s /\
  (errors_ s' = 0 -> live s' = live s ++ [x]).
Proof.
  intros Hu. pose proof Hu as (Hl & _). rewrite push_tail_eq by exact Hl.
  destruct (safe_mode cfg && negb (detected hash_function_ s =? 0)) eqn:Ec.
  - cbn. intros [= <-]. split; [exact Hu|]. split; [reflexivity|].
    cbn. intros E. rewrite E in Ec. cbn in Ec. rewrite andb_false_r in Ec.
    discriminate.
  - destruct (size_ s <? capacity_ s) eqn:Elt.
    + apply Z.ltb_lt in Elt. intros [= <-].
      split; [apply uncorrupted_pushed; assumption|].
      split; [reflexivity|]. intros _. apply live_pushed; assumption.
    + destruct (assertions cfg); discriminate.
Qed.

Lemma push_step cfg x s s' :
  uncorrupted hash_function_ s ->
  state_of (push hash_function_ cfg x s) = Some s' ->
  uncorrupted hash_function_ s' /\
  (errors_ s' = 0 -> live s' = live s ++ [x]).
Proof.
  intros Hu. pose proof Hu as (Hl & _). rewrite push_decompose.
  destruct (size_ s =? capacity_ s) eqn:Efull.
  - apply Z.eqb_eq in Efull.
    destruct (allocate (allocator_ s) (wrap (size_ s * GROWTH_FACTOR_)))
      as [a [blk|]] eqn:Halloc.
    + rewrite (bind_Normal _ _ _ _ _ _ (expand_grows cfg s a blk Hl Efull Halloc)).
      rewrite state_of_after. intros Hs'.
      destruct (layout_ok_expanded s a blk Hl Efull Halloc) as (_ & _ & Hlive).
      destruct (push_tail_step cfg x _ s'
                  (uncorrupted_expanded s a blk Hu Efull Halloc) Hs')
        as (Hu' & _ & Hm).
      split; [exact Hu'|]. rewrite <- Hlive. exact Hm.
    + rewrite (bind_Normal _ _ _ _ _ _ (expand_fails cfg s a Efull Halloc)).
      rewrite state_of_after. intros Hs'.
      assert (Hu1 : uncorrupted hash_function_
                      (with_errors (Z.lor (errors_ s) (code BAD_ALLOC))
                         (with_allocator a s))) by exact Hu.
      destruct (push_tail_step cfg x _ s' Hu1 Hs') as (Hu' & _ & Hm).
      split; [exact Hu' | exact Hm].
  - rewrite (bind_Normal (ret tt) _ s tt s []) by reflexivity.
    rewrite after_nil. intros Hs'.
    destruct (push_tail_step cfg x s s' Hu Hs') as (Hu' & _ & Hm).
    split; [exact Hu' | exact Hm].
Qed.

Lemma uncorrupted_with_errors x s :
  uncorrupted hash_function_ s -> uncorrupted hash_function_ (with_errors x s).
Proof. trivial. Qed.

Lemma pop_step cfg s s' :
  uncorrupted hash_function_ s ->
  state_of (pop hash_function_ cfg s) = Some s' ->
  uncorrupted hash_function_ s' /\
  (errors_ s' = 0 -> live s' = removelast (live s)).
Proof.
  intros Hu. pose proof Hu as (Hl & _).
  destruct (Z.eq_dec (size_ s) 0) as [E0|E0].
  - rewrite pop_empty_eq by exact E0. intros Hs'.
    apply CHECK_VALIDITY_state in Hs'; [|apply layout_ok_checkable, Hl].
    destruct Hs' as (Hs' & Hk). split.
    + rewrite Hs'. apply uncorrupted_with_errors, Hu.
    + intros E. rewrite E in Hk. apply bits_kept_zero in Hk.
      exfalso. exact (lor_code_nonzero _ _ Hk).
  - assert (Hpos : 0 < size_ s).
    { unfold layout_ok in Hl. destruct (buffer_ s); [lia | tauto]. }
    destruct (top_slot s Hl Hpos) as (x & Hx & _).
    rewrite (pop_nonempty_eq cfg s x E0 Hx). intros Hs'.
    destruct (uncorrupted_popped x s Hu Hpos Hx) as (Hu1 & Hlive).
    apply CHECK_VALIDITY_state in Hs'; [|apply layout_ok_checkable, Hu1].
    destruct Hs' as (Hs' & _). split.
    + rewrite Hs'. apply uncorrupted_with_errors, Hu1.
    + intros _. rewrite Hlive, removelast_last, Hs'. reflexivity.
Qed.

Lemma top_step cfg s s' :
  uncorrupted hash_function_ s ->
  state_of (top hash_function_ cfg s) = Some s' ->
  uncorrupted hash_function_ s' /\ live s' = live s.
Proof.
  intros Hu. pose proof Hu as (Hl & _). rewrite top_eq. intros Hs'.
  apply state_of_bind_same in Hs'.
  2:{ intros [] s1 s2. destruct (slot s1 (wrap (size_ s1 - 1)));
        [intros [= <-]; reflexivity | discriminate]. }
  apply CHECK_VALIDITY_state in Hs'.
  2:{ apply layout_ok_checkable. destruct (size_ s =? 0); exact Hl. }
  destruct Hs' as (Hs' & _). rewrite Hs'.
  destruct (size_ s =? 0); split; first [exact Hu | reflexivity].
Qed.

Lemma empty_step cfg s s' :
  uncorrupted hash_function_ s ->
  state_of (empty hash_function_ cfg s) = Some s' ->
  uncorrupted hash_function_ s' /\ live s' = live s.
Proof.
  intros Hu. pose proof Hu as (Hl & _). rewrite empty_eq. intros Hs'.
  apply state_of_bind_same in Hs'; [|intros [] s1 s2 [= <-]; reflexivity].
  apply CHECK_VALIDITY_state in Hs'; [|apply layout_ok_checkable, Hl].
  destruct Hs' as (Hs' & _). rewrite Hs'. split; [exact Hu | reflexivity].
Qed.

Lemma state_of_discard {X} (m : M X) s :
  state_of (bind m (fun _ => ret tt) s) = state_of (m s).
Proof.
  unfold bind. destruct (m s); cbn; reflexivity.
Qed.

Lemma exec_step cfg o s s' :
  uncorrupted hash_function_ s ->
  state_of (exec hash_function_ cfg o s) = Some s' ->
  uncorrupted hash_function_ s' /\
  (errors_ s' = 0 -> live s' = model_step o (live s)).
Proof.
  intros Hu. destruct o as [x|x| | |]; cbn [exec model_step].
  - apply push_step, Hu.
  - rewrite push_overloads_agree. apply push_step, Hu.
  - apply pop_step, Hu.
  - rewrite state_of_discard. intros Hs'.
    destruct (top_step cfg s s' Hu Hs'). auto.
  - rewrite state_of_discard. intros Hs'.
    destruct (empty_step cfg s s' Hu Hs'). auto.
Qed.

Lemma run_invariant cfg ops : forall s s',
  uncorrupted hash_function_ s ->
  run hash_function_ cfg ops s = Some s' ->
  uncorrupted hash_function_ s' /\
  (errors_ s' = 0 -> live s' = model_run ops (live s)).
Proof.
  induction ops as [|o rest IH]; intros s s' Hu; cbn [run].
  - intros [= <-]. split; [exact Hu | reflexivity].
  - destruct (state_of (exec hash_function_ cfg o s)) as [s1|] eqn:E;
      [|discriminate].
    intros Hrun. destruct (exec_step cfg o s s1 Hu E) as (Hu1 & Hm1).
    destruct (IH s1 s' Hu1 Hrun) as (Hu' & Hm'). split; [exact Hu'|].
    intros E0. rewrite (Hm' E0). cbn. rewrite Hm1; [reflexivity|].
    pose proof (run_grows cfg rest s1 s' Hrun) as Hk. rewrite E0 in Hk.
    apply bits_kept_zero, Hk.
Qed.

(** ** With the validation pass and a block that is not empty, every
    operation returns or throws *)

Lemma CHECK_VALIDITY_progress cfg s :
  checkable s ->
  exists s', state_of (CHECK_VALIDITY hash_function_ cfg s) = Some s' /\
             capacity_ s' = capacity_ s.
Proof.
  intros Hc. rewrite CHECK_VALIDITY_eq by exact Hc.
  destruct (safe_mode cfg && negb (detected hash_function_ s =? 0));
    eexists; split; reflexivity.
Qed.

Lemma unchecked_clean cfg s :
  safe_mode cfg = true ->
  safe_mode cfg && negb (detected hash_function_ s =? 0) = false ->
  errors_ s = 0.
Proof.
  intros -> Ec. cbn in Ec. apply negb_false_iff, Z.eqb_eq in Ec.
  apply (detected_zero s Ec).
Qed.

Lemma push_tail_progress cfg x s :
  safe_mode cfg = true -> layout_ok s ->
  size_ s < capacity_ s \/ errors_ s <> 0 ->
  exists s', state_of (push_tail hash_function_ cfg x s) = Some s' /\
             capacity_ s' = capacity_ s.
Proof.
  intros Hsafe Hl Hroom. rewrite push_tail_eq by exact Hl.
  destruct (safe_mode cfg && negb (detected hash_function_ s =? 0)) eqn:Ec.
  - eexists; split; reflexivity.
  - pose proof (unchecked_clean cfg s Hsafe Ec) as E0.
    destruct (size_ s <? capacity_ s) eqn:Elt; [|lia].
    eexists; split; reflexivity.
Qed.

Lemma push_progress cfg x s :
  safe_mode cfg = true -> layout_ok s -> 0 < capacity_ s ->
  exists s', state_of (push hash_function_ cfg x s) = Some s' /\
             0 < capacity_ s'.
Proof.
  intros Hsafe Hl Hpos. rewrite push_decompose.
  destruct (size_ s =? capacity_ s) eqn:Efull.
  - apply Z.eqb_eq in Efull.
    destruct (allocate (allocator_ s) (wrap (size_ s * GROWTH_FACTOR_)))
      as [a [blk|]] eqn:Halloc.
    + rewrite (bind_Normal _ _ _ _ _ _ (expand_grows cfg s a blk Hl Efull Halloc)).
      rewrite state_of_after.
      destruct (layout_ok_expanded s a blk Hl Efull Halloc) as (Hl1 & Hcap & _).
      destruct (push_tail_progress cfg x (expanded s a blk) Hsafe Hl1)
        as (s' & Hs' & Hcap').
      { left. rewrite Hcap. change (size_ (expanded s a blk)) with (size_ s). lia. }
      exists s'. split; [exact Hs' | lia].
    + rewrite (bind_Normal _ _ _ _ _ _ (expand_fails cfg s a Efull Halloc)).
      rewrite state_of_after.
      destruct (push_tail_progress cfg x
                  (with_errors (Z.lor (errors_ s) (code BAD_ALLOC))
                     (with_allocator a s)) Hsafe Hl)
        as (s' & Hs' & Hcap').
      { right. apply lor_code_nonzero. }
      exists s'. split; [exact Hs' | exact (eq_ind_r (Z.lt 0) Hpos Hcap')].
  - rewrite (bind_Normal (ret tt) _ s tt s []) by reflexivity.
    rewrite after_nil.
    destruct (push_tail_progress cfg x s Hsafe Hl) as (s' & Hs' & Hcap').
    { left. unfold layout_ok in Hl. destruct (buffer_ s); [lia | tauto]. }
    exists s'. split; [exact Hs' | lia].
Qed.

Lemma top_progress cfg s :
  safe_mode cfg = true -> layout_ok s ->
  exists s', state_of (top hash_function_ cfg s) = Some s' /\
             capacity_ s' = capacity_ s.
Proof.
  intros Hsafe Hl. rewrite top_eq.
  set (s1 := if size_ s =? 0
             then with_errors (Z.lor (errors_ s) (code TOP_FROM_EMPTY_STACK)) s
             else s).
  assert (Hl1 : layout_ok s1) by (subst s1; destruct (size_ s =? 0); exact Hl).
  assert (Hcap : capacity_ s1 = capacity_ s)
    by (subst s1; destruct (size_ s =? 0); reflexivity).
  unfold bind. rewrite CHECK_VALIDITY_eq by (apply layout_ok_checkable, Hl1).
  destruct (safe_mode cfg && negb (detected hash_function_ s1 =? 0)) eqn:Ec.
  - eexists; split; [reflexivity | exact Hcap].
  - pose proof (unchecked_clean cfg s1 Hsafe Ec) as E0.
    assert (Hpos : 0 < size_ s1).
    { subst s1. destruct (size_ s =? 0) eqn:Es.
      - exfalso. exact (lor_code_nonzero _ _ E0).
      - unfold layout_ok in Hl. destruct (buffer_ s); [lia | tauto]. }
    destruct (top_slot s1 Hl1 Hpos) as (x & Hx & _). rewrite Hx.
    eexists; split; [reflexivity | exact Hcap].
Qed.

Lemma exec_progress cfg o s :
  safe_mode cfg = true -> layout_ok s -> 0 < capacity_ s ->
  exists s', state_of (exec hash_function_ cfg o s) = Some s' /\
             0 < capacity_ s'.
Proof.
  intros Hsafe Hl Hpos. destruct o as [x|x| | |]; cbn [exec].
  - apply push_progress; assumption.
  - rewrite push_overloads_agree. apply push_progress; assumption.
  - destruct (Z.eq_dec (size_ s) 0) as [E0|E0].
    + rewrite pop_empty_eq by exact E0.
      destruct (CHECK_VALIDITY_progress cfg
                  (with_errors (Z.lor (errors_ s) (code POP_FROM_EMPTY_STACK)) s)
                  (layout_ok_checkable s Hl)) as (s' & Hs' & Hcap).
      exists s'. split; [exact Hs' | exact (eq_ind_r (Z.lt 0) Hpos Hcap)].
    + assert (Hsz : 0 < size_ s).
      { unfold layout_ok in Hl. destruct (buffer_ s); [lia | tauto]. }
      destruct (top_slot s Hl Hsz) as (x & Hx & _).
      rewrite (pop_nonempty_eq cfg s x E0 Hx).
      destruct (CHECK_VALIDITY_progress cfg (popped hash_function_ x s)
                  (layout_ok_checkable _ (layout_ok_popped x s Hl Hsz)))
        as (s' & Hs' & Hcap).
      exists s'. split; [exact Hs' | exact (eq_ind_r (Z.lt 0) Hpos Hcap)].
  - rewrite state_of_discard.
    destruct (top_progress cfg s Hsafe Hl) as (s' & Hs' & Hcap).
    exists s'. split; [exact Hs' | lia].
  - rewrite state_of_discard, empty_eq.
    destruct (CHECK_VALIDITY_progress cfg s (layout_ok_checkable s Hl))
      as (s' & Hs' & Hcap).
    exists s'. split; [|lia]. unfold bind.
    destruct (CHECK_VALIDITY hash_function_ cfg s) as [[] s2 tr| | |];
      cbn in *; exact Hs'.
Qed.

Lemma run_progress cfg ops : forall s,
  safe_mode cfg = true -> uncorrupted hash_function_ s -> 0 < capacity_ s ->
  exists s', run hash_function_ cfg ops s = Some s'.
Proof.
  induction ops as [|o rest IH]; intros s Hsafe Hu Hpos; cbn [run].
  - exists s. reflexivity.
  - destruct (exec_progress cfg o s Hsafe (proj1 Hu) Hpos) as (s1 & E & Hpos1).
    rewrite E. apply IH; [exact Hsafe | | exact Hpos1].
    exact (proj1 (exec_step cfg o s s1 Hu E)).
Qed.

Lemma length_live s : layout_ok s -> size_ s = Z.of_nat (length (live s)).
Proof.
  unfold layout_ok, live. destruct (buffer_ s) as [cells|]; [|tauto].
  intros (Hlen & Hs & _). cbn [default from_option id].
  rewrite length_take_le by lia. lia.
Qed.

(** ** Pushing into an object without errors *)

Lemma trace_of_after {X} tr (o : result X) :
  trace_of (after tr o) = tr ++ trace_of o.
Proof. destruct o; reflexivity. Qed.

Lemma push_room cfg x s :
  uncorrupted hash_function_ s -> errors_ s = 0 -> size_ s < capacity_ s ->
  push hash_function_ cfg x s = Normal tt (pushed hash_function_ x s) [].
Proof.
  intros (Hl & Hb & Ha & Hc) He Hlt. rewrite push_decompose.
  destruct (size_ s =? capacity_ s) eqn:E; [lia|].
  rewrite (bind_Normal (ret tt) _ s tt s []) by reflexivity.
  rewrite after_nil, push_tail_eq by exact Hl.
  rewrite (detected_clean s He Hc Hb Ha), andb_false_r.
  destruct (size_ s <? capacity_ s) eqn:E'; [reflexivity | lia].
Qed.

Lemma push_full cfg x s a (blk : list T) :
  uncorrupted hash_function_ s -> errors_ s = 0 ->
  size_ s = capacity_ s -> 0 < capacity_ s ->
  allocate (allocator_ s) (wrap (size_ s * GROWTH_FACTOR_)) = (a, Some blk) ->
  push hash_function_ cfg x s =
  Normal tt (pushed hash_function_ x (expanded s a blk))
    [Ev_expand (capacity_ s) (2 * capacity_ s)].
Proof.
  intros Hu He Hfull Hpos Halloc. pose proof Hu as (Hl & _).
  destruct (uncorrupted_expanded s a blk Hu Hfull Halloc) as (Hl1 & Hb1 & Ha1 & Hc1).
  destruct (layout_ok_expanded s a blk Hl Hfull Halloc) as (_ & Hcap & _).
  rewrite push_decompose.
  apply Z.eqb_eq in Hfull. rewrite Hfull. apply Z.eqb_eq in Hfull.
  rewrite (bind_Normal _ _ _ _ _ _ (expand_grows cfg s a blk Hl Hfull Halloc)).
  rewrite push_tail_eq by exact Hl1.
  rewrite (detected_clean (expanded s a blk) He Hc1 Hb1 Ha1), andb_false_r.
  rewrite Hcap. change (size_ (expanded s a blk)) with (size_ s).
  destruct (size_ s <? 2 * capacity_ s) eqn:E'; [|lia].
  cbn. do 3 f_equal.
  change (capacity_ (expanded s a blk) = 2 * capacity_ s). exact Hcap.
Qed.

Lemma push_full_bad_alloc cfg x s a :
  size_ s = capacity_ s ->
  allocate (allocator_ s) (wrap (size_ s * GROWTH_FACTOR_)) = (a, None) ->
  In (Ev_bad_alloc (wrap (size_ s * GROWTH_FACTOR_)))
    (trace_of (push hash_function_ cfg x s)).
Proof.
  intros Hfull Halloc. rewrite push_decompose.
  apply Z.eqb_eq in Hfull. rewrite Hfull. apply Z.eqb_eq in Hfull.
  rewrite (bind_Normal _ _ _ _ _ _ (expand_fails cfg s a Hfull Halloc)).
  rewrite trace_of_after. left. reflexivity.
Qed.

(** ** Counting the doublings *)

Lemma least_doubling_next c j n :
  0 < c -> least_doubling c j n -> n < c * 2 ^ Z.of_nat j ->
  least_doubling c j (n + 1).
Proof. unfold least_doubling. intros Hc (Hle & Hj) Hlt. split; lia. Qed.

Lemma least_doubling_full c j :
  0 < c -> least_doubling c (S j) (c * 2 ^ Z.of_nat j + 1).
Proof.
  intros Hc. unfold least_doubling.
  replace (Z.of_nat (S j) - 1) with (Z.of_nat j) by lia.
  replace (Z.of_nat (S j)) with (Z.succ (Z.of_nat j)) by lia.
  rewrite Z.pow_succ_r by lia.
  assert (0 < 2 ^ Z.of_nat j) by (apply Z.pow_pos_nonneg; lia).
  split; [nia | right; lia].
Qed.

Lemma ceil_log2_ratio_unique k c m :
  0 < c -> 0 < m -> c * 2 ^ (m - 1) < k <= c * 2 ^ m ->
  ceil_log2_ratio k c = m.
Proof.
  intros Hc Hm (Hlo & Hhi). unfold ceil_log2_ratio.
  apply Z.log2_up_unique; [exact Hm|]. split.
  - apply Z.lt_le_trans with (2 ^ (m - 1) + 1); [lia|].
    apply Z.div_le_lower_bound; [exact Hc | lia].
  - apply Z.lt_succ_r. apply Z.div_lt_upper_bound; [exact Hc | lia].
Qed.

Lemma ceil_log2_ratio_least k c (j : nat) :
  0 < c -> c < k -> least_doubling c j k ->
  ceil_log2_ratio k c = Z.of_nat j.
Proof.
  intros Hc Hk (Hle & Hj). destruct Hj as [-> | Hlo].
  - cbn in Hle. lia.
  - apply ceil_log2_ratio_unique; [exact Hc | | lia].
    destruct j; [cbn in Hle; lia | lia].
Qed.

(** ** The constructor *)

Lemma construct_bad_alloc cfg capacity a a' :
  allocate a capacity = (a', None) ->
  let s' := with_errors (code BAD_ALLOC) (initial capacity a') in
  buffer_ s' = None /\
  has_error BAD_ALLOC s' = true /\
  construct hash_function_ cfg capacity a =
  if safe_mode cfg
  then Thrown s' [Ev_bad_alloc capacity; Stderr Errors_found;
                  Stderr (Error_line BAD_ALLOC)]
  else Normal tt s' [Ev_bad_alloc capacity].
Proof.
  intros Halloc s'. split; [reflexivity|]. split; [reflexivity|].
  unfold construct, construct_body, bind, get. cbn. rewrite Halloc.
  unfold CHECK_VALIDITY.
  destruct (safe_mode cfg); [|reflexivity].
  destruct (enable_dump cfg) eqn:Ed; cbn; unfold print_errors, bind, get; cbn;
    rewrite Ed; reflexivity.
Qed.

Lemma construct_ok cfg capacity a a1 (blk : list T) :
  allocate a capacity = (a1, Some blk) ->
  let s0 := with_buffer (Some blk) (with_allocator a1 (initial capacity a)) in
  construct_body hash_function_ cfg (initial capacity a) = Normal tt s0 [] /\
  uncorrupted hash_function_ s0.
Proof.
  intros Halloc s0.
  pose proof (allocate_length _ _ _ _ Halloc) as Hlen.
  pose proof (allocate_max _ _ _ _ Halloc) as Hmax.
  assert (Hu : uncorrupted hash_function_ s0).
  { split; [cbn; lia|]. repeat split. }
  split; [|exact Hu].
  unfold construct_body, bind, get. cbn [allocator_ capacity_ initial].
  rewrite Halloc. cbn.
  change (with_buffer (Some blk) (with_allocator a1 (initial capacity a)))
    with s0.
  rewrite CHECK_VALIDITY_eq by apply layout_ok_checkable, Hu.
  destruct Hu as (_ & Hb & Ha & Hc).
  rewrite (detected_clean s0 eq_refl Hc Hb Ha), andb_false_r. reflexivity.
Qed.

(** ** A sequence of pushes *)

Lemma trace_of_bind_In {X Y} (m : M X) (k : X -> M Y) s ev :
  In ev (trace_of (m s)) -> In ev (trace_of (bind m k s)).
Proof.
  unfold bind. destruct (m s) as [x s1 tr| | |]; cbn; try trivial.
  rewrite trace_of_after. intros Hin. apply in_or_app. left. exact Hin.
Qed.

Lemma doublings_cons {E} c (j m : nat) :
  Ev_expand (c * 2 ^ Z.of_nat j) (2 * (c * 2 ^ Z.of_nat j))
  :: doublings c (S j) m = (doublings c j (S m) : list (event E)).
Proof.
  unfold doublings. cbn. do 2 f_equal.
  rewrite Z.pow_add_r by lia. lia.
Qed.

Lemma push_all_doubles cfg c :
  0 < c ->
  forall elements s (j : nat),
    uncorrupted hash_function_ s -> errors_ s = 0 ->
    capacity_ s = c * 2 ^ Z.of_nat j -> least_doubling c j (size_ s) ->
    (forall n, ~ In (Ev_bad_alloc n)
                 (trace_of (push_all hash_function_ cfg elements s))) ->
    exists s' (m : nat),
      push_all hash_function_ cfg elements s =
        Normal tt s' (doublings c j m) /\
      uncorrupted hash_function_ s' /\ errors_ s' = 0 /\
      live s' = live s ++ elements /\
      capacity_ s' = c * 2 ^ Z.of_nat (j + m) /\
      size_ s' = size_ s + Z.of_nat (length elements) /\
      least_doubling c (j + m) (size_ s').
Proof.
  intros Hc. induction elements as [|x rest IH]; intros s j Hu He Hcap Hj Hno.
  - exists s, 0%nat. rewrite Nat.add_0_r, app_nil_r, Z.add_0_r.
    split; [reflexivity|]. split; [exact Hu|]. split; [exact He|].
    split; [reflexivity|]. split; [exact Hcap|]. split; [reflexivity|exact Hj].
  - cbn [push_all] in *.
    assert (Hpow : 0 < 2 ^ Z.of_nat j) by (apply Z.pow_pos_nonneg; lia).
    pose proof Hu as (Hl & _).
    assert (Hrange : 0 <= size_ s /\ capacity_ s < 2 ^ 63).
    { unfold layout_ok in Hl. destruct (buffer_ s); [lia | tauto]. }
    destruct (Z.eq_dec (size_ s) (capacity_ s)) as [Hfull|Hroom].
    + destruct (allocate (allocator_ s) (wrap (size_ s * GROWTH_FACTOR_)))
        as [a [blk|]] eqn:Halloc.
      * assert (Hpos : 0 < capacity_ s) by nia.
        pose proof (push_full cfg x s a blk Hu He Hfull Hpos Halloc) as Hpush.
        destruct (layout_ok_expanded s a blk Hl Hfull Halloc)
          as (_ & Hcap1 & _).
        pose proof (uncorrupted_expanded s a blk Hu Hfull Halloc) as Hu1.
        assert (Hlt1 : size_ (expanded s a blk) < capacity_ (expanded s a blk)).
        { rewrite Hcap1. change (size_ (expanded s a blk)) with (size_ s). lia. }
        pose proof (uncorrupted_pushed x _ Hu1 Hlt1) as Hu2.
        pose proof (live_pushed x _ (proj1 Hu1) Hlt1) as Hlive2.
        destruct (layout_ok_expanded s a blk Hl Hfull Halloc)
          as (_ & _ & Hlive1).
        rewrite Hlive1 in Hlive2.
        set (s2 := pushed hash_function_ x (expanded s a blk)) in *.
        assert (Hsize2 : size_ s2 = size_ s + 1).
        { subst s2. unfold pushed. cbn. apply wrap_small. lia. }
        assert (Hcap2 : capacity_ s2 = c * 2 ^ Z.of_nat (S j)).
        { change (capacity_ s2) with (capacity_ (expanded s a blk)).
          rewrite Hcap1, Hcap. rewrite Nat2Z.inj_succ, Z.pow_succ_r by lia.
          lia. }
        rewrite (bind_Normal _ _ _ _ _ _ Hpush) in Hno |- *.
        destruct (IH s2 (S j) Hu2 He Hcap2) as (s' & m & Hrun & Hu' & He' &
                                                  Hlive' & Hcap' & Hsize' & Hj').
        { rewrite Hsize2, Hfull, Hcap. apply least_doubling_full, Hc. }
        { intros n Hin. apply (Hno n). rewrite trace_of_after.
          apply in_or_app. right. exact Hin. }
        exists s', (S m). rewrite Hrun. cbn [after app].
        rewrite Hcap, doublings_cons.
        replace (j + S m)%nat with (S j + m)%nat by lia.
        split; [reflexivity|]. split; [exact Hu'|]. split; [exact He'|].
        split; [rewrite Hlive', Hlive2, <- app_assoc; reflexivity|].
        split; [exact Hcap'|]. split; [|exact Hj'].
        rewrite Hsize', Hsize2. cbn [length]. lia.
      * exfalso. apply (Hno (wrap (size_ s * GROWTH_FACTOR_))).
        apply trace_of_bind_In, push_full_bad_alloc with a; assumption.
    + assert (Hlt : size_ s < capacity_ s) by (destruct Hj; lia).
      pose proof (push_room cfg x s Hu He Hlt) as Hpush.
      pose proof (uncorrupted_pushed x s Hu Hlt) as Hu2.
      pose proof (live_pushed x s Hl Hlt) as Hlive2.
      set (s2 := pushed hash_function_ x s) in *.
      assert (Hsize2 : size_ s2 = size_ s + 1).
      { subst s2. unfold pushed. cbn. apply wrap_small. lia. }
      rewrite (bind_Normal _ _ _ _ _ _ Hpush) in Hno |- *.
      rewrite after_nil in Hno |- *.
      destruct (IH s2 j Hu2 He Hcap) as (s' & m & Hrun & Hu' & He' &
                                           Hlive' & Hcap' & Hsize' & Hj').
      { rewrite Hsize2. apply least_doubling_next; [exact Hc | exact Hj | lia]. }
      { exact Hno. }
      exists s', m. rewrite Hrun.
      split; [reflexivity|]. split; [exact Hu'|]. split; [exact He'|].
      split; [rewrite Hlive', Hlive2, <- app_assoc; reflexivity|].
      split; [exact Hcap'|]. split; [|exact Hj'].
      rewrite Hsize', Hsize2. cbn [length]. lia.
Qed.

(** * The claims *)

(** C6: when the growth step runs with [size_ == capacity_] and the
    allocation of the doubled block fails, it records [BAD_ALLOC] and
    returns; the capacity, the block, the size, the checksum and the live
    elements are as before, and no error bit is lost. *)
Theorem expand_allocation_failure cfg s a :
  size_ s = capacity_ s ->
  allocate (allocator_ s) (wrap (size_ s * GROWTH_FACTOR_)) = (a, None) ->
  exists s',
    expand cfg s =
      Normal tt s' [Ev_bad_alloc (wrap (size_ s * GROWTH_FACTOR_))] /\
    has_error BAD_ALLOC s' = true /\
    bits_kept (errors_ s) (errors_ s') /\
    capacity_ s' = capacity_ s /\ buffer_ s' = buffer_ s /\
    size_ s' = size_ s /\ control_sum_ s' = control_sum_ s /\
    live s' = live s /\
    canary_before_ s' = canary_before_ s /\
    canary_after_ s' = canary_after_ s.
Proof.
  intros Hfull Halloc. eexists. split; [apply expand_fails; eassumption|].
  split; [apply has_error_lor|]. split; [apply bits_kept_lor|].
  repeat split.
Qed.

(** C8: the two overloads of [push] are the same function of the object and
    the value pushed: the same outcome, and with it the same size, checksum,
    block, error bits and output, in every state and every configuration. *)
Theorem push_rvalue_eq_push cfg x s :
  push_rvalue hash_function_ cfg x s = push hash_function_ cfg x s.
Proof. apply push_overloads_agree. Qed.

(** C9: [print_errors] does nothing when [errors_] is zero. Otherwise it
    writes the heading, then one line for each of the six error kinds whose
    bit is set, in the order [POP_FROM_EMPTY_STACK], [BAD_ALLOC],
    [WRONG_CONTROL_SUM], [CANARY_BEFORE_CORRUPTED], [CANARY_AFTER_CORRUPTED],
    [TOP_FROM_EMPTY_STACK], then the dump when dumps are enabled, and
    throws, leaving the object as it was. *)
Theorem print_errors_spec cfg s :
  (enable_dump cfg = true -> dumpable s) ->
  print_errors cfg s =
  if errors_ s =? 0 then Normal tt s []
  else Thrown s
         (Stderr Errors_found
          :: ((fun e => Stderr (Error_line e))
                <$> List.filter (fun e => has_error e s) report_order)
          ++ (if enable_dump cfg then dump_lines s else [])).
Proof.
  intros Hd. destruct (errors_ s =? 0) eqn:E.
  - apply print_errors_clean, Z.eqb_eq, E.
  - apply print_errors_report; [exact Hd | apply Z.eqb_neq, E].
Qed.

(** C10: on an uncorrupted stack with no error bit set and room for one
    more element, [push] (either overload) followed by [pop] returns twice,
    writes nothing, and leaves the size, the checksum and the live elements
    as they were, with no error bit set. *)
Theorem push_pop_restores cfg x s :
  uncorrupted hash_function_ s -> errors_ s = 0 -> size_ s < capacity_ s ->
  exists s1 s2,
    push hash_function_ cfg x s = Normal tt s1 [] /\
    push_rvalue hash_function_ cfg x s = Normal tt s1 [] /\
    pop hash_function_ cfg s1 = Normal tt s2 [] /\
    size_ s2 = size_ s /\ control_sum_ s2 = control_sum_ s /\
    live s2 = live s /\ errors_ s2 = 0.
Proof.
  intros Hu He Hlt.
  pose proof Hu as (Hl & Hb & Ha & Hc).
  pose proof (push_room cfg x s Hu He Hlt) as Hpush.
  pose proof (uncorrupted_pushed x s Hu Hlt) as Hu1.
  pose proof (live_pushed x s Hl Hlt) as Hlive1.
  set (s1 := pushed hash_function_ x s) in *.
  assert (Hrange : 0 <= size_ s /\ size_ s + 1 < 2 ^ 64).
  { unfold layout_ok in Hl. destruct (buffer_ s); [lia | tauto]. }
  assert (Hsize1 : size_ s1 = size_ s + 1).
  { subst s1. unfold pushed. cbn. apply wrap_small. lia. }
  destruct (top_slot s1 (proj1 Hu1)) as (x' & Hx' & Hlive'); [lia|].
  destruct (uncorrupted_popped x' s1 Hu1) as (Hu2 & Hsplit); [lia|exact Hx'|].
  rewrite Hlive1 in Hsplit. apply app_inj_tail in Hsplit.
  destruct Hsplit as [Hlive2 <-].
  exists s1, (popped hash_function_ x s1).
  split; [exact Hpush|]. split; [rewrite push_overloads_agree; exact Hpush|].
  destruct Hu2 as (Hl2 & Hb2 & Ha2 & Hc2).
  split.
  { rewrite (pop_nonempty_eq cfg s1 x) by (lia || exact Hx').
    rewrite CHECK_VALIDITY_eq by (apply layout_ok_checkable, Hl2).
    rewrite (detected_clean (popped hash_function_ x s1) He Hc2 Hb2 Ha2).
    rewrite andb_false_r. reflexivity. }
  split.
  { unfold popped. cbn [size_ with_size]. rewrite Hsize1.
    replace (size_ s + 1 - 1) with (size_ s) by lia. apply wrap_small. lia. }
  split; [|split; [symmetry; exact Hlive2 | exact He]].
  rewrite Hc2, <- Hlive2. symmetry. exact Hc.
Qed.

(** C2: with the validation pass compiled in, [pop] on a stack of size zero
    sets the [POP_FROM_EMPTY_STACK] bit, changes nothing else but error
    bits, and ends in the exception thrown by the validation pass after the
    report was written; from then on every operation of every sequence
    ends in the same way, reporting again. *)
Theorem pop_empty_poisons cfg s :
  safe_mode cfg = true -> layout_ok s -> size_ s = 0 ->
  exists s',
    pop hash_function_ cfg s = Thrown s' (report cfg s') /\
    has_error POP_FROM_EMPTY_STACK s' = true /\
    s' = with_errors (errors_ s') s /\
    forall ops, all_fatal hash_function_ cfg ops s'.
Proof.
  intros Hsafe Hl Hempty.
  set (s1 := with_errors (Z.lor (errors_ s) (code POP_FROM_EMPTY_STACK)) s).
  assert (Hne1 : errors_ s1 <> 0) by apply lor_code_nonzero.
  exists (with_errors (detected hash_function_ s1) s1).
  split; [|split; [|split]].
  - rewrite pop_empty_eq by exact Hempty.
    apply CHECK_VALIDITY_poisoned;
      [exact Hsafe | apply layout_ok_checkable, Hl | exact Hne1].
  - apply (has_error_kept _ s1); [apply bits_kept_detected|].
    apply has_error_lor.
  - reflexivity.
  - intros ops. apply poisoned_forever; [exact Hsafe | exact Hl |].
    apply detected_nonzero, Hne1.
Qed.

(** C5: with the validation pass compiled in, [top] on a stack of size zero
    sets the [TOP_FROM_EMPTY_STACK] bit and ends in the exception thrown by
    the validation pass: the read of [buffer_[size_ - 1]] is not reached and
    no value is returned. *)
Theorem top_empty_is_fatal cfg s :
  safe_mode cfg = true -> checkable s -> size_ s = 0 ->
  exists s',
    top hash_function_ cfg s = Thrown s' (report cfg s') /\
    has_error TOP_FROM_EMPTY_STACK s' = true /\
    s' = with_errors (errors_ s') s /\
    forall x s'' tr, top hash_function_ cfg s <> Normal x s'' tr.
Proof.
  intros Hsafe Hc Hempty.
  set (s1 := with_errors (Z.lor (errors_ s) (code TOP_FROM_EMPTY_STACK)) s).
  assert (Hne1 : errors_ s1 <> 0) by apply lor_code_nonzero.
  assert (Htop : top hash_function_ cfg s =
                 Thrown (with_errors (detected hash_function_ s1) s1)
                   (report cfg (with_errors (detected hash_function_ s1) s1))).
  { rewrite top_eq. apply Z.eqb_eq in Hempty. rewrite Hempty.
    apply bind_Thrown, CHECK_VALIDITY_poisoned;
      [exact Hsafe | exact Hc | exact Hne1]. }
  exists (with_errors (detected hash_function_ s1) s1).
  split; [exact Htop|]. split; [|split].
  - apply (has_error_kept _ s1); [apply bits_kept_detected|].
    apply has_error_lor.
  - reflexivity.
  - intros x s'' tr E. rewrite Htop in E. discriminate.
Qed.

(** C4, as the code has it: when the allocation of the constructor fails,
    [BAD_ALLOC] is recorded and [buffer_] stays null. With the validation
    pass compiled in, the pass at the end of the constructor reports the
    error and throws: construction fails at once. With the pass compiled
    out, the constructor returns the object with the bit set. *)
Theorem construct_allocation_failure cfg capacity a a' :
  allocate a capacity = (a', None) ->
  let s' := with_errors (code BAD_ALLOC) (initial capacity a') in
  buffer_ s' = None /\
  has_error BAD_ALLOC s' = true /\
  construct hash_function_ cfg capacity a =
  if safe_mode cfg
  then Thrown s' [Ev_bad_alloc capacity; Stderr Errors_found;
                  Stderr (Error_line BAD_ALLOC)]
  else Normal tt s' [Ev_bad_alloc capacity].
Proof. apply construct_bad_alloc. Qed.

(** C1: from an uncorrupted stack, after every sequence of operations (the
    caller catching the exceptions), the stored checksum is the sum of the
    hash values of the live elements [buffer_[0 .. size_)], taken in
    [hash_value_type], and [size_] is their number; as long as no error bit
    is set, the live elements are those of the stack the operations
    describe, so nothing was popped from an empty stack. With the validation
    pass compiled in and a capacity that is not zero, every such sequence
    does leave a state to observe. *)
Theorem checksum_size_invariant cfg ops s :
  uncorrupted hash_function_ s ->
  (forall s', run hash_function_ cfg ops s = Some s' ->
     control_sum_ s' = wrap (hash_total hash_function_ (live s')) /\
     size_ s' = Z.of_nat (length (live s')) /\
     (errors_ s' = 0 -> live s' = model_run ops (live s))) /\
  (safe_mode cfg = true -> 0 < capacity_ s ->
   exists s', run hash_function_ cfg ops s = Some s').
Proof.
  intros Hu. split.
  - intros s' Hrun.
    destruct (run_invariant cfg ops s s' Hu Hrun) as ((Hl & _ & _ & Hc) & Hm).
    split; [exact Hc|]. split; [apply length_live, Hl | exact Hm].
  - intros Hsafe Hpos. apply run_progress; assumption.
Qed.

(** C7: whatever operations run on an object, a bit of [errors_] that is
    set stays set: this holds for every bit of the mask, and so for each of
    the six error kinds. *)
Theorem errors_are_sticky cfg ops s s' :
  run hash_function_ cfg ops s = Some s' ->
  (forall i, Z.testbit (errors_ s) i = true ->
             Z.testbit (errors_ s') i = true) /\
  (forall e, has_error e s = true -> has_error e s' = true).
Proof.
  intros Hrun. pose proof (run_grows cfg ops s s' Hrun) as Hk.
  split; [exact Hk|]. intros e. apply has_error_kept, Hk.
Qed.


(** * Further properties *)

(** ** What the validation pass finds *)

Lemma has_error_lor_code (x : Z) e e' s :
  has_error e (with_errors (Z.lor x (code e')) s) =
  has_error e (with_errors x s) || (bit_index e' =? bit_index e).
Proof.
  rewrite !has_error_testbit. cbn [errors_ with_errors].
  rewrite Z.lor_spec, code_bit, Z.pow2_bits_eqb by (destruct e'; cbn; lia).
  reflexivity.
Qed.

Lemma has_error_detected e s :
  has_error e (with_errors (detected hash_function_ s) s) =
  has_error e s || finds hash_function_ s e.
Proof.
  unfold detected, finds.
  destruct (control_sum_ s =? checksum_of hash_function_ (live s));
    destruct (canary_before_ s =? POISON);
    destruct (canary_after_ s =? POISON);
    rewrite ?has_error_lor_code, ?with_errors_id;
    destruct e; cbn; rewrite ?orb_false_r; reflexivity.
Qed.

Lemma detected_verdict s :
  (detected hash_function_ s =? 0) =
  (errors_ s =? 0)
  && (control_sum_ s =? checksum_of hash_function_ (live s))
  && (canary_before_ s =? POISON) && (canary_after_ s =? POISON).
Proof.
  destruct (detected hash_function_ s =? 0) eqn:Ed.
  - apply Z.eqb_eq, detected_zero in Ed. destruct Ed as (-> & -> & -> & ->).
    rewrite !Z.eqb_refl. reflexivity.
  - symmetry. apply not_true_is_false. intros Hall.
    apply andb_prop in Hall. destruct Hall as [Hall E4].
    apply andb_prop in Hall. destruct Hall as [Hall E3].
    apply andb_prop in Hall. destruct Hall as [E1 E2].
    apply Z.eqb_eq in E1, E2, E3, E4. apply Z.eqb_neq in Ed. apply Ed.
    apply detected_clean; assumption.
Qed.

(** X1: a validation pass returns, touching nothing, exactly when no error
    bit is set, the stored checksum is that of the live elements and both
    canaries hold [POISON]. Otherwise it throws after the report, having
    changed only [errors_], where it set the bit of each check that failed
    and nothing else. *)
Theorem validation_verdict cfg s :
  checkable s ->
  exists s',
    check_validity hash_function_ cfg s =
      (if (errors_ s =? 0)
          && (control_sum_ s =? checksum_of hash_function_ (live s))
          && (canary_before_ s =? POISON) && (canary_after_ s =? POISON)
       then Normal tt s []
       else Thrown s' (report cfg s')) /\
    s' = with_errors (errors_ s') s /\
    forall e, has_error e s' = has_error e s || finds hash_function_ s e.
Proof.
  intros Hc. exists (with_errors (detected hash_function_ s) s).
  split; [|split].
  - rewrite check_validity_eq by exact Hc. rewrite detected_verdict.
    reflexivity.
  - reflexivity.
  - intros e. apply has_error_detected.
Qed.

(** ** Damage to the elements *)

Lemma hash_total_insert (l : list T) i old y :
  l !! i = Some old ->
  hash_total hash_function_ (<[i := y]> l) =
  hash_total hash_function_ l - hash_function_ old + hash_function_ y.
Proof.
  revert i. unfold hash_total.
  induction l as [|z l IH]; intros [|i] Hi; cbn in Hi; try discriminate.
  - injection Hi as ->. cbn. lia.
  - change (hash_function_ z
            + foldr (fun x acc => hash_function_ x + acc) 0 (<[i := y]> l) =
            hash_function_ z
            + foldr (fun x acc => hash_function_ x + acc) 0 l
            - hash_function_ old + hash_function_ y).
    rewrite (IH i Hi). lia.
Qed.

Lemma hash_total_perm (l l' : list T) :
  l ≡ₚ l' -> hash_total hash_function_ l = hash_total hash_function_ l'.
Proof.
  unfold hash_total.
  induction 1 as [|x l l' _ IH|x y l|l l' l'' _ IH1 _ IH2]; cbn.
  - reflexivity.
  - rewrite IH. reflexivity.
  - lia.
  - rewrite IH1. exact IH2.
Qed.

Lemma wrap_eqb_shift a o y :
  (wrap a =? wrap (a - o + y)) = (wrap y =? wrap o).
Proof.
  unfold wrap.
  destruct (y mod 2 ^ 64 =? o mod 2 ^ 64) eqn:E.
  - apply Z.eqb_eq in E. apply Z.eqb_eq.
    apply Z.cong_iff_0 in E. apply Z.cong_iff_0.
    replace (a - (a - o + y)) with (- (y - o)) by lia.
    apply Z.mod_opp_l_z; [lia | exact E].
  - apply Z.eqb_neq in E. apply Z.eqb_neq. intros E'. apply E.
    apply Z.cong_iff_0 in E'. apply Z.cong_iff_0.
    replace (y - o) with (- (a - (a - o + y))) by lia.
    apply Z.mod_opp_l_z; [lia | exact E'].
Qed.

(** X2: when a live element is overwritten behind the back of the object,
    the next validation pass throws with exactly [WRONG_CONTROL_SUM] set,
    unless the new value has the same hash value (in [hash_value_type]) as
    the old one: then the pass returns and the damage goes unnoticed. *)
Theorem overwrite_detection cfg s (i : nat) old y :
  uncorrupted hash_function_ s -> errors_ s = 0 ->
  Z.of_nat i < size_ s -> default [] (buffer_ s) !! i = Some old ->
  let s' := overwritten i y s in
  check_validity hash_function_ cfg s' =
  if wrap (hash_function_ y) =? wrap (hash_function_ old)
  then Normal tt s' []
  else Thrown (with_errors (code WRONG_CONTROL_SUM) s')
         (report cfg (with_errors (code WRONG_CONTROL_SUM) s')).
Proof.
  intros (Hl & Hb & Ha & Hcs) He Hi Hold s'.
  assert (Hlive : live s' = <[i := y]> (live s)).
  { subst s'. unfold live, overwritten. cbn [buffer_ size_ with_buffer].
    cbn [default from_option id]. apply take_insert_lt. lia. }
  assert (Hlook : live s !! i = Some old).
  { unfold live. rewrite lookup_take_lt by lia. exact Hold. }
  assert (Hc' : checkable s').
  { subst s'. unfold layout_ok in Hl. unfold checkable, overwritten.
    cbn [buffer_ size_ capacity_ with_buffer].
    destruct (buffer_ s) as [cells|]; [|tauto].
    cbn [default from_option id]. rewrite length_insert. lia. }
  rewrite check_validity_eq by exact Hc'. unfold detected.
  change (canary_before_ s') with (canary_before_ s).
  change (canary_after_ s') with (canary_after_ s).
  change (control_sum_ s') with (control_sum_ s).
  change (errors_ s') with (errors_ s).
  rewrite Hb, Ha, He, !Z.eqb_refl, Hcs, Hlive.
  unfold checksum_of. rewrite (hash_total_insert _ _ _ _ Hlook).
  rewrite wrap_eqb_shift.
  destruct (wrap (hash_function_ y) =? wrap (hash_function_ old));
    reflexivity.
Qed.

(** X3: the checksum does not see the order of the elements: when the live
    slots are rewritten with a permutation of the live elements, the next
    validation pass returns as if nothing had happened. *)
Theorem reordering_undetected cfg s (cells' : list T) :
  uncorrupted hash_function_ s -> errors_ s = 0 ->
  Z.of_nat (length cells') = capacity_ s ->
  take (Z.to_nat (size_ s)) cells' ≡ₚ live s ->
  let s' := with_buffer (Some cells') s in
  live s' ≡ₚ live s /\
  check_validity hash_function_ cfg s' = Normal tt s' [].
Proof.
  intros (Hl & Hb & Ha & Hcs) He Hlen Hperm s'.
  split; [exact Hperm|].
  assert (Hc' : checkable s').
  { subst s'. unfold layout_ok in Hl. unfold checkable.
    cbn [buffer_ size_ capacity_ with_buffer].
    destruct (buffer_ s) as [cells|]; [|tauto]. lia. }
  rewrite check_validity_eq by exact Hc'.
  rewrite detected_clean; [reflexivity | exact He | | exact Hb | exact Ha].
  change (control_sum_ s') with (control_sum_ s). rewrite Hcs.
  unfold checksum_of. f_equal. symmetry. apply hash_total_perm. exact Hperm.
Qed.


(** ** Reading a stack without errors *)

Lemma CHECK_VALIDITY_ok cfg s :
  uncorrupted hash_function_ s -> errors_ s = 0 ->
  CHECK_VALIDITY hash_function_ cfg s = Normal tt s [].
Proof.
  intros (Hl & Hb & Ha & Hc) He.
  rewrite CHECK_VALIDITY_eq by (apply layout_ok_checkable, Hl).
  rewrite (detected_clean s He Hc Hb Ha), andb_false_r. reflexivity.
Qed.

Lemma empty_ok cfg s :
  uncorrupted hash_function_ s -> errors_ s = 0 ->
  empty hash_function_ cfg s = Normal (size_ s =? 0) s [].
Proof.
  intros Hu He. rewrite empty_eq.
  rewrite (bind_Normal _ _ _ _ _ _ (CHECK_VALIDITY_ok cfg s Hu He)).
  reflexivity.
Qed.

Lemma top_ok cfg s x :
  uncorrupted hash_function_ s -> errors_ s = 0 -> 0 < size_ s ->
  slot s (wrap (size_ s - 1)) = Some x ->
  top hash_function_ cfg s = Normal x s [].
Proof.
  intros Hu He Hpos Hx. rewrite top_eq.
  destruct (size_ s =? 0) eqn:E; [lia|].
  rewrite (bind_Normal _ _ _ _ _ _ (CHECK_VALIDITY_ok cfg s Hu He)).
  rewrite Hx. reflexivity.
Qed.

Lemma pop_ok cfg s x :
  uncorrupted hash_function_ s -> errors_ s = 0 -> 0 < size_ s ->
  slot s (wrap (size_ s - 1)) = Some x ->
  pop hash_function_ cfg s = Normal tt (popped hash_function_ x s) [].
Proof.
  intros Hu He Hpos Hx.
  rewrite (pop_nonempty_eq cfg s x) by (lia || exact Hx).
  apply CHECK_VALIDITY_ok; [|exact He].
  apply (uncorrupted_popped x s Hu Hpos Hx).
Qed.

Lemma live_last_slot s l x :
  layout_ok s -> live s = l ++ [x] ->
  0 < size_ s /\ slot s (wrap (size_ s - 1)) = Some x.
Proof.
  intros Hl Hlive.
  assert (Hpos : 0 < size_ s).
  { rewrite (length_live s Hl), Hlive, length_app. cbn. lia. }
  split; [exact Hpos|].
  destruct (top_slot s Hl Hpos) as (x' & Hx' & Hlive').
  rewrite Hlive in Hlive'. apply app_inj_tail in Hlive'.
  destruct Hlive' as [_ ->]. exact Hx'.
Qed.

Lemma live_nil s : size_ s = 0 -> live s = [].
Proof. intros E. unfold live. rewrite E. reflexivity. Qed.

(** X4: on an uncorrupted stack with no error bit set, [empty] returns
    whether there is no live element, [top] returns the element pushed last
    and [pop] removes exactly that one; none of them writes anything, [empty]
    and [top] leave the object untouched, and [pop] touches only [size_] and
    the checksum: the block, with the popped value still in its slot, and the
    capacity stay. *)
Theorem reading_a_sound_stack cfg s :
  uncorrupted hash_function_ s -> errors_ s = 0 ->
  empty hash_function_ cfg s = Normal (bool_decide (live s = [])) s [] /\
  forall l x, live s = l ++ [x] ->
    top hash_function_ cfg s = Normal x s [] /\
    exists s',
      pop hash_function_ cfg s = Normal tt s' [] /\
      live s' = l /\ buffer_ s' = buffer_ s /\ capacity_ s' = capacity_ s /\
      uncorrupted hash_function_ s' /\ errors_ s' = 0.
Proof.
  intros Hu He. pose proof Hu as (Hl & _). split.
  - rewrite empty_ok by assumption. do 3 f_equal.
    pose proof (length_live s Hl) as Hlen.
    destruct (size_ s =? 0) eqn:E.
    + symmetry. apply bool_decide_eq_true. apply live_nil. lia.
    + symmetry. apply bool_decide_eq_false. intros Hnil.
      rewrite Hnil in Hlen. cbn in Hlen. lia.
  - intros l x Hlive.
    destruct (live_last_slot s l x Hl Hlive) as (Hpos & Hx).
    split; [apply top_ok; assumption|].
    exists (popped hash_function_ x s).
    destruct (uncorrupted_popped x s Hu Hpos Hx) as (Hu' & Hsplit).
    rewrite Hlive in Hsplit. apply app_inj_tail in Hsplit.
    destruct Hsplit as [Hl' _].
    split; [apply pop_ok; assumption|].
    split; [symmetry; exact Hl'|]. split; [reflexivity|].
    split; [reflexivity|]. split; [exact Hu' | exact He].
Qed.

(** ** What a push that returned has done *)

Lemma push_returned cfg x s s1 tr :
  uncorrupted hash_function_ s -> errors_ s = 0 ->
  push hash_function_ cfg x s = Normal tt s1 tr ->
  uncorrupted hash_function_ s1 /\ errors_ s1 = 0 /\
  live s1 = live s ++ [x].
Proof.
  intros Hu He Hpush. pose proof Hu as (Hl & _).
  assert (Hstate : state_of (push hash_function_ cfg x s) = Some s1)
    by (rewrite Hpush; reflexivity).
  destruct (push_step cfg x s s1 Hu Hstate) as (Hu1 & Hm).
  assert (He1 : errors_ s1 = 0); [|auto].
  revert Hpush. rewrite push_decompose.
  assert (Htail : forall s0 tr0,
             layout_ok s0 ->
             push_tail hash_function_ cfg x s0 = Normal tt s1 tr0 ->
             errors_ s1 = errors_ s0).
  { intros s0 tr0 Hl0. rewrite push_tail_eq by exact Hl0.
    destruct (safe_mode cfg && negb (detected hash_function_ s0 =? 0));
      [discriminate|].
    destruct (size_ s0 <? capacity_ s0);
      [intros [= <- _]; reflexivity | destruct (assertions cfg); discriminate]. }
  assert (Hafter : forall tr0 (o : result unit),
             after tr0 o = Normal tt s1 tr ->
             exists tr1, o = Normal tt s1 tr1).
  { intros tr0 [[] s2 tr1| | |]; cbn; try discriminate.
    intros [= -> _]. eauto. }
  destruct (size_ s =? capacity_ s) eqn:Efull.
  - apply Z.eqb_eq in Efull.
    destruct (allocate (allocator_ s) (wrap (size_ s * GROWTH_FACTOR_)))
      as [a [blk|]] eqn:Halloc.
    + rewrite (bind_Normal _ _ _ _ _ _ (expand_grows cfg s a blk Hl Efull Halloc)).
      intros E. apply Hafter in E. destruct E as (tr1 & E).
      apply Htail in E; [rewrite E; exact He|].
      apply (layout_ok_expanded s a blk Hl Efull Halloc).
    + rewrite (bind_Normal _ _ _ _ _ _ (expand_fails cfg s a Efull Halloc)).
      intros E. apply Hafter in E. destruct E as (tr1 & E). exfalso.
      revert E. rewrite push_tail_eq by exact Hl.
      cbn [size_ capacity_ with_errors with_allocator].
      destruct (safe_mode cfg && negb (_ =? 0)); [discriminate|].
      destruct (size_ s <? capacity_ s) eqn:Elt; [lia|].
      destruct (assertions cfg); discriminate.
  - rewrite (bind_Normal (ret tt) _ s tt s []) by reflexivity.
    rewrite after_nil. intros E. apply Htail in E; [|exact Hl].
    rewrite E. exact He.
Qed.

(** ** Emptying a stack *)

Lemma drain_spec cfg fuel : forall s,
  uncorrupted hash_function_ s -> errors_ s = 0 ->
  (length (live s) <= fuel)%nat ->
  exists s',
    drain hash_function_ cfg fuel s = Normal (rev (live s)) s' [] /\
    size_ s' = 0 /\ uncorrupted hash_function_ s' /\ errors_ s' = 0 /\
    capacity_ s' = capacity_ s /\ buffer_ s' = buffer_ s.
Proof.
  induction fuel as [|fuel IH]; intros s Hu He Hfuel; pose proof Hu as (Hl & _);
    pose proof (length_live s Hl) as Hlen.
  - exists s. destruct (live s) eqn:Hlive; [|cbn in Hfuel; lia].
    cbn in Hlen. repeat split; try assumption; try reflexivity; apply Hu.
  - cbn [drain].
    rewrite (bind_Normal _ _ _ _ _ _ (empty_ok cfg s Hu He)), after_nil.
    destruct (size_ s =? 0) eqn:E0.
    + exists s. rewrite live_nil by lia.
      repeat split; try assumption; try reflexivity; try lia; apply Hu.
    + assert (Hpos : 0 < size_ s) by lia.
      destruct (top_slot s Hl Hpos) as (x & Hx & _).
      destruct (uncorrupted_popped x s Hu Hpos Hx) as (Hu1 & Hsplit).
      rewrite (bind_Normal _ _ _ _ _ _ (top_ok cfg s x Hu He Hpos Hx)), after_nil.
      rewrite (bind_Normal _ _ _ _ _ _ (pop_ok cfg s x Hu He Hpos Hx)), after_nil.
      destruct (IH (popped hash_function_ x s) Hu1 He) as
        (s' & Hrun & Hsz & Hu' & He' & Hcap & Hbuf).
      { rewrite Hsplit, length_app in Hfuel. cbn in Hfuel. lia. }
      exists s'. rewrite (bind_Normal _ _ _ _ _ _ Hrun).
      rewrite Hsplit, rev_unit.
      split; [reflexivity|]. split; [exact Hsz|]. split; [exact Hu'|].
      split; [exact He'|]. split; [exact Hcap | exact Hbuf].
Qed.

(** X6: the loop [while (!s.empty()) { x = s.top(); s.pop(); }] on an
    uncorrupted stack without errors reads the live elements last pushed
    first, writes nothing and leaves the stack empty, uncorrupted and
    without errors, with the block and the capacity it had. *)
Theorem drain_reverses cfg fuel s :
  uncorrupted hash_function_ s -> errors_ s = 0 ->
  (length (live s) <= fuel)%nat ->
  exists s',
    drain hash_function_ cfg fuel s = Normal (rev (live s)) s' [] /\
    live s' = [] /\ uncorrupted hash_function_ s' /\ errors_ s' = 0 /\
    capacity_ s' = capacity_ s /\ buffer_ s' = buffer_ s.
Proof.
  intros Hu He Hfuel.
  destruct (drain_spec cfg fuel s Hu He Hfuel)
    as (s' & Hrun & Hsz & Hu' & He' & Hcap & Hbuf).
  exists s'. split; [exact Hrun|]. split; [apply live_nil, Hsz|].
  split; [exact Hu'|]. split; [exact He'|]. split; [exact Hcap | exact Hbuf].
Qed.


(** ** Without the validation pass *)

Lemma unreported_plain {X} cfg (o : result X) :
  (forall s tr, o <> Thrown s tr) ->
  (forall d, ~ In (Stderr d) (trace_of o)) ->
  unreported cfg o.
Proof.
  intros Hthrow Hout. split; [exact Hthrow|].
  intros d Hin. destruct (Hout d Hin).
Qed.

Lemma unreporting_bind {X Y} cfg (m : M X) (k : X -> M Y) :
  unreporting cfg m -> (forall x, unreporting cfg (k x)) ->
  unreporting cfg (bind m k).
Proof.
  intros Hm Hk s. unfold bind. pose proof (Hm s) as (Hthrow & Hout).
  destruct (m s) as [x s1 tr| s1 tr| tr| tr].
  - assert (Hclean : forall d, ~ In (Stderr d) tr).
    { intros d Hin. destruct (Hout d Hin) as (_ & _ & tr' & E). discriminate. }
    destruct (Hk x s1) as (Hthrow' & Hout'). split.
    + intros s2 tr2 E. destruct (k x s1); cbn in E; try discriminate.
      eapply Hthrow'. reflexivity.
    + intros d. rewrite trace_of_after. intros Hin.
      apply in_app_or in Hin. destruct Hin as [Hin|Hin];
        [destruct (Hclean d Hin)|].
      destruct (Hout' d Hin) as (Hd & Ha & tr' & E).
      split; [exact Hd|]. split; [exact Ha|]. rewrite E. cbn. eauto.
  - exfalso. eapply Hthrow. reflexivity.
  - split; [discriminate|]. intros d Hin.
    destruct (Hout d Hin) as (Hd & Ha & _).
    split; [exact Hd|]. split; [exact Ha|]. eexists. reflexivity.
  - split; [discriminate|]. intros d Hin.
    destruct (Hout d Hin) as (_ & _ & tr' & E). discriminate.
Qed.

Lemma unreporting_plain {X} cfg (m : M X) :
  (forall s, (exists x s', m s = Normal x s' []) \/ m s = Undefined []) ->
  unreporting cfg m.
Proof.
  intros Hm s. apply unreported_plain;
    destruct (Hm s) as [(x & s' & ->)| ->];
    first [discriminate | intros d []].
Qed.

Lemma unreporting_ret {X} cfg (x : X) : unreporting cfg (ret x : M X).
Proof. apply unreporting_plain. intros s. left. eauto. Qed.

Lemma unreporting_get cfg : unreporting cfg (get : M stack).
Proof. apply unreporting_plain. intros s. left. eexists _, _. reflexivity. Qed.

Lemma unreporting_modify cfg (f : stack -> stack) : unreporting cfg (modify f).
Proof. apply unreporting_plain. intros s. left. eexists _, _. reflexivity. Qed.

Lemma unreporting_undefined {X} cfg : unreporting cfg (undefined : M X).
Proof. apply unreporting_plain. intros s. right. reflexivity. Qed.

Lemma unreporting_set_error cfg e : unreporting cfg (set_error e : M unit).
Proof. apply unreporting_modify. Qed.

(** The one place that writes without the validation pass. *)
Lemma unreporting_assert cfg b : unreporting cfg (assert cfg b : M unit).
Proof.
  unfold assert. destruct (assertions cfg) eqn:Ea;
    [destruct b|]; try apply unreporting_ret.
  intros s. split; [discriminate|].
  intros d [[= <-]|[]]. split; [reflexivity|]. split; [exact Ea|].
  eexists. reflexivity.
Qed.

Lemma unreporting_read_slot cfg i : unreporting cfg (read_slot i : M T).
Proof.
  apply unreporting_plain. intros s. unfold read_slot.
  destruct (slot s i); [left; eauto | right; reflexivity].
Qed.

Lemma unreporting_write_slot cfg i x :
  unreporting cfg (write_slot i x : M unit).
Proof.
  apply unreporting_plain. intros s. unfold write_slot.
  destruct (buffer_ s) as [cells|]; [|right; reflexivity].
  destruct ((0 <=? i) && (i <? Z.of_nat (length cells)));
    [left; eauto | right; reflexivity].
Qed.

Lemma unreporting_bad_alloc cfg n :
  unreporting cfg (emit (Ev_bad_alloc n) : M unit).
Proof.
  intros s. apply unreported_plain; [discriminate|].
  intros d [E|[]]. discriminate.
Qed.

Lemma unreporting_ev_expand cfg old new :
  unreporting cfg (emit (Ev_expand old new) : M unit).
Proof.
  intros s. apply unreported_plain; [discriminate|].
  intros d [E|[]]. discriminate.
Qed.

(** Goes through a method body that contains no validation pass. *)
Ltac hush :=
  repeat first
    [ assumption
    | apply unreporting_bind; [|intros ?]
    | apply unreporting_ret | apply unreporting_get | apply unreporting_modify
    | apply unreporting_undefined | apply unreporting_set_error
    | apply unreporting_assert | apply unreporting_read_slot
    | apply unreporting_write_slot
    | apply unreporting_bad_alloc | apply unreporting_ev_expand
    | match goal with
      | |- unreporting _ (if ?b then _ else _) => destruct b
      | |- unreporting _ (match ?o with Some _ => _ | None => _ end) =>
          destruct o
      | |- unreporting _ (match ?p with (_, _) => _ end) => destruct p
      end ].

Lemma unreporting_expand cfg : unreporting cfg (expand cfg : M unit).
Proof. unfold expand. hush. Qed.

Lemma unreporting_CHECK_VALIDITY cfg :
  safe_mode cfg = false ->
  unreporting cfg (CHECK_VALIDITY hash_function_ cfg : M unit).
Proof. intros E. unfold CHECK_VALIDITY. rewrite E. apply unreporting_ret. Qed.

Lemma unreporting_exec cfg o :
  safe_mode cfg = false ->
  unreporting cfg (exec hash_function_ cfg o : M unit).
Proof.
  intros Hfast.
  pose proof (unreporting_CHECK_VALIDITY cfg Hfast) as Hcheck.
  pose proof (unreporting_expand cfg) as Hexpand.
  destruct o; cbn [exec]; unfold push, push_rvalue, pop, top, empty; hush.
Qed.

(** X7: with [STACK_SAFE_MODE] not defined, no operation and no constructor
    call ever throws or writes an error report, whatever the state of the
    object: errors are recorded in [errors_] at most. The only thing such a
    call can write to the error stream is the message of a failed [assert],
    after which it aborts; with [NDEBUG] as well it writes nothing at all. *)
Theorem fast_mode_never_reports cfg :
  safe_mode cfg = false ->
  (forall o s, unreported cfg (exec hash_function_ cfg o s)) /\
  (forall capacity a,
     unreported cfg (construct hash_function_ cfg capacity a)) /\
  (assertions cfg = false ->
   forall o s d, ~ In (Stderr d) (trace_of (exec hash_function_ cfg o s))).
Proof.
  intros Hfast. split; [|split].
  - intros o s. apply unreporting_exec, Hfast.
  - pose proof (unreporting_CHECK_VALIDITY cfg Hfast) as Hcheck.
    assert (Hbody : unreporting cfg (construct_body hash_function_ cfg : M unit))
      by (unfold construct_body; hush).
    intros capacity a. apply Hbody.
  - intros Hndebug o s d Hin.
    destruct (unreporting_exec cfg o Hfast s) as (_ & Hout).
    destruct (Hout d Hin) as (_ & Ha & _). congruence.
Qed.

(** X8: the misuse that the validation pass would have turned into an
    exception, with [STACK_SAFE_MODE] not defined: [pop] on an empty stack
    returns, having only set [POP_FROM_EMPTY_STACK]; [top] on an empty stack
    sets [TOP_FROM_EMPTY_STACK] and then reads [buffer_[size_ - 1]], which is
    slot [2^64 - 1], outside the block. *)
Theorem fast_mode_empty_misuse cfg s :
  safe_mode cfg = false -> layout_ok s -> size_ s = 0 ->
  pop hash_function_ cfg s =
    Normal tt
      (with_errors (Z.lor (errors_ s) (code POP_FROM_EMPTY_STACK)) s) [] /\
  top hash_function_ cfg s = Undefined [].
Proof.
  intros Hfast Hl Hempty. split.
  - rewrite pop_empty_eq by exact Hempty. unfold CHECK_VALIDITY.
    rewrite Hfast. reflexivity.
  - rewrite top_eq. apply Z.eqb_eq in Hempty. rewrite Hempty.
    apply Z.eqb_eq in Hempty.
    unfold bind, CHECK_VALIDITY. rewrite Hfast. cbn.
    unfold slot. cbn [buffer_ size_ with_errors]. rewrite Hempty.
    unfold layout_ok in Hl. destruct (buffer_ s) as [cells|]; [|tauto].
    destruct Hl as (Hlen & _ & Hc).
    change (wrap (0 - 1)) with (2 ^ 64 - 1).
    destruct (0 <=? 2 ^ 64 - 1); [|reflexivity].
    rewrite lookup_ge_None_2; [reflexivity|]. lia.
Qed.


(** ** The layout of the object, whatever its contents *)

Lemma push_tail_layout cfg x s s' :
  layout_ok s ->
  state_of (push_tail hash_function_ cfg x s) = Some s' ->
  layout_ok s' /\ capacity_ s' = capacity_ s /\
  canary_before_ s' = canary_before_ s /\ canary_after_ s' = canary_after_ s.
Proof.
  intros Hl. rewrite push_tail_eq by exact Hl.
  destruct (safe_mode cfg && negb (detected hash_function_ s =? 0)).
  - cbn. intros [= <-]. repeat split; exact Hl.
  - destruct (size_ s <? capacity_ s) eqn:Elt.
    + apply Z.ltb_lt in Elt. intros [= <-].
      split; [apply layout_ok_pushed; assumption|]. repeat split.
    + destruct (assertions cfg); discriminate.
Qed.

Lemma CHECK_VALIDITY_layout cfg s s' :
  layout_ok s ->
  state_of (CHECK_VALIDITY hash_function_ cfg s) = Some s' ->
  layout_ok s' /\ capacity_ s' = capacity_ s /\
  canary_before_ s' = canary_before_ s /\ canary_after_ s' = canary_after_ s.
Proof.
  intros Hl Hs'.
  apply CHECK_VALIDITY_state in Hs'; [|apply layout_ok_checkable, Hl].
  destruct Hs' as (-> & _). repeat split; exact Hl.
Qed.

Lemma exec_layout cfg o s s' :
  layout_ok s ->
  state_of (exec hash_function_ cfg o s) = Some s' ->
  layout_ok s' /\ capacity_ s <= capacity_ s' /\
  canary_before_ s' = canary_before_ s /\ canary_after_ s' = canary_after_ s.
Proof.
  intros Hl.
  assert (Hcap0 : 0 <= capacity_ s).
  { unfold layout_ok in Hl. destruct (buffer_ s); [lia | tauto]. }
  assert (Hpush : forall x,
             state_of (push hash_function_ cfg x s) = Some s' ->
             layout_ok s' /\ capacity_ s <= capacity_ s' /\
             canary_before_ s' = canary_before_ s /\
             canary_after_ s' = canary_after_ s).
  { intros x. rewrite push_decompose.
    destruct (size_ s =? capacity_ s) eqn:Efull.
    - apply Z.eqb_eq in Efull.
      destruct (allocate (allocator_ s) (wrap (size_ s * GROWTH_FACTOR_)))
        as [a [blk|]] eqn:Halloc.
      + rewrite (bind_Normal _ _ _ _ _ _ (expand_grows cfg s a blk Hl Efull Halloc)).
        rewrite state_of_after. intros Hs'.
        destruct (layout_ok_expanded s a blk Hl Efull Halloc) as (Hl1 & Hcap1 & _).
        destruct (push_tail_layout cfg x _ s' Hl1 Hs') as (Hl' & Hc' & Hb' & Ha').
        split; [exact Hl'|]. split; [lia|]. split; [exact Hb' | exact Ha'].
      + rewrite (bind_Normal _ _ _ _ _ _ (expand_fails cfg s a Efull Halloc)).
        rewrite state_of_after. intros Hs'.
        assert (Hl1 : layout_ok (with_errors (Z.lor (errors_ s) (code BAD_ALLOC))
                                   (with_allocator a s))) by exact Hl.
        destruct (push_tail_layout cfg x _ s' Hl1 Hs') as (Hl' & Hc' & Hb' & Ha').
        split; [exact Hl'|]. split; [cbn in Hc'; lia|].
        split; [exact Hb' | exact Ha'].
    - rewrite (bind_Normal (ret tt) _ s tt s []) by reflexivity.
      rewrite after_nil. intros Hs'.
      destruct (push_tail_layout cfg x s s' Hl Hs') as (Hl' & Hc' & Hb' & Ha').
      split; [exact Hl'|]. split; [lia|]. split; [exact Hb' | exact Ha']. }
  destruct o as [x|x| | |]; cbn [exec].
  - apply Hpush.
  - rewrite push_overloads_agree. apply Hpush.
  - destruct (Z.eq_dec (size_ s) 0) as [E0|E0].
    + rewrite pop_empty_eq by exact E0. intros Hs'.
      assert (Hl1 : layout_ok (with_errors
                                 (Z.lor (errors_ s) (code POP_FROM_EMPTY_STACK))
                                 s)) by exact Hl.
      destruct (CHECK_VALIDITY_layout cfg _ s' Hl1 Hs') as (Hl' & Hc' & Hb' & Ha').
      split; [exact Hl'|]. split; [cbn in Hc'; lia|].
      split; [exact Hb' | exact Ha'].
    + assert (Hpos : 0 < size_ s).
      { unfold layout_ok in Hl. destruct (buffer_ s); [lia | tauto]. }
      destruct (top_slot s Hl Hpos) as (x & Hx & _).
      rewrite (pop_nonempty_eq cfg s x E0 Hx). intros Hs'.
      destruct (CHECK_VALIDITY_layout cfg _ s' (layout_ok_popped x s Hl Hpos) Hs')
        as (Hl' & Hc' & Hb' & Ha').
      split; [exact Hl'|]. split; [cbn in Hc'; lia|].
      split; [exact Hb' | exact Ha'].
  - rewrite state_of_discard, top_eq. intros Hs'.
    apply state_of_bind_same in Hs'.
    2:{ intros [] s1 s2. destruct (slot s1 (wrap (size_ s1 - 1)));
          [intros [= <-]; reflexivity | discriminate]. }
    assert (Hl1 : layout_ok
                    (if size_ s =? 0
                     then with_errors
                            (Z.lor (errors_ s) (code TOP_FROM_EMPTY_STACK)) s
                     else s)) by (destruct (size_ s =? 0); exact Hl).
    destruct (CHECK_VALIDITY_layout cfg _ s' Hl1 Hs') as (Hl' & Hc' & Hb' & Ha').
    destruct (size_ s =? 0); cbn in Hc', Hb', Ha';
      (split; [exact Hl'|]; split; [lia|]; split; [exact Hb' | exact Ha']).
  - rewrite state_of_discard, empty_eq. intros Hs'.
    apply state_of_bind_same in Hs'; [|intros [] s1 s2 [= <-]; reflexivity].
    destruct (CHECK_VALIDITY_layout cfg s s' Hl Hs') as (Hl' & Hc' & Hb' & Ha').
    split; [exact Hl'|]. split; [lia|]. split; [exact Hb' | exact Ha'].
Qed.

(** ** Growth *)

(** X10: when the growth step gets its block, the capacity is exactly
    doubled, the live elements, the size, the checksum, the error bits and
    the canaries are as before, the old block went back to the allocator,
    and the slots from the old capacity on hold what the new block held
    when it came. *)
Theorem expand_success cfg s a (blk : list T) :
  layout_ok s -> size_ s = capacity_ s ->
  allocate (allocator_ s) (wrap (size_ s * GROWTH_FACTOR_)) = (a, Some blk) ->
  exists s',
    expand cfg s =
      Normal tt s' [Ev_expand (capacity_ s) (2 * capacity_ s)] /\
    layout_ok s' /\ capacity_ s' = 2 * capacity_ s /\
    live s' = live s /\ size_ s' = size_ s /\
    control_sum_ s' = control_sum_ s /\ errors_ s' = errors_ s /\
    canary_before_ s' = canary_before_ s /\
    canary_after_ s' = canary_after_ s /\
    allocator_ s' = deallocate a (capacity_ s) /\
    forall i : nat, capacity_ s <= Z.of_nat i ->
                    default [] (buffer_ s') !! i = blk !! i.
Proof.
  intros Hl Hfull Halloc.
  destruct (layout_ok_expanded s a blk Hl Hfull Halloc) as (Hl' & Hcap & Hlive).
  exists (expanded s a blk). split.
  { rewrite (expand_grows cfg s a blk Hl Hfull Halloc). do 3 f_equal.
    exact Hcap. }
  split; [exact Hl'|]. split; [exact Hcap|]. split; [exact Hlive|].
  do 6 (split; [reflexivity|]).
  intros i Hi. unfold expanded.
  cbn [buffer_ with_capacity with_buffer with_allocator].
  unfold layout_ok in Hl. destruct (buffer_ s) as [cells|]; [|tauto].
  destruct Hl as (Hlen & Hs & Hc). cbn [default from_option id].
  rewrite (take_ge cells) by lia.
  rewrite lookup_app_r by lia. rewrite lookup_drop. f_equal. lia.
Qed.

(** X11: when the growth step of [push] does not get its block. With the
    validation pass, [push] throws after the report with [BAD_ALLOC] set and
    nothing stored: size, block, capacity and checksum are as before.
    Without the pass, [push] goes on to [assert(size_ < capacity_)], which
    fails, writes its message and aborts; with the assertion compiled out as
    well, it writes [buffer_[size_]], one slot past the block. *)
Theorem push_growth_failure cfg x s a :
  layout_ok s -> size_ s = capacity_ s ->
  allocate (allocator_ s) (wrap (size_ s * GROWTH_FACTOR_)) = (a, None) ->
  let n := wrap (size_ s * GROWTH_FACTOR_) in
  (safe_mode cfg = true ->
   exists s',
     push hash_function_ cfg x s = Thrown s' (Ev_bad_alloc n :: report cfg s') /\
     has_error BAD_ALLOC s' = true /\
     size_ s' = size_ s /\ buffer_ s' = buffer_ s /\
     capacity_ s' = capacity_ s /\ control_sum_ s' = control_sum_ s) /\
  (safe_mode cfg = false ->
   push hash_function_ cfg x s =
   if assertions cfg then Aborted [Ev_bad_alloc n; Stderr Assertion_failed]
   else Undefined [Ev_bad_alloc n]).
Proof.
  intros Hl Hfull Halloc n.
  set (s1 := with_errors (Z.lor (errors_ s) (code BAD_ALLOC))
               (with_allocator a s)).
  assert (Hl1 : layout_ok s1) by exact Hl.
  assert (Hpush : push hash_function_ cfg x s =
                  after [Ev_bad_alloc n] (push_tail hash_function_ cfg x s1)).
  { rewrite push_decompose. apply Z.eqb_eq in Hfull. rewrite Hfull.
    apply Z.eqb_eq in Hfull.
    exact (bind_Normal _ _ _ _ _ _ (expand_fails cfg s a Hfull Halloc)). }
  rewrite Hpush, push_tail_eq by exact Hl1. split.
  - intros Hsafe. rewrite Hsafe.
    assert (Hd : detected hash_function_ s1 <> 0)
      by (apply detected_nonzero, lor_code_nonzero).
    apply Z.eqb_neq in Hd. rewrite Hd. cbn.
    eexists. split; [reflexivity|]. split; [|repeat split].
    apply (has_error_kept _ s1); [apply bits_kept_detected|].
    apply has_error_lor.
  - intros Hfast. rewrite Hfast. cbn [andb].
    change (size_ s1) with (size_ s). change (capacity_ s1) with (capacity_ s).
    destruct (size_ s <? capacity_ s) eqn:Elt; [lia|].
    destruct (assertions cfg); reflexivity.
Qed.

(** X12: pushes that fit never reach the allocator. On an uncorrupted stack
    without errors, pushing elements that fit in the free slots returns for
    each of them, writes nothing, runs no growth step, leaves the capacity
    and the allocator as they were, and puts the elements on top in the
    order pushed. *)
Theorem pushes_that_fit cfg elements : forall s,
  uncorrupted hash_function_ s -> errors_ s = 0 ->
  size_ s + Z.of_nat (length elements) <= capacity_ s ->
  exists s',
    push_all hash_function_ cfg elements s = Normal tt s' [] /\
    live s' = live s ++ elements /\ capacity_ s' = capacity_ s /\
    allocator_ s' = allocator_ s /\
    uncorrupted hash_function_ s' /\ errors_ s' = 0.
Proof.
  induction elements as [|x rest IH]; intros s Hu He Hfit; cbn [push_all].
  - exists s. rewrite app_nil_r. repeat split; try assumption; apply Hu.
  - cbn [length] in Hfit. pose proof Hu as (Hl & _).
    assert (Hlt : size_ s < capacity_ s) by lia.
    rewrite (bind_Normal _ _ _ _ _ _ (push_room cfg x s Hu He Hlt)), after_nil.
    pose proof (uncorrupted_pushed x s Hu Hlt) as Hu1.
    pose proof (live_pushed x s Hl Hlt) as Hlive1.
    assert (Hsize1 : size_ (pushed hash_function_ x s) = size_ s + 1).
    { unfold pushed. cbn. apply wrap_small.
      unfold layout_ok in Hl. destruct (buffer_ s); [lia | tauto]. }
    destruct (IH (pushed hash_function_ x s) Hu1 He)
      as (s' & Hrun & Hlive' & Hcap' & Halloc' & Hu' & He').
    { rewrite Hsize1. change (capacity_ (pushed hash_function_ x s))
        with (capacity_ s). lia. }
    exists s'. split; [exact Hrun|].
    split; [rewrite Hlive', Hlive1, <- app_assoc; reflexivity|].
    split; [exact Hcap'|]. split; [exact Halloc'|].
    split; [exact Hu' | exact He'].
Qed.

(** X13: when the allocation of the constructor succeeds, the constructor
    returns, writing nothing, an empty, uncorrupted stack of the capacity
    asked for, with no error bit set, owning the block the allocator gave;
    [empty] says so. *)
Theorem construct_success cfg capacity a a1 (blk : list T) :
  allocate a capacity = (a1, Some blk) ->
  exists s0,
    construct hash_function_ cfg capacity a = Normal tt s0 [] /\
    uncorrupted hash_function_ s0 /\ errors_ s0 = 0 /\
    size_ s0 = 0 /\ capacity_ s0 = capacity /\ live s0 = [] /\
    buffer_ s0 = Some blk /\ allocator_ s0 = a1 /\
    empty hash_function_ cfg s0 = Normal true s0 [].
Proof.
  intros Halloc.
  destruct (construct_ok cfg capacity a a1 blk Halloc) as (Hbody & Hu).
  eexists. split; [exact Hbody|]. split; [exact Hu|].
  do 6 (split; [reflexivity|]).
  rewrite empty_ok by (exact Hu || reflexivity). reflexivity.
Qed.

(** X17: growth from a capacity that is not zero. Pushing [k > c] values,
    each an object outside the stack ([push_ref_outside]), into a fresh
    stack of capacity [c >= 1], no allocation failing, runs the growth step
    exactly [ceil (log2 (k / c))] times, each time from the capacity reached
    to twice that capacity, and leaves the [k] values as the live elements,
    in the order pushed. Every call of [expand] that returns leaves one
    event in the trace, so the trace below lists all of them. *)
Theorem growth_steps cfg c a (elements : list T) :
  0 < c -> c < Z.of_nat (length elements) ->
  (forall n, ~ In (Ev_bad_alloc n)
               (trace_of (construct_push_all hash_function_ cfg c a elements))) ->
  exists s',
    construct_push_all hash_function_ cfg c a elements =
      Normal tt s'
        (doublings c 0
           (Z.to_nat (ceil_log2_ratio (Z.of_nat (length elements)) c))) /\
    live s' = elements /\
    size_ s' = Z.of_nat (length elements) /\
    capacity_ s' = c * 2 ^ ceil_log2_ratio (Z.of_nat (length elements)) c /\
    errors_ s' = 0.
Proof.
  intros Hc Hk Hno. unfold construct_push_all in *.
  destruct (allocate a c) as [a1 [blk|]] eqn:Halloc.
  - destruct (construct_ok cfg c a a1 blk Halloc) as (Hbody & Hu).
    rewrite (bind_Normal _ _ _ _ _ _ Hbody) in Hno |- *.
    rewrite after_nil in Hno |- *.
    destruct (push_all_doubles cfg c Hc elements _ 0%nat Hu eq_refl)
      as (s' & m & Hrun & _ & He' & Hlive' & Hcap' & Hsize' & Hj').
    { cbn. lia. }
    { split; [cbn; lia | left; reflexivity]. }
    { exact Hno. }
    cbn in Hsize', Hlive'. rewrite Hsize' in Hj'.
    rewrite (ceil_log2_ratio_least _ c m Hc Hk Hj'), Nat2Z.id.
    exists s'. split; [exact Hrun|]. split; [exact Hlive'|].
    split; [exact Hsize'|]. split; [exact Hcap' | exact He'].
  - exfalso. apply (Hno c). apply trace_of_bind_In.
    destruct (construct_bad_alloc cfg c a a1 Halloc) as (_ & _ & E).
    unfold construct in E. rewrite E.
    destruct (safe_mode cfg); left; reflexivity.
Qed.

(** ** Canaries *)

Lemma tainted_detected s : tainted s -> detected hash_function_ s <> 0.
Proof.
  intros Ht Hd. apply detected_zero in Hd. destruct Hd as (E0 & _ & Eb & Ea).
  destruct Ht as [Ht|[Ht|Ht]]; contradiction.
Qed.

Lemma tainted_check cfg s :
  safe_mode cfg = true -> layout_ok s -> tainted s ->
  let s' := with_errors (detected hash_function_ s) s in
  fatal cfg (CHECK_VALIDITY hash_function_ cfg s) s' /\
  layout_ok s' /\ errors_ s' <> 0 /\
  (canary_before_ s <> POISON -> has_error CANARY_BEFORE_CORRUPTED s' = true) /\
  (canary_after_ s <> POISON -> has_error CANARY_AFTER_CORRUPTED s' = true).
Proof.
  intros Hsafe Hl Ht s'. pose proof (tainted_detected s Ht) as Hd.
  split; [|split; [exact Hl|split; [exact Hd|split]]].
  - exists []. rewrite CHECK_VALIDITY_eq by (apply layout_ok_checkable, Hl).
    apply Z.eqb_neq in Hd. rewrite Hsafe, Hd. reflexivity.
  - intros Hb. subst s'. rewrite has_error_detected. cbn [finds].
    apply Z.eqb_neq in Hb. rewrite Hb. apply orb_true_r.
  - intros Ha. subst s'. rewrite has_error_detected. cbn [finds].
    apply Z.eqb_neq in Ha. rewrite Ha. apply orb_true_r.
Qed.

Lemma tainted_step cfg o s :
  safe_mode cfg = true -> layout_ok s -> tainted s ->
  exists s',
    fatal cfg (exec hash_function_ cfg o s) s' /\
    layout_ok s' /\ errors_ s' <> 0 /\
    (canary_before_ s <> POISON ->
     has_error CANARY_BEFORE_CORRUPTED s' = true) /\
    (canary_after_ s <> POISON ->
     has_error CANARY_AFTER_CORRUPTED s' = true).
Proof.
  intros Hsafe Hl Ht.
  assert (Hmove : forall s1,
             canary_before_ s1 = canary_before_ s ->
             canary_after_ s1 = canary_after_ s ->
             (errors_ s <> 0 -> errors_ s1 <> 0) -> tainted s1).
  { intros s1 Eb Ea He. unfold tainted. rewrite Eb, Ea.
    destruct Ht as [Ht|Ht]; [left; auto | right; exact Ht]. }
  assert (Hpush : forall x, exists s',
             fatal cfg (push hash_function_ cfg x s) s' /\
             layout_ok s' /\ errors_ s' <> 0 /\
             (canary_before_ s <> POISON ->
              has_error CANARY_BEFORE_CORRUPTED s' = true) /\
             (canary_after_ s <> POISON ->
              has_error CANARY_AFTER_CORRUPTED s' = true)).
  { intros x. rewrite push_decompose.
    destruct (size_ s =? capacity_ s) eqn:Efull.
    - apply Z.eqb_eq in Efull.
      destruct (allocate (allocator_ s) (wrap (size_ s * GROWTH_FACTOR_)))
        as [a [blk|]] eqn:Halloc.
      + rewrite (bind_Normal _ _ _ _ _ _ (expand_grows cfg s a blk Hl Efull Halloc)).
        destruct (layout_ok_expanded s a blk Hl Efull Halloc) as (Hl1 & _).
        destruct (tainted_check cfg (expanded s a blk) Hsafe Hl1)
          as (Hf & Hrest); [apply Hmove; first [reflexivity | intros _; apply lor_code_nonzero | trivial]|].
        eexists. split; [apply fatal_after, fatal_bind, Hf | exact Hrest].
      + rewrite (bind_Normal _ _ _ _ _ _ (expand_fails cfg s a Efull Halloc)).
        destruct (tainted_check cfg
                    (with_errors (Z.lor (errors_ s) (code BAD_ALLOC))
                       (with_allocator a s)) Hsafe Hl)
          as (Hf & Hrest); [apply Hmove; first [reflexivity | intros _; apply lor_code_nonzero | trivial]|].
        eexists. split; [apply fatal_after, fatal_bind, Hf | exact Hrest].
    - rewrite (bind_Normal (ret tt) _ s tt s []) by reflexivity.
      rewrite after_nil.
      destruct (tainted_check cfg s Hsafe Hl Ht) as (Hf & Hrest).
      eexists. split; [apply fatal_bind, Hf | exact Hrest]. }
  destruct o as [x|x| | |]; cbn [exec].
  - apply Hpush.
  - rewrite push_overloads_agree. apply Hpush.
  - destruct (Z.eq_dec (size_ s) 0) as [E0|E0].
    + rewrite pop_empty_eq by exact E0.
      destruct (tainted_check cfg
                  (with_errors (Z.lor (errors_ s) (code POP_FROM_EMPTY_STACK)) s)
                  Hsafe Hl) as (Hf & Hrest); [apply Hmove; first [reflexivity | intros _; apply lor_code_nonzero | trivial]|].
      eexists. split; [exact Hf | exact Hrest].
    + assert (Hpos : 0 < size_ s).
      { unfold layout_ok in Hl. destruct (buffer_ s); [lia | tauto]. }
      destruct (top_slot s Hl Hpos) as (x & Hx & _).
      rewrite (pop_nonempty_eq cfg s x E0 Hx).
      destruct (tainted_check cfg (popped hash_function_ x s) Hsafe
                  (layout_ok_popped x s Hl Hpos))
        as (Hf & Hrest); [apply Hmove; first [reflexivity | intros _; apply lor_code_nonzero | trivial]|].
      eexists. split; [exact Hf | exact Hrest].
  - set (s1 := if size_ s =? 0
               then with_errors (Z.lor (errors_ s) (code TOP_FROM_EMPTY_STACK)) s
               else s).
    assert (Hl1 : layout_ok s1) by (subst s1; destruct (size_ s =? 0); exact Hl).
    assert (Ht1 : tainted s1).
    { subst s1. destruct (size_ s =? 0);
        [apply Hmove; first [reflexivity | intros _; apply lor_code_nonzero]
        | exact Ht]. }
    assert (Eb : canary_before_ s1 = canary_before_ s)
      by (subst s1; destruct (size_ s =? 0); reflexivity).
    assert (Ea : canary_after_ s1 = canary_after_ s)
      by (subst s1; destruct (size_ s =? 0); reflexivity).
    destruct (tainted_check cfg s1 Hsafe Hl1 Ht1) as (Hf & Hrest).
    rewrite Eb, Ea in Hrest.
    eexists. split; [|exact Hrest].
    apply fatal_bind. rewrite top_eq. apply fatal_bind, Hf.
  - destruct (tainted_check cfg s Hsafe Hl Ht) as (Hf & Hrest).
    eexists. split; [|exact Hrest].
    apply fatal_bind. rewrite empty_eq. apply fatal_bind, Hf.
Qed.

(** X14: once a canary no longer holds [POISON], with the validation pass
    every operation fails: it throws after the report, with the error bit
    of that canary set ([CANARY_BEFORE_CORRUPTED] and
    [CANARY_AFTER_CORRUPTED] independently of each other), and so does
    every operation after it. *)
Theorem corrupted_canary_is_fatal cfg o s :
  safe_mode cfg = true -> layout_ok s ->
  canary_before_ s <> POISON \/ canary_after_ s <> POISON ->
  exists s',
    fatal cfg (exec hash_function_ cfg o s) s' /\
    (canary_before_ s <> POISON ->
     has_error CANARY_BEFORE_CORRUPTED s' = true) /\
    (canary_after_ s <> POISON ->
     has_error CANARY_AFTER_CORRUPTED s' = true) /\
    forall ops, all_fatal hash_function_ cfg ops s'.
Proof.
  intros Hsafe Hl Hc.
  destruct (tainted_step cfg o s Hsafe Hl (or_intror Hc))
    as (s' & Hf & Hl' & He' & Hb & Ha).
  exists s'. split; [exact Hf|]. split; [exact Hb|]. split; [exact Ha|].
  intros ops. apply poisoned_forever; assumption.
Qed.


(** ** The argument of [push] as a reference *)

Section Reference_calls.

Variable moved_from : T -> T.

Lemma push_ref_outside cfg x s :
  push_ref hash_function_ cfg (Outside x) s = push hash_function_ cfg x s.
Proof.
  unfold push_ref, push, bind, get.
  destruct ((if size_ s =? capacity_ s then expand cfg else ret tt) s)
    as [[] s1 tr1| | |]; cbn; try reflexivity.
  destruct (CHECK_VALIDITY hash_function_ cfg s1) as [[] s2 tr2| | |]; cbn;
    try reflexivity.
  unfold assert, bind, emit, write_slot, modify, ret, abort.
  destruct (assertions cfg), (size_ s2 <? capacity_ s2); cbn;
    try reflexivity;
    destruct (buffer_ s2) as [cells|]; cbn; try reflexivity;
    destruct ((0 <=? size_ s2) && (size_ s2 <? Z.of_nat (length cells)));
    cbn; reflexivity.
Qed.

Lemma push_rvalue_ref_outside cfg x s :
  push_rvalue_ref hash_function_ moved_from cfg (Outside x) s =
  push_rvalue hash_function_ cfg x s.
Proof.
  unfold push_rvalue_ref, push_rvalue, bind, get.
  destruct ((if size_ s =? capacity_ s then expand cfg else ret tt) s)
    as [[] s1 tr1| | |]; cbn; try reflexivity.
  destruct (CHECK_VALIDITY hash_function_ cfg s1) as [[] s2 tr2| | |]; cbn;
    try reflexivity.
  unfold assert, bind, emit, write_slot, modify, ret, abort.
  destruct (assertions cfg), (size_ s2 <? capacity_ s2); cbn;
    try reflexivity;
    destruct (buffer_ s2) as [cells|]; cbn; try reflexivity;
    destruct ((0 <=? size_ s2) && (size_ s2 <? Z.of_nat (length cells)));
    cbn; reflexivity.
Qed.

Lemma read_argument_eq freed (arg : argument T) s :
  read_argument freed arg s =
  match argument_value freed arg s with
  | Some x => Normal x s []
  | None => Undefined []
  end.
Proof.
  destruct arg as [x|i]; cbn; [reflexivity|].
  destruct freed; [reflexivity|]. reflexivity.
Qed.

Lemma push_ref_decompose cfg arg s :
  push_ref hash_function_ cfg arg s =
  bind (if size_ s =? capacity_ s then expand cfg else ret tt)
    (fun _ => push_ref_tail hash_function_ cfg (frees_block s) arg) s.
Proof.
  unfold push_ref. rewrite (bind_Normal get _ s s s []) by reflexivity.
  apply after_nil.
Qed.

Lemma push_ref_tail_eq cfg freed arg s :
  layout_ok s ->
  push_ref_tail hash_function_ cfg freed arg s =
  if safe_mode cfg && negb (detected hash_function_ s =? 0)
  then let s' := with_errors (detected hash_function_ s) s in
       Thrown s' (report cfg s')
  else if size_ s <? capacity_ s
       then match argument_value freed arg s with
            | Some x => Normal tt (pushed hash_function_ x s) []
            | None => Undefined []
            end
       else if assertions cfg then Aborted [Stderr Assertion_failed]
            else Undefined [].
Proof.
  intros Hl. unfold push_ref_tail. unfold bind at 1.
  rewrite (CHECK_VALIDITY_eq cfg s (layout_ok_checkable s Hl)).
  destruct (safe_mode cfg && negb (detected hash_function_ s =? 0));
    [reflexivity|].
  rewrite after_nil, (bind_Normal get _ s s s []), after_nil by reflexivity.
  unfold layout_ok in Hl.
  destruct (buffer_ s) as [cells|] eqn:Eb; [|tauto].
  destruct Hl as (Hlen & Hs & Hc).
  destruct (size_ s <? capacity_ s) eqn:Elt.
  - apply Z.ltb_lt in Elt.
    rewrite (bind_Normal (assert cfg true) _ s tt s [])
      by (unfold assert; destruct (assertions cfg); reflexivity).
    rewrite after_nil. unfold bind at 1. rewrite read_argument_eq.
    destruct (argument_value freed arg s) as [x|] eqn:Ev; [|reflexivity].
    rewrite after_nil.
    set (s1 := with_buffer (Some (<[Z.to_nat (size_ s) := x]> cells)) s).
    assert (Hwrite : write_slot (size_ s) x s = Normal tt s1 []).
    { unfold write_slot. rewrite Eb.
      destruct ((0 <=? size_ s) && (size_ s <? Z.of_nat (length cells))) eqn:E;
        [reflexivity|].
      apply andb_false_iff in E. destruct E as [E|E]; lia. }
    rewrite (bind_Normal _ _ _ _ _ _ Hwrite), after_nil.
    rewrite (bind_Normal (modify _) _ s1 tt
               (with_size (wrap (size_ s1 + 1)) s1) []) by reflexivity.
    rewrite after_nil. unfold bind at 1. rewrite read_argument_eq.
    assert (Ev' : argument_value freed arg
                    (with_size (wrap (size_ s1 + 1)) s1) = Some x).
    { destruct arg as [y|i]; [exact Ev|]. cbn in Ev |- *.
      destruct freed; [discriminate|].
      unfold slot in Ev |- *. rewrite Eb in Ev.
      cbn [buffer_ with_size with_buffer s1].
      destruct (0 <=? i); [|discriminate].
      destruct (decide (Z.to_nat (size_ s) = Z.to_nat i)) as [Ei|Ei].
      - rewrite <- Ei. apply list_lookup_insert_eq. lia.
      - rewrite list_lookup_insert_ne by exact Ei. exact Ev. }
    rewrite Ev'. cbn. unfold pushed. rewrite Eb. reflexivity.
  - apply Z.ltb_ge in Elt. unfold assert.
    destruct (assertions cfg); [reflexivity|].
    rewrite (bind_Normal (ret tt) _ s tt s []), after_nil by reflexivity.
    unfold bind at 1. rewrite read_argument_eq.
    destruct (argument_value freed arg s) as [x|]; [|reflexivity].
    rewrite after_nil. unfold bind, write_slot. rewrite Eb.
    destruct ((0 <=? size_ s) && (size_ s <? Z.of_nat (length cells))) eqn:E;
      [|reflexivity].
    apply andb_prop in E. destruct E as [_ E]. apply Z.ltb_lt in E. lia.
Qed.

Lemma push_rvalue_ref_decompose cfg arg s :
  push_rvalue_ref hash_function_ moved_from cfg arg s =
  bind (if size_ s =? capacity_ s then expand cfg else ret tt)
    (fun _ => push_rvalue_ref_tail hash_function_ moved_from cfg
                (frees_block s) arg) s.
Proof.
  unfold push_rvalue_ref. rewrite (bind_Normal get _ s s s []) by reflexivity.
  apply after_nil.
Qed.

Lemma argument_value_buffer freed (arg : argument T) s s' :
  buffer_ s' = buffer_ s ->
  argument_value freed arg s' = argument_value freed arg s.
Proof.
  intros E. destruct arg as [x|i]; [reflexivity|].
  cbn. unfold slot. rewrite E. reflexivity.
Qed.

Lemma push_rvalue_ref_tail_eq cfg freed arg s :
  layout_ok s ->
  push_rvalue_ref_tail hash_function_ moved_from cfg freed arg s =
  if safe_mode cfg && negb (detected hash_function_ s =? 0)
  then let s' := with_errors (detected hash_function_ s) s in
       Thrown s' (report cfg s')
  else if size_ s <? capacity_ s
       then match argument_value freed arg s with
            | Some x =>
                Normal tt
                  (moved_out moved_from arg x (pushed hash_function_ x s)) []
            | None => Undefined []
            end
       else if assertions cfg then Aborted [Stderr Assertion_failed]
            else Undefined [].
Proof.
  intros Hl. unfold push_rvalue_ref_tail. unfold bind at 1.
  rewrite (CHECK_VALIDITY_eq cfg s (layout_ok_checkable s Hl)).
  destruct (safe_mode cfg && negb (detected hash_function_ s =? 0));
    [reflexivity|].
  rewrite after_nil, (bind_Normal get _ s s s []), after_nil by reflexivity.
  unfold layout_ok in Hl.
  destruct (buffer_ s) as [cells|] eqn:Eb; [|tauto].
  destruct Hl as (Hlen & Hs & Hc).
  destruct (size_ s <? capacity_ s) eqn:Elt.
  - apply Z.ltb_lt in Elt.
    rewrite (bind_Normal (assert cfg true) _ s tt s [])
      by (unfold assert; destruct (assertions cfg); reflexivity).
    rewrite after_nil. unfold bind at 1. rewrite read_argument_eq.
    destruct (argument_value freed arg s) as [x|] eqn:Ev; [|reflexivity].
    rewrite after_nil.
    set (s1 := with_control_sum (wrap (control_sum_ s + hash_function_ x)) s).
    rewrite (bind_Normal (modify _) _ s tt s1 []) by reflexivity.
    rewrite after_nil, (bind_Normal get _ s1 s1 s1 []), after_nil
      by reflexivity.
    unfold bind at 1. rewrite read_argument_eq.
    rewrite (argument_value_buffer freed arg s s1 eq_refl), Ev, after_nil.
    set (s2 := with_buffer (Some (<[Z.to_nat (size_ s) := x]> cells)) s1).
    assert (Hwrite : write_slot (size_ s1) x s1 = Normal tt s2 []).
    { unfold write_slot. cbn [buffer_ size_ s1 with_control_sum].
      rewrite Eb.
      destruct ((0 <=? size_ s) && (size_ s <? Z.of_nat (length cells))) eqn:E;
        [reflexivity|].
      apply andb_false_iff in E. destruct E as [E|E]; lia. }
    rewrite (bind_Normal _ _ _ _ _ _ Hwrite), after_nil.
    destruct arg as [y|i].
    + rewrite (bind_Normal (leave_moved_from moved_from (Outside y) x) _
                 s2 tt s2 []) by reflexivity.
      rewrite after_nil. unfold modify, moved_out, pushed. rewrite Eb.
      reflexivity.
    + cbn in Ev. destruct freed; [discriminate|].
      unfold slot in Ev. rewrite Eb in Ev.
      destruct (0 <=? i) eqn:Ei; [|discriminate].
      apply lookup_lt_Some in Ev.
      set (s3 := with_buffer
                   (Some (<[Z.to_nat i := moved_from x]>
                            (<[Z.to_nat (size_ s) := x]> cells))) s2).
      assert (Hleave : leave_moved_from moved_from (Element i) x s2 =
                       Normal tt s3 []).
      { unfold leave_moved_from, write_slot.
        cbn [buffer_ s2 s1 with_buffer with_control_sum].
        rewrite length_insert, Ei.
        destruct (i <? Z.of_nat (length cells)) eqn:E; [reflexivity|].
        apply Z.ltb_ge in E. lia. }
      rewrite (bind_Normal _ _ _ _ _ _ Hleave), after_nil.
      unfold modify, moved_out, pushed. rewrite Eb. reflexivity.
  - apply Z.ltb_ge in Elt. unfold assert.
    destruct (assertions cfg); [reflexivity|].
    rewrite (bind_Normal (ret tt) _ s tt s []), after_nil by reflexivity.
    unfold bind at 1. rewrite read_argument_eq.
    destruct (argument_value freed arg s) as [x|] eqn:Ev; [|reflexivity].
    rewrite after_nil.
    set (s1 := with_control_sum (wrap (control_sum_ s + hash_function_ x)) s).
    rewrite (bind_Normal (modify _) _ s tt s1 []) by reflexivity.
    rewrite after_nil, (bind_Normal get _ s1 s1 s1 []), after_nil
      by reflexivity.
    unfold bind at 1. rewrite read_argument_eq.
    rewrite (argument_value_buffer freed arg s s1 eq_refl), Ev, after_nil.
    unfold bind, write_slot. cbn [buffer_ size_ s1 with_control_sum].
    rewrite Eb.
    destruct ((0 <=? size_ s) && (size_ s <? Z.of_nat (length cells))) eqn:E;
      [|reflexivity].
    apply andb_prop in E. destruct E as [_ E]. apply Z.ltb_lt in E. lia.
Qed.

(** *** A call that does not free the block the argument is in *)

Lemma frees_block_false_cases s :
  frees_block s = false ->
  (size_ s =? capacity_ s) = false \/
  exists a, size_ s = capacity_ s /\
            allocate (allocator_ s) (wrap (size_ s * GROWTH_FACTOR_)) =
              (a, None).
Proof.
  unfold frees_block. destruct (size_ s =? capacity_ s) eqn:Efull;
    [|left; reflexivity].
  apply Z.eqb_eq in Efull.
  destruct (allocate (allocator_ s) (wrap (size_ s * GROWTH_FACTOR_)))
    as [a [blk|]]; [discriminate|].
  intros _. right. exists a. split; [exact Efull | reflexivity].
Qed.

Lemma frees_block_true_cases s :
  frees_block s = true ->
  exists a blk, size_ s = capacity_ s /\
                allocate (allocator_ s) (wrap (size_ s * GROWTH_FACTOR_)) =
                  (a, Some blk).
Proof.
  unfold frees_block. destruct (size_ s =? capacity_ s) eqn:Efull;
    [|discriminate].
  apply Z.eqb_eq in Efull.
  destruct (allocate (allocator_ s) (wrap (size_ s * GROWTH_FACTOR_)))
    as [a [blk|]]; [|discriminate].
  intros _. exists a, blk. split; [exact Efull | reflexivity].
Qed.

Lemma push_ref_unfreed cfg arg x s :
  layout_ok s -> frees_block s = false ->
  argument_value false arg s = Some x ->
  push_ref hash_function_ cfg arg s = push hash_function_ cfg x s.
Proof.
  intros Hl Hf Hv. rewrite push_ref_decompose, push_decompose, Hf.
  destruct (frees_block_false_cases s Hf) as [Efull|(a & Efull & Halloc)].
  - rewrite Efull.
    rewrite !(bind_Normal (ret tt) _ s tt s []) by reflexivity. f_equal.
    rewrite push_ref_tail_eq, push_tail_eq by exact Hl.
    rewrite Hv. reflexivity.
  - rewrite (proj2 (Z.eqb_eq _ _) Efull).
    rewrite !(bind_Normal _ _ _ _ _ _ (expand_fails cfg s a Efull Halloc)).
    f_equal. rewrite push_ref_tail_eq, push_tail_eq by exact Hl.
    rewrite (argument_value_buffer false arg s
               (with_errors _ (with_allocator a s)) eq_refl), Hv.
    reflexivity.
Qed.

Lemma moved_out_same i x s :
  layout_ok s -> size_ s < capacity_ s -> slot s i = Some x ->
  moved_from x = x ->
  moved_out moved_from (Element i) x (pushed hash_function_ x s) =
  pushed hash_function_ x s.
Proof.
  intros Hl Hlt Hx Hm. unfold layout_ok in Hl. unfold slot in Hx.
  destruct (buffer_ s) as [cells|] eqn:Eb; [|tauto].
  destruct (0 <=? i); [|discriminate].
  unfold moved_out, pushed. rewrite Eb, Hm.
  cbn [buffer_ with_control_sum with_size with_buffer default from_option id].
  rewrite list_insert_id; [reflexivity|].
  destruct (decide (Z.to_nat (size_ s) = Z.to_nat i)) as [Ei|Ei].
  - rewrite <- Ei. apply list_lookup_insert_eq. lia.
  - rewrite list_lookup_insert_ne by exact Ei. exact Hx.
Qed.

Lemma push_rvalue_ref_unfreed cfg arg x s :
  layout_ok s -> frees_block s = false ->
  argument_value false arg s = Some x ->
  arg = Outside x \/ moved_from x = x ->
  push_rvalue_ref hash_function_ moved_from cfg arg s =
  push hash_function_ cfg x s.
Proof.
  intros Hl Hf Hv Hm.
  assert (Htail : forall s0,
            layout_ok s0 -> buffer_ s0 = buffer_ s ->
            push_rvalue_ref_tail hash_function_ moved_from cfg false arg s0 =
            push_tail hash_function_ cfg x s0).
  { intros s0 Hl0 Eb.
    rewrite push_rvalue_ref_tail_eq, push_tail_eq by exact Hl0.
    rewrite (argument_value_buffer false arg s s0 Eb), Hv.
    destruct (safe_mode cfg && negb (detected hash_function_ s0 =? 0));
      [reflexivity|].
    destruct (size_ s0 <? capacity_ s0) eqn:Elt; [|reflexivity].
    apply Z.ltb_lt in Elt. f_equal.
    destruct arg as [y|i]; [reflexivity|].
    destruct Hm as [Hm|Hm]; [discriminate|].
    apply moved_out_same; try assumption.
    cbn in Hv. unfold slot in Hv |- *. rewrite Eb. exact Hv. }
  rewrite push_rvalue_ref_decompose, push_decompose, Hf.
  destruct (frees_block_false_cases s Hf) as [Efull|(a & Efull & Halloc)].
  - rewrite Efull.
    rewrite !(bind_Normal (ret tt) _ s tt s []) by reflexivity. f_equal.
    apply Htail; [exact Hl | reflexivity].
  - rewrite (proj2 (Z.eqb_eq _ _) Efull).
    rewrite !(bind_Normal _ _ _ _ _ _ (expand_fails cfg s a Efull Halloc)).
    f_equal. apply Htail; [exact Hl | reflexivity].
Qed.

(** *** A call that frees the block the argument is in *)

Lemma push_ref_dangling cfg i s a (blk : list T) :
  layout_ok s -> size_ s = capacity_ s ->
  allocate (allocator_ s) (wrap (size_ s * GROWTH_FACTOR_)) = (a, Some blk) ->
  push_ref hash_function_ cfg (Element i) s =
  after [Ev_expand (capacity_ s) (wrap (size_ s * GROWTH_FACTOR_))]
    (let s1 := expanded s a blk in
     if safe_mode cfg && negb (detected hash_function_ s1 =? 0)
     then let s' := with_errors (detected hash_function_ s1) s1 in
          Thrown s' (report cfg s')
     else if size_ s1 <? capacity_ s1 then Undefined []
          else if assertions cfg then Aborted [Stderr Assertion_failed]
               else Undefined []).
Proof.
  intros Hl Efull Halloc. rewrite push_ref_decompose.
  assert (Hf : frees_block s = true).
  { unfold frees_block. rewrite Halloc, (proj2 (Z.eqb_eq _ _) Efull).
    reflexivity. }
  rewrite Hf, (proj2 (Z.eqb_eq _ _) Efull).
  rewrite (bind_Normal _ _ _ _ _ _ (expand_grows cfg s a blk Hl Efull Halloc)).
  f_equal. rewrite push_ref_tail_eq
    by apply (layout_ok_expanded s a blk Hl Efull Halloc).
  reflexivity.
Qed.

Lemma push_rvalue_ref_dangling cfg i s a (blk : list T) :
  layout_ok s -> size_ s = capacity_ s ->
  allocate (allocator_ s) (wrap (size_ s * GROWTH_FACTOR_)) = (a, Some blk) ->
  push_rvalue_ref hash_function_ moved_from cfg (Element i) s =
  after [Ev_expand (capacity_ s) (wrap (size_ s * GROWTH_FACTOR_))]
    (let s1 := expanded s a blk in
     if safe_mode cfg && negb (detected hash_function_ s1 =? 0)
     then let s' := with_errors (detected hash_function_ s1) s1 in
          Thrown s' (report cfg s')
     else if size_ s1 <? capacity_ s1 then Undefined []
          else if assertions cfg then Aborted [Stderr Assertion_failed]
               else Undefined []).
Proof.
  intros Hl Efull Halloc. rewrite push_rvalue_ref_decompose.
  assert (Hf : frees_block s = true).
  { unfold frees_block. rewrite Halloc, (proj2 (Z.eqb_eq _ _) Efull).
    reflexivity. }
  rewrite Hf, (proj2 (Z.eqb_eq _ _) Efull).
  rewrite (bind_Normal _ _ _ _ _ _ (expand_grows cfg s a blk Hl Efull Halloc)).
  f_equal. rewrite push_rvalue_ref_tail_eq
    by apply (layout_ok_expanded s a blk Hl Efull Halloc).
  reflexivity.
Qed.

Lemma dangling_never_returns cfg (o : result unit) s1 tr tr0 s2 :
  o = after tr0
        (if safe_mode cfg && negb (detected hash_function_ s2 =? 0)
         then let s' := with_errors (detected hash_function_ s2) s2 in
              Thrown s' (report cfg s')
         else if size_ s2 <? capacity_ s2 then Undefined []
              else if assertions cfg then Aborted [Stderr Assertion_failed]
                   else Undefined []) ->
  o <> Normal tt s1 tr.
Proof.
  intros ->.
  destruct (safe_mode cfg && negb (detected hash_function_ s2 =? 0));
    [discriminate|].
  destruct (size_ s2 <? capacity_ s2); [discriminate|].
  destruct (assertions cfg); discriminate.
Qed.

Lemma returned_unfreed cfg arg x s s1 tr :
  layout_ok s -> argument_value false arg s = Some x ->
  push_ref hash_function_ cfg arg s = Normal tt s1 tr \/
  push_rvalue_ref hash_function_ moved_from cfg arg s = Normal tt s1 tr ->
  forall i, arg = Element i -> frees_block s = false.
Proof.
  intros Hl Hv Hret i ->.
  destruct (frees_block s) eqn:Hf; [exfalso|reflexivity].
  destruct (frees_block_true_cases s Hf) as (a & blk & Efull & Halloc).
  destruct Hret as [E|E]; revert E.
  - apply (dangling_never_returns cfg _ s1 tr
             [Ev_expand (capacity_ s) (wrap (size_ s * GROWTH_FACTOR_))]
             (expanded s a blk)).
    apply push_ref_dangling; assumption.
  - apply (dangling_never_returns cfg _ s1 tr
             [Ev_expand (capacity_ s) (wrap (size_ s * GROWTH_FACTOR_))]
             (expanded s a blk)).
    apply push_rvalue_ref_dangling; assumption.
Qed.

Lemma push_ref_returned cfg arg x s s1 tr :
  layout_ok s -> argument_value false arg s = Some x ->
  push_ref hash_function_ cfg arg s = Normal tt s1 tr \/
  (push_rvalue_ref hash_function_ moved_from cfg arg s = Normal tt s1 tr /\
   (arg = Outside x \/ moved_from x = x)) ->
  push hash_function_ cfg x s = Normal tt s1 tr.
Proof.
  intros Hl Hv Hret. destruct arg as [y|i].
  - cbn in Hv. injection Hv as ->. destruct Hret as [E|[E _]].
    + rewrite <- push_ref_outside. exact E.
    + rewrite <- push_overloads_agree, <- push_rvalue_ref_outside. exact E.
  - assert (Hret' :
      push_ref hash_function_ cfg (Element i) s = Normal tt s1 tr \/
      push_rvalue_ref hash_function_ moved_from cfg (Element i) s =
        Normal tt s1 tr)
      by (destruct Hret as [E|[E _]]; [left|right]; exact E).
    pose proof (returned_unfreed cfg (Element i) x s s1 tr Hl Hv Hret' i
                  eq_refl) as Hf.
    destruct Hret as [E|[E Hm]].
    + rewrite <- (push_ref_unfreed cfg (Element i) x s Hl Hf Hv). exact E.
    + rewrite <- (push_rvalue_ref_unfreed cfg (Element i) x s Hl Hf Hv Hm).
      exact E.
Qed.

(** X5: last in, first out. [push] is called with a reference to an object
    that holds [x]: an object outside the stack, or a slot of its block, as
    in [s.push(s.top())]. When the call returns on an uncorrupted stack
    without errors, whether it had to grow the block or not, the stack is
    again uncorrupted and without errors, [x] is on top of the elements that
    were there, and [top] returns it; and if the reference was to a slot,
    the call did not give the block of that slot back to the allocator. The
    same holds of the overload that moves, when the object moved from is
    outside the stack or is left with its value. *)
Theorem push_then_top cfg arg x s s1 tr :
  uncorrupted hash_function_ s -> errors_ s = 0 ->
  argument_value false arg s = Some x ->
  push_ref hash_function_ cfg arg s = Normal tt s1 tr \/
  (push_rvalue_ref hash_function_ moved_from cfg arg s = Normal tt s1 tr /\
   (arg = Outside x \/ moved_from x = x)) ->
  live s1 = live s ++ [x] /\
  top hash_function_ cfg s1 = Normal x s1 [] /\
  uncorrupted hash_function_ s1 /\ errors_ s1 = 0 /\
  (forall i, arg = Element i -> frees_block s = false).
Proof.
  intros Hu He Hv Hret. pose proof Hu as (Hl & _).
  pose proof (push_ref_returned cfg arg x s s1 tr Hl Hv Hret) as Hpush.
  destruct (push_returned cfg x s s1 tr Hu He Hpush) as (Hu1 & He1 & Hlive).
  split; [exact Hlive|]. split; [|split; [exact Hu1|split; [exact He1|]]].
  - destruct (live_last_slot s1 _ x (proj1 Hu1) Hlive) as (Hpos & Hx).
    apply top_ok; assumption.
  - apply (returned_unfreed cfg arg x s s1 tr Hl Hv).
    destruct Hret as [E|[E _]]; [left|right]; exact E.
Qed.

(** X16: [push] reads its argument after the growth step. On a full,
    uncorrupted stack without errors whose growth step gets its block, a
    call of [push] with a reference to an element of the stack itself, such
    as [s.push(s.top())], runs the growth step, which copies the elements
    and gives the old block back to the allocator, passes the validation
    pass and the assertion, and then reads the element through the
    reference, out of the block that was freed: the call leaves the defined
    behaviour of C++, in every build configuration and for both overloads. *)
Theorem push_of_own_element_at_growth cfg i s a (blk : list T) :
  uncorrupted hash_function_ s -> errors_ s = 0 ->
  size_ s = capacity_ s -> 0 < capacity_ s ->
  allocate (allocator_ s) (wrap (size_ s * GROWTH_FACTOR_)) = (a, Some blk) ->
  frees_block s = true /\
  push_ref hash_function_ cfg (Element i) s =
    Undefined [Ev_expand (capacity_ s) (2 * capacity_ s)] /\
  push_rvalue_ref hash_function_ moved_from cfg (Element i) s =
    Undefined [Ev_expand (capacity_ s) (2 * capacity_ s)].
Proof.
  intros Hu He Efull Hpos Halloc. pose proof Hu as (Hl & _).
  destruct (layout_ok_expanded s a blk Hl Efull Halloc) as (Hl1 & Hcap & _).
  destruct (uncorrupted_expanded s a blk Hu Efull Halloc)
    as (_ & Hb1 & Ha1 & Hc1).
  assert (Hd : detected hash_function_ (expanded s a blk) = 0)
    by (apply detected_clean; assumption).
  assert (Hroom : (size_ (expanded s a blk) <? capacity_ (expanded s a blk))
                  = true).
  { apply Z.ltb_lt. rewrite Hcap.
    change (size_ (expanded s a blk)) with (size_ s). lia. }
  assert (Hnew : wrap (size_ s * GROWTH_FACTOR_) = 2 * capacity_ s)
    by exact Hcap.
  split; [|split].
  - unfold frees_block. rewrite Halloc, (proj2 (Z.eqb_eq _ _) Efull).
    reflexivity.
  - rewrite (push_ref_dangling cfg i s a blk Hl Efull Halloc).
    cbv zeta. rewrite Hd, Hroom, andb_false_r, Hnew. reflexivity.
  - rewrite (push_rvalue_ref_dangling cfg i s a blk Hl Efull Halloc).
    cbv zeta. rewrite Hd, Hroom, andb_false_r, Hnew. reflexivity.
Qed.

(** *** Calls that pass objects outside the stack *)

Lemma exec_call_by_value cfg c o s :
  by_value c = Some o ->
  exec_call hash_function_ moved_from cfg c s = exec hash_function_ cfg o s.
Proof.
  destruct c as [[x|i]|[x|i]| | |]; cbn [by_value]; intros [= <-];
    cbn [exec_call exec].
  - apply push_ref_outside.
  - apply push_rvalue_ref_outside.
  - reflexivity.
  - reflexivity.
  - reflexivity.
Qed.

(** X9: the layout of the object with the validation pass, for calls whose
    arguments are objects outside the stack. From an object whose block has
    [capacity_ > 0] slots and whose [size_] is within it, whatever happened
    to its elements, checksum, canaries or error bits, every call of such a
    sequence returns or throws: none fails an assertion or indexes a slot
    outside the block; the block keeps matching [capacity_] and [size_], the
    capacity never shrinks, and the canaries are never written. The
    elements are values that can be assigned to the slots of a block as the
    allocator hands it out. *)
Theorem safe_mode_keeps_layout cfg calls : forall s,
  safe_mode cfg = true -> layout_ok s -> 0 < capacity_ s ->
  Forall (fun c => is_Some (by_value c)) calls ->
  exists s',
    run_calls hash_function_ moved_from cfg calls s = Some s' /\
    layout_ok s' /\ capacity_ s <= capacity_ s' /\
    canary_before_ s' = canary_before_ s /\
    canary_after_ s' = canary_after_ s.
Proof.
  induction calls as [|c rest IH]; intros s Hsafe Hl Hpos Hout;
    cbn [run_calls].
  - exists s. repeat split; [exact Hl | lia].
  - apply Forall_cons in Hout. destruct Hout as [[o Ho] Hrest].
    rewrite (exec_call_by_value cfg c o s Ho).
    destruct (exec_progress cfg o s Hsafe Hl Hpos) as (s1 & E & Hpos1).
    rewrite E.
    destruct (exec_layout cfg o s s1 Hl E) as (Hl1 & Hc1 & Hb1 & Ha1).
    destruct (IH s1 Hsafe Hl1 Hpos1 Hrest)
      as (s' & Hrun & Hl' & Hc' & Hb' & Ha').
    exists s'. split; [exact Hrun|]. split; [exact Hl'|]. split; [lia|].
    split; congruence.
Qed.


End Reference_calls.


End Properties.

(** * The model at work *)

#[export] Instance scripted_laws : AllocatorLaws (list bool) Z.
Proof.
  split; intros a a' n blk; cbn;
    destruct a as [|[] rest]; try discriminate;
    destruct ((0 <=? n) && (n <? 2 ^ 63)) eqn:E; try discriminate;
    apply andb_prop in E; destruct E as [E1 E2];
    apply Z.leb_le in E1; apply Z.ltb_lt in E2; intros [= _ <-];
    rewrite ?length_replicate; lia.
Qed.

(** Capacity 4, two pushes: size 2, no error, nothing written. *)
Example two_pushes :
  construct_push_all example_hash (source_config true) 4 [] [107; 107] =
  Normal tt
    {| canary_before_ := POISON; control_sum_ := 6648; capacity_ := 4;
       size_ := 2; buffer_ := Some [107; 107; 0; 0]; allocator_ := [];
       errors_ := 0; canary_after_ := POISON |} [].
Proof. reflexivity. Qed.

(** Then two pops empty the stack without error, and the third ends in the
    exception, with [POP_FROM_EMPTY_STACK] set and reported. *)
Example third_pop_is_fatal :
  let s2 :=
    {| canary_before_ := POISON; control_sum_ := 6648; capacity_ := 4;
       size_ := 2; buffer_ := Some [107; 107; 0; 0]; allocator_ := [];
       errors_ := 0; canary_after_ := POISON |} in
  let s0 := with_size 0 (with_control_sum 0 s2) in
  run example_hash (source_config true) [Pop; Pop] s2 = Some s0 /\
  pop example_hash (source_config true) s0 =
  Thrown (with_errors 2 s0)
    [Stderr Errors_found; Stderr (Error_line POP_FROM_EMPTY_STACK);
     Stderr Dump_open; Stderr (Dump_buffer 4);
     Stderr (Dump_slot 0 107); Stderr (Dump_slot 1 107);
     Stderr (Dump_slot 2 0); Stderr (Dump_slot 3 0);
     Stderr (Dump_close 0)].
Proof. split; reflexivity. Qed.

(** Capacity 2, three pushes: one growth step to capacity 4, the elements
    in order, no error. *)
Example third_push_grows :
  construct_push_all example_hash (source_config true) 2 [] [1; 2; 3] =
  Normal tt
    {| canary_before_ := POISON; control_sum_ := 207; capacity_ := 4;
       size_ := 3; buffer_ := Some [1; 2; 3; 0]; allocator_ := [];
       errors_ := 0; canary_after_ := POISON |} [Ev_expand 2 4].
Proof. reflexivity. Qed.

Lemma two_of_four_uncorrupted : uncorrupted example_hash two_of_four.
Proof. split; [cbn; lia|]. repeat split. Qed.

Lemma checksum_size_invariant_witness :
  uncorrupted example_hash two_of_four /\
  ((forall s',
      run example_hash (source_config true)
        [Push 30; Pop; Pop; Push_rvalue 7; Top] two_of_four = Some s' ->
      control_sum_ s' = wrap (hash_total example_hash (live s')) /\
      size_ s' = Z.of_nat (length (live s')) /\
      (errors_ s' = 0 ->
       live s' =
       model_run [Push 30; Pop; Pop; Push_rvalue 7; Top] (live two_of_four))) /\
   (safe_mode (source_config true) = true -> 0 < capacity_ two_of_four ->
    exists s',
      run example_hash (source_config true)
        [Push 30; Pop; Pop; Push_rvalue 7; Top] two_of_four = Some s')).
Proof.
  split; [exact two_of_four_uncorrupted|].
  apply (checksum_size_invariant example_hash (source_config true)
           [Push 30; Pop; Pop; Push_rvalue 7; Top] two_of_four).
  exact two_of_four_uncorrupted.
Defined.

Lemma pop_empty_poisons_witness :
  safe_mode (source_config true) = true /\ layout_ok fresh_two /\
  size_ fresh_two = 0 /\
  exists s',
    pop example_hash (source_config true) fresh_two =
      Thrown s' (report (source_config true) s') /\
    has_error POP_FROM_EMPTY_STACK s' = true /\
    s' = with_errors (errors_ s') fresh_two /\
    forall ops, all_fatal example_hash (source_config true) ops s'.
Proof.
  assert (Hl : layout_ok fresh_two) by (cbn; lia).
  split; [reflexivity|]. split; [exact Hl|]. split; [reflexivity|].
  apply (pop_empty_poisons example_hash (source_config true) fresh_two);
    [reflexivity | exact Hl | reflexivity].
Defined.

Lemma construct_allocation_failure_witness :
  allocate [false] 4 = ([], None) /\
  construct example_hash (source_config true) 4 [false] =
  Thrown (with_errors (code BAD_ALLOC) (initial 4 []))
    [Ev_bad_alloc 4; Stderr Errors_found; Stderr (Error_line BAD_ALLOC)].
Proof.
  split; [reflexivity|].
  apply (construct_allocation_failure example_hash (source_config true)
           4 [false] []).
  reflexivity.
Defined.

Lemma top_empty_is_fatal_witness :
  safe_mode (source_config true) = true /\ checkable fresh_two /\
  size_ fresh_two = 0 /\
  exists s',
    top example_hash (source_config true) fresh_two =
      Thrown s' (report (source_config true) s') /\
    has_error TOP_FROM_EMPTY_STACK s' = true /\
    s' = with_errors (errors_ s') fresh_two /\
    forall x s'' tr,
      top example_hash (source_config true) fresh_two <> Normal x s'' tr.
Proof.
  assert (Hc : checkable fresh_two) by (cbn; lia).
  split; [reflexivity|]. split; [exact Hc|]. split; [reflexivity|].
  apply (top_empty_is_fatal example_hash (source_config true) fresh_two);
    [reflexivity | exact Hc | reflexivity].
Defined.

Lemma expand_allocation_failure_witness :
  size_ full_two = capacity_ full_two /\
  allocate (allocator_ full_two) (wrap (size_ full_two * GROWTH_FACTOR_)) =
    ([], None) /\
  exists s',
    expand (source_config true) full_two = Normal tt s' [Ev_bad_alloc 4] /\
    has_error BAD_ALLOC s' = true /\
    bits_kept (errors_ full_two) (errors_ s') /\
    capacity_ s' = 2 /\ buffer_ s' = Some [10; 20] /\ size_ s' = 2 /\
    control_sum_ s' = 944 /\ live s' = [10; 20] /\
    canary_before_ s' = POISON /\ canary_after_ s' = POISON.
Proof.
  split; [reflexivity|]. split; [reflexivity|].
  apply (expand_allocation_failure (source_config true) full_two []);
    reflexivity.
Defined.

Lemma errors_are_sticky_witness :
  run example_hash (source_config true) [Push 1; Pop; Top; Empty]
    (with_errors 2 damaged_two) = Some damaged_two /\
  (forall i, Z.testbit (errors_ (with_errors 2 damaged_two)) i = true ->
             Z.testbit (errors_ damaged_two) i = true) /\
  (forall e, has_error e (with_errors 2 damaged_two) = true ->
             has_error e damaged_two = true).
Proof.
  split; [reflexivity|].
  apply (errors_are_sticky example_hash (source_config true)
           [Push 1; Pop; Top; Empty] (with_errors 2 damaged_two)).
  reflexivity.
Defined.

Lemma print_errors_spec_witness :
  (enable_dump (source_config true) = true -> dumpable damaged_two) /\
  print_errors (source_config true) damaged_two =
  Thrown damaged_two
    [Stderr Errors_found;
     Stderr (Error_line POP_FROM_EMPTY_STACK);
     Stderr (Error_line CANARY_AFTER_CORRUPTED);
     Stderr (Error_line TOP_FROM_EMPTY_STACK);
     Stderr Dump_open; Stderr (Dump_buffer 2);
     Stderr (Dump_slot 0 0); Stderr (Dump_slot 1 0);
     Stderr (Dump_close 0)].
Proof.
  assert (Hd : enable_dump (source_config true) = true -> dumpable damaged_two)
    by (intros _; cbn; lia).
  split; [exact Hd|].
  exact (print_errors_spec (source_config true) damaged_two Hd).
Defined.

Lemma push_pop_restores_witness :
  uncorrupted example_hash two_of_four /\ errors_ two_of_four = 0 /\
  size_ two_of_four < capacity_ two_of_four /\
  exists s1 s2,
    push example_hash (source_config true) 30 two_of_four = Normal tt s1 [] /\
    push_rvalue example_hash (source_config true) 30 two_of_four =
      Normal tt s1 [] /\
    pop example_hash (source_config true) s1 = Normal tt s2 [] /\
    size_ s2 = size_ two_of_four /\
    control_sum_ s2 = control_sum_ two_of_four /\
    live s2 = live two_of_four /\ errors_ s2 = 0.
Proof.
  split; [exact two_of_four_uncorrupted|]. split; [reflexivity|].
  split; [cbn; lia|].
  apply (push_pop_restores example_hash (source_config true) 30 two_of_four);
    [exact two_of_four_uncorrupted | reflexivity | cbn; lia].
Defined.

(** ** Where the specification and the code part *)

(** C3: growth does not make room in a stack of capacity 0. One push into
    a fresh stack of capacity 0 ([k = 1 > c = 0]), with no allocation
    failing, runs the growth step, which takes the capacity from 0 slots to
    [0 * 2 = 0] slots, and then fails the assertion [size_ < capacity_] of
    [push] (or, under [NDEBUG], writes [buffer_[0]] outside the block): the
    push never returns and the value is never a live element. *)
Lemma zero_capacity_never_grows :
  0 < Z.of_nat (length [5]) /\
  (forall asserts n,
     ~ In (Ev_bad_alloc n)
         (trace_of (construct_push_all example_hash (source_config asserts)
                      0 [] [5]))) /\
  construct_push_all example_hash (source_config true) 0 [] [5] =
    Aborted [Ev_expand 0 0; Stderr Assertion_failed] /\
  construct_push_all example_hash (source_config false) 0 [] [5] =
    Undefined [Ev_expand 0 0] /\
  forall asserts,
    ~ exists s' tr,
        construct_push_all example_hash (source_config asserts) 0 [] [5] =
          Normal tt s' tr /\ live s' = [5].
Proof.
  split; [cbn; lia|]. split.
  { intros [] n; vm_compute; intros Hin;
      repeat (destruct Hin as [Hin|Hin]; [discriminate|]); destruct Hin. }
  split; [reflexivity|]. split; [reflexivity|].
  intros [] (s' & tr & E & _); vm_compute in E; discriminate.
Qed.

(** C4 in the source as it is: the allocation of the constructor fails and
    the constructor itself ends in the exception of its validation pass. *)
Lemma construct_failure_is_immediate :
  allocate [false] 4 = ([], None) /\
  forall asserts,
    ~ exists s tr,
        construct example_hash (source_config asserts) 4 [false] =
          Normal tt s tr.
Proof.
  split; [reflexivity|].
  intros [] (s & tr & E); vm_compute in E; discriminate.
Qed.

(** ** The further properties at work *)

Lemma damaged_two_layout : layout_ok damaged_two.
Proof. cbn. lia. Qed.

Lemma validation_verdict_witness :
  checkable damaged_two /\
  exists s',
    check_validity example_hash (source_config true) damaged_two =
      Thrown s' (report (source_config true) s') /\
    s' = with_errors (errors_ s') damaged_two /\
    forall e, has_error e s' =
              has_error e damaged_two || finds example_hash damaged_two e.
Proof.
  assert (Hc : checkable damaged_two) by (cbn; lia).
  split; [exact Hc|].
  exact (validation_verdict example_hash (source_config true) damaged_two Hc).
Defined.

Lemma overwrite_detection_witness :
  uncorrupted example_hash two_of_four /\ errors_ two_of_four = 0 /\
  Z.of_nat 0 < size_ two_of_four /\
  default [] (buffer_ two_of_four) !! 0%nat = Some 10 /\
  check_validity example_hash (source_config true)
    (overwritten 0 11 two_of_four) =
  Thrown (with_errors (code WRONG_CONTROL_SUM) (overwritten 0 11 two_of_four))
    (report (source_config true)
       (with_errors (code WRONG_CONTROL_SUM) (overwritten 0 11 two_of_four))).
Proof.
  split; [exact two_of_four_uncorrupted|]. split; [reflexivity|].
  split; [cbn; lia|]. split; [reflexivity|].
  apply (overwrite_detection example_hash (source_config true) two_of_four
           0%nat 10 11);
    [exact two_of_four_uncorrupted | reflexivity | cbn; lia | reflexivity].
Defined.

Lemma reordering_undetected_witness :
  uncorrupted example_hash two_of_four /\ errors_ two_of_four = 0 /\
  Z.of_nat (length [20; 10; 0; 0]) = capacity_ two_of_four /\
  take (Z.to_nat (size_ two_of_four)) [20; 10; 0; 0] ≡ₚ live two_of_four /\
  live (with_buffer (Some [20; 10; 0; 0]) two_of_four) ≡ₚ live two_of_four /\
  check_validity example_hash (source_config true)
    (with_buffer (Some [20; 10; 0; 0]) two_of_four) =
  Normal tt (with_buffer (Some [20; 10; 0; 0]) two_of_four) [].
Proof.
  assert (Hp : take (Z.to_nat (size_ two_of_four)) [20; 10; 0; 0]
               ≡ₚ live two_of_four) by apply perm_swap.
  split; [exact two_of_four_uncorrupted|]. split; [reflexivity|].
  split; [reflexivity|]. split; [exact Hp|].
  apply (reordering_undetected example_hash (source_config true) two_of_four
           [20; 10; 0; 0]);
    [exact two_of_four_uncorrupted | reflexivity | reflexivity | exact Hp].
Defined.

Lemma reading_a_sound_stack_witness :
  uncorrupted example_hash two_of_four /\ errors_ two_of_four = 0 /\
  empty example_hash (source_config true) two_of_four =
    Normal false two_of_four [] /\
  forall l x, live two_of_four = l ++ [x] ->
    top example_hash (source_config true) two_of_four =
      Normal x two_of_four [] /\
    exists s',
      pop example_hash (source_config true) two_of_four = Normal tt s' [] /\
      live s' = l /\ buffer_ s' = buffer_ two_of_four /\
      capacity_ s' = capacity_ two_of_four /\
      uncorrupted example_hash s' /\ errors_ s' = 0.
Proof.
  split; [exact two_of_four_uncorrupted|]. split; [reflexivity|].
  exact (reading_a_sound_stack example_hash (source_config true) two_of_four
           two_of_four_uncorrupted eq_refl).
Defined.

Lemma full_two_growing_uncorrupted :
  uncorrupted example_hash (with_allocator [] full_two).
Proof. repeat split; cbn; lia. Qed.

Lemma push_then_top_witness :
  uncorrupted example_hash two_of_four /\ errors_ two_of_four = 0 /\
  argument_value false (Element 1) two_of_four = Some 20 /\
  push_ref example_hash (source_config true) (Element 1) two_of_four =
    Normal tt (pushed example_hash 20 two_of_four) [] /\
  live (pushed example_hash 20 two_of_four) = live two_of_four ++ [20] /\
  top example_hash (source_config true) (pushed example_hash 20 two_of_four) =
    Normal 20 (pushed example_hash 20 two_of_four) [] /\
  uncorrupted example_hash (pushed example_hash 20 two_of_four) /\
  errors_ (pushed example_hash 20 two_of_four) = 0 /\
  forall i, (Element 1 : argument Z) = Element i ->
            frees_block two_of_four = false.
Proof.
  split; [exact two_of_four_uncorrupted|]. split; [reflexivity|].
  split; [reflexivity|]. split; [reflexivity|].
  apply (push_then_top example_hash (fun x => x) (source_config true)
           (Element 1) 20 two_of_four (pushed example_hash 20 two_of_four) []);
    [exact two_of_four_uncorrupted | reflexivity | reflexivity
    | left; reflexivity].
Defined.

Lemma push_of_own_element_at_growth_witness :
  uncorrupted example_hash (with_allocator [] full_two) /\
  errors_ (with_allocator [] full_two) = 0 /\
  size_ (with_allocator [] full_two) = capacity_ (with_allocator [] full_two) /\
  0 < capacity_ (with_allocator [] full_two) /\
  allocate (allocator_ (with_allocator [] full_two))
    (wrap (size_ (with_allocator [] full_two) * GROWTH_FACTOR_)) =
    ([], Some [0; 0; 0; 0]) /\
  slot (with_allocator [] full_two) 1 = Some 20 /\
  frees_block (with_allocator [] full_two) = true /\
  push_ref example_hash (source_config true) (Element 1)
    (with_allocator [] full_two) = Undefined [Ev_expand 2 4] /\
  push_rvalue_ref example_hash (fun x => x) (source_config true) (Element 1)
    (with_allocator [] full_two) = Undefined [Ev_expand 2 4].
Proof.
  split; [exact full_two_growing_uncorrupted|]. split; [reflexivity|].
  split; [reflexivity|]. split; [cbn; lia|]. split; [reflexivity|].
  split; [reflexivity|].
  exact (push_of_own_element_at_growth example_hash (fun x => x)
           (source_config true) 1 (with_allocator [] full_two) []
           [0; 0; 0; 0] full_two_growing_uncorrupted eq_refl eq_refl
           eq_refl eq_refl).
Defined.


Lemma drain_reverses_witness :
  uncorrupted example_hash two_of_four /\ errors_ two_of_four = 0 /\
  (length (live two_of_four) <= 5)%nat /\
  exists s',
    drain example_hash (source_config true) 5 two_of_four =
      Normal [20; 10] s' [] /\
    live s' = [] /\ uncorrupted example_hash s' /\ errors_ s' = 0 /\
    capacity_ s' = 4 /\ buffer_ s' = Some [10; 20; 0; 0].
Proof.
  split; [exact two_of_four_uncorrupted|]. split; [reflexivity|].
  split; [vm_compute; lia|].
  apply (drain_reverses example_hash (source_config true) 5 two_of_four);
    [exact two_of_four_uncorrupted | reflexivity | vm_compute; lia].
Defined.

Lemma fast_mode_never_reports_witness :
  safe_mode (fast_config true) = false /\
  (forall o s, unreported (fast_config true)
                 (exec example_hash (fast_config true) o s)) /\
  (forall capacity (a : list bool),
     unreported (fast_config true)
       (construct example_hash (fast_config true) capacity a)) /\
  (assertions (fast_config true) = false ->
   forall o (s : CherepkovStack Z (list bool)) d,
     ~ In (Stderr d) (trace_of (exec example_hash (fast_config true) o s))).
Proof.
  split; [reflexivity|].
  exact (fast_mode_never_reports (A := list bool) example_hash
           (fast_config true) eq_refl).
Defined.

Lemma fast_mode_empty_misuse_witness :
  safe_mode (fast_config true) = false /\ layout_ok fresh_two /\
  size_ fresh_two = 0 /\
  pop example_hash (fast_config true) fresh_two =
    Normal tt (with_errors 2 fresh_two) [] /\
  top example_hash (fast_config true) fresh_two = Undefined [].
Proof.
  assert (Hl : layout_ok fresh_two) by (cbn; lia).
  split; [reflexivity|]. split; [exact Hl|]. split; [reflexivity|].
  exact (fast_mode_empty_misuse example_hash (fast_config true) fresh_two
           eq_refl Hl eq_refl).
Defined.

Lemma safe_mode_keeps_layout_witness :
  safe_mode (source_config true) = true /\ layout_ok damaged_two /\
  0 < capacity_ damaged_two /\
  Forall (fun c : call Z => is_Some (by_value c))
    [Call_push (Outside 1); Call_push_rvalue (Outside 2); Call_pop; Call_top;
     Call_empty; Call_push (Outside 3)] /\
  exists s',
    run_calls example_hash (fun x => x) (source_config true)
      [Call_push (Outside 1); Call_push_rvalue (Outside 2); Call_pop; Call_top;
       Call_empty; Call_push (Outside 3)] damaged_two = Some s' /\
    layout_ok s' /\ capacity_ damaged_two <= capacity_ s' /\
    canary_before_ s' = canary_before_ damaged_two /\
    canary_after_ s' = canary_after_ damaged_two.
Proof.
  assert (Hout : Forall (fun c : call Z => is_Some (by_value c))
            [Call_push (Outside 1); Call_push_rvalue (Outside 2); Call_pop;
             Call_top; Call_empty; Call_push (Outside 3)])
    by (repeat first [ apply Forall_nil_2
                     | apply Forall_cons_2; [eexists; reflexivity|] ]).
  split; [reflexivity|]. split; [exact damaged_two_layout|].
  split; [cbn; lia|]. split; [exact Hout|].
  apply (safe_mode_keeps_layout example_hash (fun x => x) (source_config true)
           _ damaged_two);
    [reflexivity | exact damaged_two_layout | cbn; lia | exact Hout].
Defined.


Lemma growth_steps_witness :
  0 < 2 /\ 2 < Z.of_nat (length [10; 20; 30; 40; 50]) /\
  exists s',
    construct_push_all example_hash (source_config true) 2 []
      [10; 20; 30; 40; 50] =
      Normal tt s' [Ev_expand 2 4; Ev_expand 4 8] /\
    live s' = [10; 20; 30; 40; 50] /\ size_ s' = 5 /\ capacity_ s' = 8 /\
    errors_ s' = 0.
Proof.
  split; [lia|]. split; [cbn; lia|].
  apply (growth_steps example_hash (source_config true) 2 []
           [10; 20; 30; 40; 50]); [lia | cbn; lia |].
  intros n. vm_compute. intros [E|[E|[]]]; discriminate.
Defined.

Lemma expand_success_witness :
  layout_ok (with_allocator [] full_two) /\
  size_ (with_allocator [] full_two) = capacity_ (with_allocator [] full_two) /\
  allocate (allocator_ (with_allocator [] full_two))
    (wrap (size_ (with_allocator [] full_two) * GROWTH_FACTOR_)) =
    ([], Some [0; 0; 0; 0]) /\
  exists s',
    expand (source_config true) (with_allocator [] full_two) =
      Normal tt s' [Ev_expand 2 4] /\
    layout_ok s' /\ capacity_ s' = 4 /\
    live s' = [10; 20] /\ size_ s' = 2 /\
    control_sum_ s' = 944 /\ errors_ s' = 0 /\
    canary_before_ s' = POISON /\ canary_after_ s' = POISON /\
    allocator_ s' = [] /\
    forall i : nat, 2 <= Z.of_nat i ->
                    default [] (buffer_ s') !! i = [0; 0; 0; 0] !! i.
Proof.
  assert (Hl : layout_ok (with_allocator [] full_two)) by (cbn; lia).
  split; [exact Hl|]. split; [reflexivity|]. split; [reflexivity|].
  exact (expand_success (source_config true) (with_allocator [] full_two) []
           [0; 0; 0; 0] Hl eq_refl eq_refl).
Defined.

Lemma push_growth_failure_witness :
  layout_ok full_two /\ size_ full_two = capacity_ full_two /\
  allocate (allocator_ full_two) (wrap (size_ full_two * GROWTH_FACTOR_)) =
    ([], None) /\
  (safe_mode (source_config true) = true ->
   exists s',
     push example_hash (source_config true) 30 full_two =
       Thrown s' (Ev_bad_alloc 4 :: report (source_config true) s') /\
     has_error BAD_ALLOC s' = true /\
     size_ s' = 2 /\ buffer_ s' = Some [10; 20] /\
     capacity_ s' = 2 /\ control_sum_ s' = 944) /\
  (safe_mode (source_config true) = false ->
   push example_hash (source_config true) 30 full_two =
   Aborted [Ev_bad_alloc 4; Stderr Assertion_failed]).
Proof.
  assert (Hl : layout_ok full_two) by (cbn; lia).
  split; [exact Hl|]. split; [reflexivity|]. split; [reflexivity|].
  exact (push_growth_failure example_hash (source_config true) 30 full_two []
           Hl eq_refl eq_refl).
Defined.

Lemma pushes_that_fit_witness :
  uncorrupted example_hash two_of_four /\ errors_ two_of_four = 0 /\
  size_ two_of_four + Z.of_nat (length [1; 2]) <= capacity_ two_of_four /\
  exists s',
    push_all example_hash (source_config true) [1; 2] two_of_four =
      Normal tt s' [] /\
    live s' = [10; 20; 1; 2] /\ capacity_ s' = 4 /\
    allocator_ s' = [] /\
    uncorrupted example_hash s' /\ errors_ s' = 0.
Proof.
  split; [exact two_of_four_uncorrupted|]. split; [reflexivity|].
  split; [cbn; lia|].
  apply (pushes_that_fit example_hash (source_config true) [1; 2] two_of_four);
    [exact two_of_four_uncorrupted | reflexivity | cbn; lia].
Defined.

Lemma construct_success_witness :
  allocate [true] 3 = ([], Some [0; 0; 0]) /\
  exists s0,
    construct example_hash (source_config true) 3 [true] = Normal tt s0 [] /\
    uncorrupted example_hash s0 /\ errors_ s0 = 0 /\
    size_ s0 = 0 /\ capacity_ s0 = 3 /\ live s0 = [] /\
    buffer_ s0 = Some [0; 0; 0] /\ allocator_ s0 = [] /\
    empty example_hash (source_config true) s0 = Normal true s0 [].
Proof.
  split; [reflexivity|].
  exact (construct_success example_hash (source_config true) 3 [true] []
           [0; 0; 0] eq_refl).
Defined.

Lemma corrupted_canary_is_fatal_witness :
  safe_mode (source_config true) = true /\ layout_ok damaged_two /\
  (canary_before_ damaged_two <> POISON \/ canary_after_ damaged_two <> POISON) /\
  exists s',
    fatal (source_config true)
      (exec example_hash (source_config true) (Push 5) damaged_two) s' /\
    (canary_before_ damaged_two <> POISON ->
     has_error CANARY_BEFORE_CORRUPTED s' = true) /\
    (canary_after_ damaged_two <> POISON ->
     has_error CANARY_AFTER_CORRUPTED s' = true) /\
    forall ops, all_fatal example_hash (source_config true) ops s'.
Proof.
  assert (Hc : canary_before_ damaged_two <> POISON \/
               canary_after_ damaged_two <> POISON) by (right; discriminate).
  split; [reflexivity|]. split; [exact damaged_two_layout|].
  split; [exact Hc|].
  exact (corrupted_canary_is_fatal example_hash (source_config true) (Push 5)
           damaged_two eq_refl damaged_two_layout Hc).
Defined.
